(** * Layered codegraph scripts: validator and triage

    A shallow embedding of [validate_codegraph.py] and
    [triage_entrypoints.py] (skill [layered-codegraph-creator]) and the
    properties of their parsers, of the schema-conformance check and of
    the triage ranking; and of [init_investigation_workspace.py] (skill
    [protocol-investigation-orchestrator]), the script that scaffolds the
    workspace in which these documents live.

    Modelling conventions.
    - Python [str] is [string]: the texts are those whose characters are
      code points below 256.  On these, whitespace ([str.strip], the regex
      class [\s]) is [Py_UNICODE_ISSPACE]: TAB..CR, FS..US, SPACE, U+0085
      and U+00A0; and [str.lower] also lowers the Latin-1 capitals.
    - Python [set] is [gset string], [dict] is [gmap string _]; the only
      dict that is iterated ([by_func]) is iterated in insertion order,
      which the model keeps as the key list it was built from.
    - Paths are the POSIX paths of [pathlib]: [Path(dir) / name] drops
      doubled and trailing slashes and single-dot components, and
      [path_join dir name] is the text of that path.
    - A file system is a finite map from the text of a path to what
      [read_text(encoding="utf-8")] finds there: a text, given as the
      list of lines that [splitlines()] yields for it, or something that
      cannot be read as text (bytes that are not UTF-8, a directory, no
      permission), for which [read_text] raises an exception other than
      [FileNotFoundError]; an absent key is a missing file.
    - Exceptions are an error monad; the lines that a script prints are
      an explicit output, of which the interpreter's own report of the
      exception that ends a run is no part.
    - The scaffolding script acts on a tree of directories and files: a
      finite map from a path (its components, innermost first) to a file
      with its content or to a directory.  Its steps thread this map and
      end with a value or with an [OSError]; permissions, links and
      concurrent changes of the tree are not modelled. *)

From Stdlib Require Import Ascii.
From stdpp Require Import gmap strings list sorting pretty.

Open Scope string_scope.
Open Scope list_scope.
Open Scope nat_scope.

(** ** Python text primitives used by both scripts *)

(** [Py_UNICODE_ISSPACE] on code points below 256, which is the
    whitespace of [str.strip] and of the regex class [\s] on [str]:
    TAB..CR, FS..US, SPACE, NEL (U+0085) and NO-BREAK SPACE (U+00A0). *)
Definition is_space (c : ascii) : bool :=
  match c with
  | "009" | "010" | "011" | "012" | "013"
  | "028" | "029" | "030" | "031" | " "
  | "133" | "160" => true
  | _ => false
  end%char.

Fixpoint lstrip (s : string) : string :=
  match s with
  | String c s' => if is_space c then lstrip s' else s
  | EmptyString => EmptyString
  end.

Fixpoint rstrip (s : string) : string :=
  match s with
  | EmptyString => EmptyString
  | String c s' =>
      match rstrip s' with
      | EmptyString => if is_space c then EmptyString else String c EmptyString
      | r => String c r
      end
  end.

(** [s.strip()] *)
Definition strip (s : string) : string := rstrip (lstrip s).

(** [bool(s)] for a string: non-empty. *)
Definition nonempty (s : string) : bool :=
  match s with EmptyString => false | _ => true end.

(** [s.startswith(p)] *)
Definition startswith (p s : string) : bool := String.prefix p s.

Fixpoint drop_chars (n : nat) (s : string) : string :=
  match n, s with
  | O, _ => s
  | S n', String _ s' => drop_chars n' s'
  | S _, EmptyString => EmptyString
  end.

(** The leftmost occurrence of a non-empty [sep] in [s]: the text before
    it and the text after it.  [sep in s] is [is_Some (split_once sep s)],
    and then [s.split(sep, 1)] is the pair. *)
Fixpoint split_once (sep s : string) : option (string * string) :=
  if String.prefix sep s then Some (EmptyString, drop_chars (String.length sep) s)
  else match s with
       | EmptyString => None
       | String c s' =>
           match split_once sep s' with
           | Some (a, b) => Some (String c a, b)
           | None => None
           end
       end.

(** [sep in s] *)
Definition contains (sep s : string) : bool :=
  match split_once sep s with Some _ => true | None => false end.

(** [s.split(c)] for a one-character separator. *)
Fixpoint split_char (c : ascii) (s : string) : list string :=
  match s with
  | EmptyString => [EmptyString]
  | String a s' =>
      if Ascii.eqb a c then EmptyString :: split_char c s'
      else match split_char c s' with
           | h :: t => String a h :: t
           | [] => [String a EmptyString]
           end
  end.

(** [str.lower] on code points below 256: A..Z, and the Latin-1 capitals
    U+00C0..U+00DE without the multiplication sign U+00D7. *)
Definition lower_char (c : ascii) : ascii :=
  let n := nat_of_ascii c in
  if (65 <=? n)%nat && (n <=? 90)%nat then ascii_of_nat (n + 32)
  else if (192 <=? n)%nat && (n <=? 222)%nat && negb (n =? 215)%nat
       then ascii_of_nat (n + 32)
       else c.

Fixpoint lower (s : string) : string :=
  match s with
  | EmptyString => EmptyString
  | String c s' => String (lower_char c) (lower s')
  end.

(** [sep.join(parts)] *)
Fixpoint join (sep : string) (parts : list string) : string :=
  match parts with
  | [] => EmptyString
  | [p] => p
  | p :: rest => p +:+ sep +:+ join sep rest
  end.

(** [_BULLET_RE = re.compile(r"^\s*-\s+")].  The pattern is anchored, so it
    matches at most once, at position 0: all leading whitespace, a dash,
    and all the whitespace after it, of which there is at least one.
    [bullet_rest line] is what is left of the line after the match. *)
Definition bullet_rest (line : string) : option string :=
  match lstrip line with
  | String "-" (String c rest) =>
      if is_space c then Some (lstrip rest) else None
  | _ => None
  end.

(** [_BULLET_RE.match(line)] as a truth value. *)
Definition BULLET_RE_match (line : string) : bool :=
  match bullet_rest line with Some _ => true | None => false end.

(** [_BULLET_RE.sub("", line)] *)
Definition BULLET_RE_sub (line : string) : string :=
  match bullet_rest line with Some rest => rest | None => line end.

(** [enumerate(lines, start=1)] *)
Definition enumerate1 {A} (l : list A) : list (nat * A) :=
  zip (seq 1 (length l)) l.

(** Orders given by a three-way comparison, as Python's [<] on [int],
    [str] and tuples: [cmp_le] is the order of [sorted(xs)] and [cmp_ge]
    the order of [xs.sort(reverse=True)]. *)
Definition cmp_le {A} (cmp : A → A → comparison) : relation A :=
  λ x y, cmp x y ≠ Gt.
Definition cmp_ge {A} (cmp : A → A → comparison) : relation A :=
  λ x y, cmp x y ≠ Lt.

#[global] Instance cmp_le_dec {A} (cmp : A → A → comparison) :
  RelDecision (cmp_le cmp).
Proof. intros x y. unfold cmp_le. apply _. Defined.
#[global] Instance cmp_ge_dec {A} (cmp : A → A → comparison) :
  RelDecision (cmp_ge cmp).
Proof. intros x y. unfold cmp_ge. apply _. Defined.

(** Tuples compare by their first differing component. *)
Definition lex_compare {A B} (ca : A → A → comparison)
    (cb : B → B → comparison) (x y : A * B) : comparison :=
  match ca x.1 y.1 with
  | Eq => cb x.2 y.2
  | c => c
  end.

(** What makes a three-way comparison a total order. *)
Class CmpSpec {A} (cmp : A → A → comparison) := {
  cmp_eq x y : cmp x y = Eq → x = y;
  cmp_refl x : cmp x x = Eq;
  cmp_antisym x y : cmp y x = CompOpp (cmp x y);
  cmp_lt_trans x y z : cmp x y = Lt → cmp y z = Lt → cmp x z = Lt
}.

(** [sorted(xs)] on strings: ascending by code point. *)
Definition sorted_strings (xs : list string) : list string :=
  merge_sort (cmp_le String.compare) xs.

(** [xs[:n]] *)
Definition slice_to {A} (n : Z) (xs : list A) : list A :=
  if (0 <=? n)%Z then take (Z.to_nat n) xs
  else take (Z.to_nat (Z.of_nat (length xs) + n)) xs.

(** ** Files, paths, exceptions, process results *)

(** Paths are the POSIX paths of [pathlib].  [Path(s)] keeps of [s] its
    root (two slashes when [s] begins with exactly two, one slash when
    it begins with one or with three and more, none otherwise) and its
    components: the pieces between slashes that are neither empty nor a
    single dot. *)
Definition path_root (s : string) : string :=
  match s with
  | String "/" (String "/" (String "/" _)) => "/"
  | String "/" (String "/" _) => "//"
  | String "/" _ => "/"
  | _ => ""
  end.

Definition path_parts (s : string) : list string :=
  filter (λ p, p ≠ "" ∧ p ≠ ".") (split_char "/" s).

(** [str(path)] of the path with this root and these components. *)
Definition path_str (root : string) (parts : list string) : string :=
  match root, parts with
  | EmptyString, [] => "."
  | _, _ => root +:+ join "/" parts
  end.

(** [str(Path(dir) / name)]; a [name] that has a root replaces [dir]. *)
Definition path_join (dir name : string) : string :=
  if nonempty (path_root name)
  then path_str (path_root name) (path_parts name)
  else path_str (path_root dir) (path_parts dir ++ path_parts name).

(** What [read_text(encoding="utf-8")] raises at a path that exists but
    gives no text.  Neither script catches any of these. *)
Inductive read_error :=
  | UnicodeDecodeError   (* the bytes of the file are not UTF-8 *)
  | OSError              (* [PermissionError], [IsADirectoryError], ... *)
  | ValueError.          (* a NUL character in the path *)

(** What is found at a path: a text, given as the lines that
    [read_text(encoding="utf-8").splitlines()] yields for it, or
    something that cannot be read as a text.  A path that is no key of
    the file system is a missing file. *)
Inductive file :=
  | Text (lines : list string)
  | Unreadable (e : read_error).

Inductive exn :=
  | SystemExitMsg (msg : string)     (* [raise SystemExit("...")] *)
  | SystemExitCode (code : Z)        (* [raise SystemExit(n)] *)
  | FileNotFoundError (path : string)
  | ReadError (e : read_error).      (* what [read_text] raised *)

Inductive result (A : Type) :=
  | Ok (a : A)
  | Raise (e : exn).
Arguments Ok {A} a.
Arguments Raise {A} e.

#[global] Instance result_ret : MRet result := λ A a, Ok a.
#[global] Instance result_bind : MBind result := λ A B k r,
  match r with
  | Ok a => k a
  | Raise e => Raise e
  end.

(** What the [print] calls of a script wrote on the two streams.  What
    the interpreter itself reports when an exception ends the run (the
    message of a [SystemExit("...")], a traceback) is no part of it. *)
Record output := { stdout : list string; stderr : list string }.

(** The exit status of the interpreter: 0 on normal completion, the code
    of a [SystemExit(n)], and 1 for [SystemExit("msg")] or an exception
    that nothing catches. *)
Definition exit_status {A} (r : result A) : Z :=
  match r with
  | Ok _ => 0
  | Raise (SystemExitCode n) => n
  | Raise (SystemExitMsg _) => 1
  | Raise (FileNotFoundError _) => 1
  | Raise (ReadError _) => 1
  end.

(** ** [validate_codegraph.py] *)

Module validate_codegraph.

Record Edge := {
  edge_type : string;
  src : string;
  dst : string;
  raw : string;
  line_no : nat
}.

(** [_read_lines]: only [FileNotFoundError] is caught. *)
Definition _read_lines (fs : gmap string file) (path : string)
  : result (list string) :=
  match fs !! path with
  | Some (Text lines) => Ok lines
  | Some (Unreadable e) => Raise (ReadError e)
  | None => Raise (SystemExitMsg ("missing file: " +:+ path))
  end.

(** [section: str | None] *)
Inductive section := SecNone | SecNodes | SecEdges.

Record schema_state := {
  node_types : gset string;
  edge_types : gset string;
  cur : section
}.

(** One iteration of the loop of [parse_schema]. *)
Definition schema_step (st : schema_state) (line : string) : schema_state :=
  let stripped := strip line in
  if decide (stripped = "## Node Types") then
    {| node_types := node_types st; edge_types := edge_types st; cur := SecNodes |}
  else if decide (stripped = "## Edge Types") then
    {| node_types := node_types st; edge_types := edge_types st; cur := SecEdges |}
  else if negb (BULLET_RE_match line) then st
  else
    let label := strip (BULLET_RE_sub line) in
    if negb (nonempty label) then st
    else match cur st with
         | SecNodes =>
             {| node_types := {[label]} ∪ node_types st;
                edge_types := edge_types st; cur := cur st |}
         | SecEdges =>
             {| node_types := node_types st;
                edge_types := {[label]} ∪ edge_types st; cur := cur st |}
         | SecNone => st
         end.

Definition schema_init : schema_state :=
  {| node_types := ∅; edge_types := ∅; cur := SecNone |}.

Definition parse_schema_lines (lines : list string) : schema_state :=
  foldl schema_step schema_init lines.

Definition parse_schema (fs : gmap string file) (schema_path : string)
  : result (gset string * gset string) :=
  lines ← _read_lines fs schema_path;
  let st := parse_schema_lines lines in
  mret (node_types st, edge_types st).

(** One iteration of the loop of [parse_nodes]: [nodes[token] = node_type]. *)
Definition nodes_step (nodes : gmap string string) (line : string)
  : gmap string string :=
  if negb (BULLET_RE_match line) then nodes
  else
    let token := strip (BULLET_RE_sub line) in
    if negb (nonempty token) || startswith "http://" token
       || startswith "https://" token then nodes
    else match split_once ":" token with
         | None => nodes
         | Some (node_type, _) => <[token := node_type]> nodes
         end.

Definition parse_nodes_lines (lines : list string) : gmap string string :=
  foldl nodes_step ∅ lines.

Definition parse_nodes (fs : gmap string file) (nodes_path : string)
  : result (gmap string string) :=
  lines ← _read_lines fs nodes_path;
  mret (parse_nodes_lines lines).

(** The body of the loop of [parse_edges] for one numbered line: the edge
    it appends, if any. *)
Definition edge_of_line (numbered : nat * string) : option Edge :=
  let '(n, line) := numbered in
  if negb (BULLET_RE_match line) then None
  else
    let token := strip (BULLET_RE_sub line) in
    if negb (nonempty token) then None
    else match strip <$> split_char "|" token with
         | ety :: link :: _ =>
             match split_once "->" link with
             | None => None
             | Some (a, b) =>
                 let s := strip a in
                 let d := strip b in
                 if negb (nonempty s) || negb (nonempty d) then None
                 else Some {| edge_type := ety; src := s; dst := d;
                              raw := line; line_no := n |}
             end
         | _ => None
         end.

Definition parse_edges_lines (lines : list string) : list Edge :=
  foldl (λ edges nl,
           match edge_of_line nl with
           | Some e => edges ++ [e]
           | None => edges
           end) [] (enumerate1 lines).

Definition parse_edges (fs : gmap string file) (edges_path : string)
  : result (list Edge) :=
  lines ← _read_lines fs edges_path;
  mret (parse_edges_lines lines).

(** [sorted(nodes.items())]: pairs ordered by key, then by value. *)
Definition sorted_items (nodes : gmap string string) : list (string * string) :=
  merge_sort (cmp_le (lex_compare String.compare String.compare))
             (map_to_list nodes).

Definition node_type_error (node node_type : string) : string :=
  "node type not in schema: " +:+ node_type +:+ " (" +:+ node +:+ ")".
Definition edge_type_error (edges_path : string) (e : Edge) : string :=
  edges_path +:+ ":" +:+ pretty (line_no e) +:+ ": edge type not in schema: "
    +:+ edge_type e.
Definition missing_src_error (edges_path : string) (e : Edge) : string :=
  edges_path +:+ ":" +:+ pretty (line_no e) +:+ ": missing src node: " +:+ src e.
Definition missing_dst_error (edges_path : string) (e : Edge) : string :=
  edges_path +:+ ":" +:+ pretty (line_no e) +:+ ": missing dst node: " +:+ dst e.

(** The body of the first loop of [validate]. *)
Definition check_node (node_types : gset string) (errors : list string)
    (item : string * string) : list string :=
  let '(node, node_type) := item in
  if decide (node_type ∉ node_types)
  then errors ++ [node_type_error node node_type]
  else errors.

(** The body of the second loop of [validate]: three separate [if]s. *)
Definition check_edge (edge_types : gset string) (nodes : gmap string string)
    (edges_path : string) (errors : list string) (e : Edge) : list string :=
  let errors1 :=
    if decide (edge_type e ∉ edge_types)
    then errors ++ [edge_type_error edges_path e] else errors in
  let errors2 :=
    if decide (nodes !! src e = None)
    then errors1 ++ [missing_src_error edges_path e] else errors1 in
  if decide (nodes !! dst e = None)
  then errors2 ++ [missing_dst_error edges_path e] else errors2.

Definition collect_errors (node_types edge_types : gset string)
    (nodes : gmap string string) (edges : list Edge) (edges_path : string)
  : list string :=
  let errors := foldl (check_node node_types) [] (sorted_items nodes) in
  foldl (check_edge edge_types nodes edges_path) errors edges.

(** [validate]: the value returned and what was printed. *)
Definition validate (fs : gmap string file) (codegraph_dir : string)
  : result (Z * output) :=
  let schema_path := path_join codegraph_dir "00_schema.md" in
  let nodes_path := path_join codegraph_dir "01_nodes.md" in
  let edges_path := path_join codegraph_dir "02_edges.md" in
  '(node_types, edge_types) ← parse_schema fs schema_path;
  nodes ← parse_nodes fs nodes_path;
  edges ← parse_edges fs edges_path;
  let errors := collect_errors node_types edge_types nodes edges edges_path in
  match errors with
  | _ :: _ =>
      mret (1%Z, {| stdout := [];
                    stderr := "codegraph validation: FAIL"
                                :: ((λ err, "- " +:+ err) <$> errors) |})
  | [] =>
      mret (0%Z, {| stdout := [ "codegraph validation: OK";
                                "- nodes: " +:+ pretty (size nodes);
                                "- edges: " +:+ pretty (length edges) ];
                    stderr := [] |})
  end.

(** [main]: [raise SystemExit(validate(Path(args.codegraph_dir)))];
    what was printed, and the exception that ends the run. *)
Definition main (fs : gmap string file) (codegraph_dir : string)
  : output * result unit :=
  match validate fs codegraph_dir with
  | Ok (code, out) => (out, Raise (SystemExitCode code))
  | Raise e => ({| stdout := []; stderr := [] |}, Raise e)
  end.

End validate_codegraph.

(** ** [triage_entrypoints.py] *)

Module triage_entrypoints.

Record Edge := {
  edge_type : string;
  src : string;
  dst : string;
  line_no : nat
}.

(** [_csv_set] *)
Definition _csv_set (value : string) : gset string :=
  list_to_set (filter (λ v, nonempty v) (strip <$> split_char "," value)).

(** The accepted spellings of the label-map header. *)
Definition label_map_headers : list string :=
  ["label map"; "label mapping"; "label-map"; "label-mapping"].

(** The [for sep in ("->", "=", ":")] loop of [parse_label_map]: the first
    separator that occurs in the token decides, and the loop stops there
    whether or not it stored a pair. *)
Fixpoint map_token (seps : list string) (token : string)
    (mapping : gmap string string) : gmap string string :=
  match seps with
  | [] => mapping
  | sep :: seps' =>
      match split_once sep token with
      | None => map_token seps' token mapping
      | Some (a, b) =>
          let s := strip a in
          let d := strip b in
          if nonempty s && nonempty d then <[s := d]> mapping else mapping
      end
  end.

(** One iteration of the loop of [parse_label_map] over
    [(mapping, in_section)]. *)
Definition label_map_step (st : gmap string string * bool) (line : string)
  : gmap string string * bool :=
  let '(mapping, in_section) := st in
  let stripped := strip line in
  if startswith "## " stripped then
    let header := lower (strip (drop_chars 3 stripped)) in
    (mapping, bool_decide (header ∈ label_map_headers))
  else if negb in_section then st
  else if negb (BULLET_RE_match line) then st
  else
    let token := strip (BULLET_RE_sub line) in
    if negb (nonempty token) then st
    else (map_token ["->"; "="; ":"] token mapping, in_section).

(** [parse_label_map]: a missing schema file is caught and gives [{}];
    any other exception of [read_text] is not caught. *)
Definition parse_label_map (fs : gmap string file)
    (schema_path : string) : result (gmap string string) :=
  match fs !! schema_path with
  | None => Ok ∅
  | Some (Text lines) => Ok (foldl label_map_step (∅, false) lines).1
  | Some (Unreadable e) => Raise (ReadError e)
  end.

(** [_node_type] *)
Definition _node_type (node : string) : string :=
  match split_once ":" node with
  | Some (t, _) => t
  | None => ""
  end.

(** [_read_lines]: nothing catches the exception of a missing file, nor
    that of a file that cannot be read as text. *)
Definition _read_lines (fs : gmap string file) (path : string)
  : result (list string) :=
  match fs !! path with
  | Some (Text lines) => Ok lines
  | Some (Unreadable e) => Raise (ReadError e)
  | None => Raise (FileNotFoundError path)
  end.

(** One iteration of the loop of [parse_nodes]: [nodes.add(token)]. *)
Definition nodes_step (nodes : gset string) (line : string) : gset string :=
  if negb (BULLET_RE_match line) then nodes
  else
    let token := strip (BULLET_RE_sub line) in
    if negb (nonempty token) || negb (contains ":" token) then nodes
    else {[token]} ∪ nodes.

Definition parse_nodes_lines (lines : list string) : gset string :=
  foldl nodes_step ∅ lines.

Definition parse_nodes (fs : gmap string file) (nodes_path : string)
  : result (gset string) :=
  lines ← _read_lines fs nodes_path;
  mret (parse_nodes_lines lines).

Definition edge_of_line (numbered : nat * string) : option Edge :=
  let '(n, line) := numbered in
  if negb (BULLET_RE_match line) then None
  else
    let token := strip (BULLET_RE_sub line) in
    if negb (nonempty token) then None
    else match strip <$> split_char "|" token with
         | ety :: link :: _ =>
             match split_once "->" link with
             | None => None
             | Some (a, b) =>
                 let s := strip a in
                 let d := strip b in
                 if negb (nonempty s) || negb (nonempty d) then None
                 else Some {| edge_type := ety; src := s; dst := d;
                              line_no := n |}
             end
         | _ => None
         end.

Definition parse_edges_lines (lines : list string) : list Edge :=
  foldl (λ edges nl,
           match edge_of_line nl with
           | Some e => edges ++ [e]
           | None => edges
           end) [] (enumerate1 lines).

Definition parse_edges (fs : gmap string file) (edges_path : string)
  : result (list Edge) :=
  lines ← _read_lines fs edges_path;
  mret (parse_edges_lines lines).

(** [is_typed] *)
Definition is_typed (node type_name : string) : bool :=
  startswith (type_name +:+ ":") node.

(** The keyword arguments of [triage]. *)
Record labels := {
  func_type : string;
  asset_type : string;
  value_edge_types : gset string;
  call_edge_types : gset string;
  reads_edge_type : string;
  writes_edge_type : string;
  role_edge_type : string
}.

(** The per-function dict of [by_func]. *)
Record stats := {
  value_edges : nat;
  call_edges : nat;
  reads : nat;
  writes : nat;
  roles : gset string;
  assets : gset string
}.

Definition stats0 : stats :=
  {| value_edges := 0; call_edges := 0; reads := 0; writes := 0;
     roles := ∅; assets := ∅ |}.

(** [funcs = sorted([n for n in nodes if is_typed(n, func_type)])] *)
Definition funcs_of (nodes : gset string) (func_type : string) : list string :=
  sorted_strings (filter (λ n, is_typed n func_type) (elements nodes)).

(** [for func in funcs: by_func[func] = {...}] *)
Definition by_func_init (funcs : list string) : gmap string stats :=
  foldl (λ by_func func, <[func := stats0]> by_func) ∅ funcs.

(** The [if]/[elif] chain of the edge loop, on the dict of one function. *)
Definition bump (cfg : labels) (e : Edge) (st : stats) : stats :=
  if decide (edge_type e ∈ value_edge_types cfg) then
    {| value_edges := value_edges st + 1;
       call_edges := call_edges st; reads := reads st; writes := writes st;
       roles := roles st;
       assets := if is_typed (dst e) (asset_type cfg)
                 then {[dst e]} ∪ assets st else assets st |}
  else if decide (edge_type e ∈ call_edge_types cfg) then
    {| value_edges := value_edges st; call_edges := call_edges st + 1;
       reads := reads st; writes := writes st;
       roles := roles st; assets := assets st |}
  else if decide (edge_type e = reads_edge_type cfg) then
    {| value_edges := value_edges st; call_edges := call_edges st;
       reads := reads st + 1; writes := writes st;
       roles := roles st; assets := assets st |}
  else if decide (edge_type e = writes_edge_type cfg) then
    {| value_edges := value_edges st; call_edges := call_edges st;
       reads := reads st; writes := writes st + 1;
       roles := roles st; assets := assets st |}
  else if decide (edge_type e = role_edge_type cfg) then
    {| value_edges := value_edges st; call_edges := call_edges st;
       reads := reads st; writes := writes st;
       roles := {[dst e]} ∪ roles st; assets := assets st |}
  else st.

(** One iteration of [for edge in edges]. *)
Definition edge_step (cfg : labels) (by_func : gmap string stats) (e : Edge)
  : gmap string stats :=
  match by_func !! src e with
  | None => by_func
  | Some st => <[src e := bump cfg e st]> by_func
  end.

Definition by_func_of (cfg : labels) (funcs : list string) (edges : list Edge)
  : gmap string stats :=
  foldl (edge_step cfg) (by_func_init funcs) edges.

(** The tuples of [ranked]. *)
Definition rank : Type := nat * nat * nat * nat * nat * string.

Definition rank_of (func : string) (st : stats) : rank :=
  (value_edges st, size (assets st), call_edges st, writes st, reads st, func).

(** [bool(roles)] *)
Definition has_roles (st : stats) : bool := bool_decide (roles st ≠ ∅).

(** One iteration of [for func, stats in by_func.items()]; the keys come
    in insertion order, which is the order of [funcs]. *)
Definition rank_step (permissionless_only : bool) (by_func : gmap string stats)
    (ranked : list rank) (func : string) : list rank :=
  match by_func !! func with
  | None => ranked
  | Some st =>
      if permissionless_only && has_roles st then ranked
      else ranked ++ [rank_of func st]
  end.

Definition ranked_of (permissionless_only : bool) (funcs : list string)
    (by_func : gmap string stats) : list rank :=
  foldl (rank_step permissionless_only by_func) [] funcs.

(** Python's order on the tuples of [ranked]. *)
Definition rank_compare : rank → rank → comparison :=
  lex_compare (lex_compare (lex_compare (lex_compare (lex_compare
    Nat.compare Nat.compare) Nat.compare) Nat.compare) Nat.compare)
    String.compare.

(** [ranked.sort(reverse=True)] *)
Definition sort_reverse (ranked : list rank) : list rank :=
  merge_sort (cmp_ge rank_compare) ranked.

Definition label_str (xs : gset string) : string :=
  match sorted_strings (elements xs) with
  | [] => "none"
  | l => join "," l
  end.

(** The body of the rendering loop; [by_func[func]] is always present
    there, the tuple having been built from that very entry. *)
Definition render (by_func : gmap string stats) (t : rank) : string :=
  let '(value_edges, asset_count, call_edges, writes, reads, func) := t in
  let st := default stats0 (by_func !! func) in
  "- " +:+ func +:+ " | value_edges=" +:+ pretty value_edges
    +:+ " assets=" +:+ label_str (assets st)
    +:+ " calls=" +:+ pretty call_edges
    +:+ " writes=" +:+ pretty writes
    +:+ " reads=" +:+ pretty reads
    +:+ " roles=" +:+ label_str (roles st).

(** [triage] after the two files are parsed. *)
Definition triage_graph (nodes : gset string) (edges : list Edge)
    (limit : Z) (permissionless_only : bool) (cfg : labels) : list string :=
  let funcs := funcs_of nodes (func_type cfg) in
  let by_func := by_func_of cfg funcs edges in
  let ranked := sort_reverse (ranked_of permissionless_only funcs by_func) in
  render by_func <$> slice_to limit ranked.

Definition triage (fs : gmap string file) (codegraph_dir : string)
    (limit : Z) (permissionless_only : bool) (cfg : labels)
  : result (list string) :=
  let nodes_path := path_join codegraph_dir "01_nodes.md" in
  let edges_path := path_join codegraph_dir "02_edges.md" in
  nodes ← parse_nodes fs nodes_path;
  edges ← parse_edges fs edges_path;
  mret (triage_graph nodes edges limit permissionless_only cfg).

(** The parsed command line. *)
Record args := {
  arg_codegraph_dir : string;
  arg_limit : Z;
  arg_permissionless_only : bool;
  arg_no_label_map : bool;
  arg_func_type : string;
  arg_asset_type : string;
  arg_value_edges : string;
  arg_call_edges : string;
  arg_reads_edge : string;
  arg_writes_edge : string;
  arg_role_edge : string
}.

(** The defaults of the argument parser. *)
Definition default_args : args :=
  {| arg_codegraph_dir := "codegraph"; arg_limit := 50;
     arg_permissionless_only := false; arg_no_label_map := false;
     arg_func_type := "FUNC"; arg_asset_type := "ASSET";
     arg_value_edges := "TRANSFERS,MINTS,BURNS,COLLECTS_FEE";
     arg_call_edges := "EXT_CALLS,DELEGATECALLS,STATICCALLS";
     arg_reads_edge := "READS"; arg_writes_edge := "WRITES";
     arg_role_edge := "REQUIRES_ROLE" |}.

Definition header_line : string := "# Triage (higher first)".
Definition sentinel_line : string :=
  "- (no FUNC nodes found in SSOT; triage requires FUNC nodes + value edges like TRANSFERS/MINTS/BURNS/COLLECTS_FEE)".

(** The labels [main] passes to [triage] for a given label map: each
    argument goes through [m = lambda label: label_map.get(label, label)]. *)
Definition labels_with (label_map : gmap string string) (a : args) : labels :=
  let m := λ label : string, default label (label_map !! label) in
  {| func_type := m (arg_func_type a);
     asset_type := m (arg_asset_type a);
     value_edge_types := set_map m (_csv_set (arg_value_edges a));
     call_edge_types := set_map m (_csv_set (arg_call_edges a));
     reads_edge_type := m (arg_reads_edge a);
     writes_edge_type := m (arg_writes_edge a);
     role_edge_type := m (arg_role_edge a) |}.

(** [label_map = {} if args.no_label_map else parse_label_map(...)], and
    the labels that follow from it. *)
Definition labels_of (fs : gmap string file) (a : args) : result labels :=
  label_map ←
    (if arg_no_label_map a then Ok ∅
     else parse_label_map fs (path_join (arg_codegraph_dir a) "00_schema.md"));
  mret (labels_with label_map a).

(** [main]: the lines printed on the standard stream.  The label map is
    read first, the nodes and the edges after it. *)
Definition main (fs : gmap string file) (a : args)
  : result (list string) :=
  cfg ← labels_of fs a;
  lines ← triage fs (arg_codegraph_dir a) (arg_limit a)
            (arg_permissionless_only a) cfg;
  mret (header_line
          :: (if decide (length lines = 0) then [sentinel_line] else [])
          ++ lines).

End triage_entrypoints.

(** A bullet that [token.startswith(("http://", "https://"))] rejects. *)
Definition is_link (token : string) : Prop :=
  startswith "http://" token ∨ startswith "https://" token.

(** ** Direct descriptions that the properties compare the code with *)

(** A string that does not begin with whitespace. *)
Definition starts_clean (s : string) : Prop :=
  match s with
  | String c _ => is_space c = false
  | EmptyString => True
  end.

(** The triage edge that corresponds to a validator edge: the same fields
    without the raw line. *)
Definition forget_raw (e : validate_codegraph.Edge) : triage_entrypoints.Edge :=
  {| triage_entrypoints.edge_type := validate_codegraph.edge_type e;
     triage_entrypoints.src := validate_codegraph.src e;
     triage_entrypoints.dst := validate_codegraph.dst e;
     triage_entrypoints.line_no := validate_codegraph.line_no e |}.

(** What the edges document says about one function, counted directly:
    its outgoing edges by kind, an edge counting for the first kind that
    fits in the order value, call, reads, writes, role. *)
Definition outgoing_stats (cfg : triage_entrypoints.labels) (f : string)
    (edges : list triage_entrypoints.Edge) : triage_entrypoints.stats :=
  let ty := triage_entrypoints.edge_type in
  let from_f := λ e, triage_entrypoints.src e = f in
  let value := λ e, ty e ∈ triage_entrypoints.value_edge_types cfg in
  let call := λ e, ty e ∈ triage_entrypoints.call_edge_types cfg in
  let is_reads := λ e, ty e = triage_entrypoints.reads_edge_type cfg in
  let is_writes := λ e, ty e = triage_entrypoints.writes_edge_type cfg in
  let is_role := λ e, ty e = triage_entrypoints.role_edge_type cfg in
  {| triage_entrypoints.value_edges :=
       length (filter (λ e, from_f e ∧ value e) edges);
     triage_entrypoints.call_edges :=
       length (filter (λ e, from_f e ∧ ¬ value e ∧ call e) edges);
     triage_entrypoints.reads :=
       length (filter (λ e, from_f e ∧ ¬ value e ∧ ¬ call e ∧ is_reads e) edges);
     triage_entrypoints.writes :=
       length (filter (λ e, from_f e ∧ ¬ value e ∧ ¬ call e ∧ ¬ is_reads e
                            ∧ is_writes e) edges);
     triage_entrypoints.roles :=
       list_to_set (triage_entrypoints.dst <$>
         filter (λ e, from_f e ∧ ¬ value e ∧ ¬ call e ∧ ¬ is_reads e
                      ∧ ¬ is_writes e ∧ is_role e) edges);
     triage_entrypoints.assets :=
       list_to_set (triage_entrypoints.dst <$>
         filter (λ e, from_f e ∧ value e
                      ∧ triage_entrypoints.is_typed (triage_entrypoints.dst e)
                          (triage_entrypoints.asset_type cfg) = true) edges) |}.


(** ** [init_investigation_workspace.py] *)

(** The scaffolding script acts on a file system.  A path is the list of
    its components below the file-system root, innermost first, so that
    the tail of a path is its [Path.parent] and [root / name] is
    [name :: root]; the empty path is the root directory, which always
    exists.  File contents are the UTF-8 bytes that [write_text] writes. *)
Module init_investigation_workspace.

Inductive entry :=
  | File (content : string)
  | Dir.

(** The [OSError] subclasses that [mkdir] and [write_text] can raise. *)
Inductive os_error :=
  | FileExistsError
  | FileNotFoundError
  | NotADirectoryError
  | IsADirectoryError.

(** [path.exists()] *)
Definition exists_ (fs : gmap (list string) entry) (p : list string) : bool :=
  match p with
  | [] => true
  | _ => bool_decide (is_Some (fs !! p))
  end.

(** [path.is_dir()] *)
Definition is_dir (fs : gmap (list string) entry) (p : list string) : bool :=
  match p with
  | [] => true
  | _ => match fs !! p with Some Dir => true | _ => false end
  end.

(** [os.mkdir(path)]: the parent must be a directory and the path free. *)
Definition os_mkdir (p : list string) (fs : gmap (list string) entry)
  : os_error + gmap (list string) entry :=
  match p with
  | [] => inl FileExistsError
  | _ :: parent =>
      if is_dir fs parent then
        match fs !! p with
        | Some _ => inl FileExistsError
        | None => inr (<[p := Dir]> fs)
        end
      else if exists_ fs parent then inl NotADirectoryError
      else inl FileNotFoundError
  end.

(** [path.mkdir(parents=True, exist_ok=True)], as [pathlib] defines it:
    on [FileNotFoundError] make the parent, then the directory itself; on
    any other [OSError] pass if the path is a directory. *)
Fixpoint mkdir_p (p : list string) (fs : gmap (list string) entry)
  : os_error + gmap (list string) entry :=
  match os_mkdir p fs with
  | inr fs' => inr fs'
  | inl FileNotFoundError =>
      match p with
      | [] => inl FileNotFoundError
      | _ :: parent =>
          match mkdir_p parent fs with
          | inl e => inl e
          | inr fs' =>
              match os_mkdir p fs' with
              | inr fs'' => inr fs''
              | inl FileNotFoundError => inl FileNotFoundError
              | inl e => if is_dir fs' p then inr fs' else inl e
              end
          end
      end
  | inl e => if is_dir fs p then inr fs else inl e
  end.

(** [path.write_text(content, encoding="utf-8")] *)
Definition write_text (p : list string) (content : string)
    (fs : gmap (list string) entry) : os_error + gmap (list string) entry :=
  match p with
  | [] => inl IsADirectoryError
  | _ :: parent =>
      if is_dir fs parent then
        match fs !! p with
        | Some Dir => inl IsADirectoryError
        | _ => inr (<[p := File content]> fs)
        end
      else if exists_ fs parent then inl NotADirectoryError
      else inl FileNotFoundError
  end.

(** A step of the script: the file system it leaves, and its value or
    the exception that ended it. *)
Definition io (A : Type) : Type :=
  gmap (list string) entry → gmap (list string) entry * (os_error + A).

Definition ret {A} (a : A) : io A := λ fs, (fs, inr a).
Definition bind {A B} (m : io A) (k : A → io B) : io B :=
  λ fs, match m fs with
        | (fs', inr a) => k a fs'
        | (fs', inl e) => (fs', inl e)
        end.

Notation "x <- m ;; k" := (bind m (λ x, k))
  (at level 100, m at next level, right associativity).

(** A system call as a step: on failure the file system is unchanged. *)
Definition syscall (call : gmap (list string) entry
                            → os_error + gmap (list string) entry) : io unit :=
  λ fs, match call fs with
        | inr fs' => (fs', inr ())
        | inl e => (fs, inl e)
        end.

(** [_write_if_missing] *)
Definition _write_if_missing (p : list string) (content : string) : io bool :=
  λ fs,
    if exists_ fs p then (fs, inr false)
    else (_ <- syscall (mkdir_p (tail p)) ;;
          _ <- syscall (write_text p content) ;;
          ret true) fs.

(** [for name, content in files.items(): if _write_if_missing(dir / name,
    content): created.append(dir / name)], returning what it appended. *)
Fixpoint write_all (dir : list string) (files : list (string * string))
  : io (list (list string)) :=
  match files with
  | [] => ret []
  | (name, content) :: rest =>
      written <- _write_if_missing (name :: dir) content ;;
      created <- write_all dir rest ;;
      ret (if written then (name :: dir) :: created else created)
  end.

(** The text whose lines are [ls], each ended by a newline. *)
Fixpoint unlines (ls : list string) : string :=
  match ls with
  | [] => EmptyString
  | l :: rest => l +:+ String "010" (unlines rest)
  end.

(** The [ssot_files] dict: file name under [codegraph_dir], content. *)
Definition ssot_files : list (string * string) :=
  [
    ("00_schema.md",
     unlines [ "# Codegraph Schema (SSOT)";
               "";
               "## Node Types";
               "";
               "- ";
               "";
               "## Edge Types";
               "";
               "- ";
               "";
               "## Label Map (optional)";
               "";
               "- CANONICAL -> ACTUAL" ]);
    ("01_nodes.md",
     unlines [ "# Codegraph Nodes (SSOT)";
               "";
               "- " ]);
    ("02_edges.md",
     unlines [ "# Codegraph Edges (SSOT)";
               "";
               "- EDGE_TYPE | SRC -> DST | attrs..." ])
  ].

(** The [layer_files] dict: file name under [layers_dir], header. *)
Definition layer_files : list (string * string) :=
  [
    ("L1_repo.md",
     unlines [ "# L1 — Repository Inventory" ]);
    ("L2_catalog.md",
     unlines [ "# L2 — Module Catalog" ]);
    ("L3_types.md",
     unlines [ "# L3 — Type System" ]);
    ("L4_inheritance.md",
     unlines [ "# L4 — Inheritance + Overrides" ]);
    ("L5_external_surface.md",
     unlines [ "# L5 — External Surface" ]);
    ("L6_deployment_topology.md",
     unlines [ "# L6 — Deployment + Topology" ]);
    ("L7_authority.md",
     unlines [ "# L7 — Authority" ]);
    ("L8_storage.md",
     unlines [ "# L8 — Storage" ]);
    ("L9_function_semantics.md",
     unlines [ "# L9 — Function Semantics" ]);
    ("L10_call_graph.md",
     unlines [ "# L10 — Call Graph" ]);
    ("L11_value_accounting.md",
     unlines [ "# L11 — Value + Accounting" ]);
    ("L12_external_systems.md",
     unlines [ "# L12 — External Systems + Trust Assumptions" ]);
    ("L13_state_machine.md",
     unlines [ "# L13 — State Machine" ]);
    ("L14_invariants.md",
     unlines [ "# L14 — Invariants" ]);
    ("L15_attack_surface.md",
     unlines [ "# L15 — Attack Surface (permissionless)" ]);
    ("L16_primitives.md",
     unlines [ "# L16 — Exploit Primitives (capability-first)" ]);
    ("L17_falsifiers.md",
     unlines [ "# L17 — Falsifiers + Proofs" ]);
    ("L18_learnings.md",
     unlines [ "# L18 — Learnings + Mutation" ]);
    ("L19_control_plane.md",
     unlines [ "# L19 — Control Plane Objective Map" ]);
    ("L20_approval_surface.md",
     unlines [ "# L20 — Approval Surface Objective Map" ]);
    ("L21_ordering_model.md",
     unlines [ "# L21 — Ordering Model" ]);
    ("L22_cycle_mining.md",
     unlines [ "# L22 — Cycle Mining" ])
  ].

(** The [ledgers] dict: file name under [root], content. *)
Definition ledgers : list (string * string) :=
  [
    ("hypothesis_ledger.md",
     unlines [ "# Hypothesis Ledger";
               "";
               "| scenarioId | targetStateX | targetAssetsAndCustody | permissionlessPreconditions | routeSketch | evidencePointers | falsifier | status | measurableDelta | exitMeasurement | costAndCapital | capitalMinimizationPlan | whatKilledIt | newLeverLearned | nextMutation |";
               "|---|---|---|---|---|---|---|---|---|---|---|---|---|---|---|" ]);
    ("unknowns.md",
     unlines [ "# Unknowns Ledger";
               "";
               "- " ]);
    ("resume_pack.md",
     unlines [ "# Resume Pack";
               "";
               "## Fork Metadata";
               "";
               "- chain:";
               "- chainId:";
               "- RPC provider:";
               "- DEV_FORK_BLOCK:";
               "- PROMOTION_FORK_BLOCK:";
               "";
               "## Portfolio Snapshot";
               "";
               "- target states X:";
               "- live hypotheses (3 per X):";
               "";
               "## Last 3 Falsifier Results";
               "";
               "- ";
               "";
               "## Next 3 Mutations (specific)";
               "";
               "- ";
               "";
               "## Missing Hard Requirements (if any)";
               "";
               "- " ]);
    ("deployment_snapshot.md",
     unlines [ "# Deployment Snapshot";
               "";
               "- " ])
  ].

(** [str(path)] of a relative path and of an absolute one. *)
Definition render_rel (rel : list string) : string := join "/" (reverse rel).
Definition render_abs (p : list string) : string := "/" +:+ join "/" (reverse p).

(** [path.relative_to(root)]: the components of [path] below [root], or
    nothing ([ValueError]) when [path] is not below [root]. *)
Definition relative_to (root p : list string) : option (list string) :=
  let k := length p - length root in
  if decide (drop k p = root) then Some (take k p) else None.

(** The report of [main] for the list [created]. *)
Definition report (root : list string) (created : list (list string))
  : list string :=
  match created with
  | [] => [ "No changes (all scaffold files already exist)." ]
  | _ =>
      "Scaffold created:"
        :: ((λ p, match relative_to root p with
                  | Some rel => "- " +:+ render_rel rel
                  | None => "- " +:+ render_abs p
                  end) <$> created)
  end.

(** [[p for p in paths if not p.exists()]] *)
Definition missing (paths : list (list string)) : io (list (list string)) :=
  λ fs, (fs, inr (filter (λ p, exists_ fs p = false) paths)).

(** [main], for the resolved workspace root: the lines it prints. *)
Definition main (root : list string) : io (list string) :=
  let codegraph_dir := "codegraph" :: root in
  let layers_dir := "layers" :: codegraph_dir in
  let diagrams_dir := "diagrams" :: codegraph_dir in
  dirs <- missing [codegraph_dir; layers_dir; diagrams_dir] ;;
  _ <- syscall (mkdir_p codegraph_dir) ;;
  _ <- syscall (mkdir_p layers_dir) ;;
  _ <- syscall (mkdir_p diagrams_dir) ;;
  c1 <- write_all codegraph_dir ssot_files ;;
  c2 <- write_all layers_dir layer_files ;;
  c3 <- write_all root ledgers ;;
  ret (report root (dirs ++ c1 ++ c2 ++ c3)).

(** A well-formed file system: every entry lies in a directory (the
    root, which is a directory, is not itself an entry). *)
Definition wf (fs : gmap (list string) entry) : Prop :=
  ∀ p e, fs !! p = Some e → p ≠ [] ∧ is_dir fs (tail p) = true.

(** Every file of the scaffold under [root], with its content. *)
Definition scaffold_files (root : list string) : list (list string * string) :=
  let codegraph_dir := "codegraph" :: root in
  let layers_dir := "layers" :: codegraph_dir in
  ((λ nc : string * string, (nc.1 :: codegraph_dir, nc.2)) <$> ssot_files)
  ++ ((λ nc : string * string, (nc.1 :: layers_dir, nc.2)) <$> layer_files)
  ++ ((λ nc : string * string, (nc.1 :: root, nc.2)) <$> ledgers).

(** The three directories of the scaffold under [root]. *)
Definition scaffold_dirs (root : list string) : list (list string) :=
  [ "codegraph" :: root; "layers" :: "codegraph" :: root;
    "diagrams" :: "codegraph" :: root ].

(** The second file system extends the first, is well formed, and differs
    from it only at paths in [F]. *)
Definition grows_within (F : list string → Prop)
    (fs fs' : gmap (list string) entry) : Prop :=
  wf fs' ∧ fs ⊆ fs' ∧ ∀ q, ¬ F q → fs' !! q = fs !! q.

(** The paths the script may touch: the two leaf directories with the
    directories above them, and the scaffold files. *)
Definition footprint (root q : list string) : Prop :=
  q `suffix_of` "layers" :: "codegraph" :: root
  ∨ q `suffix_of` "diagrams" :: "codegraph" :: root
  ∨ q ∈ (scaffold_files root).*1.

End init_investigation_workspace.

(** ** Sample inputs *)

(** The schema document that the scaffolding script
    [init_investigation_workspace.py] writes into a new workspace. *)
Definition scaffold_schema : list string :=
  [ "# Codegraph Schema (SSOT)"; "";
    "## Node Types"; ""; "- "; "";
    "## Edge Types"; ""; "- "; "";
    "## Label Map (optional)"; ""; "- CANONICAL -> ACTUAL" ].

Definition scaffold_fs : gmap string file :=
  {[ "codegraph/00_schema.md" := Text scaffold_schema ]}.

(** A nodes document with a link among its bullets. *)
Definition link_nodes : list string :=
  [ "# Codegraph Nodes (SSOT)"; ""; "- https://example.com/spec" ].

(** A schema document without the two sections. *)
Definition bare_schema_fs : gmap string file :=
  {[ "codegraph/00_schema.md" := Text [ "# Codegraph Schema (SSOT)"; "" ];
     "codegraph/01_nodes.md" := Text [ "- FUNC:f" ];
     "codegraph/02_edges.md" := Text [ "- READS | FUNC:f -> STATE:x" ] ]}.

(** A small well-formed graph with one dangling edge. *)
Definition demo_fs : gmap string file :=
  {[ "codegraph/00_schema.md" :=
       Text [ "## Node Types"; "- FUNC"; "- ASSET"; "## Edge Types"; "- TRANSFERS" ];
     "codegraph/01_nodes.md" := Text [ "- FUNC:f"; "- ASSET:usdc"; "- ROLE:admin" ];
     "codegraph/02_edges.md" :=
       Text [ "- TRANSFERS | FUNC:f -> ASSET:usdc"; "- CALLS | FUNC:g -> FUNC:f" ] ]}.

(** The labels of a run with the default arguments and no label map. *)
Definition default_labels : triage_entrypoints.labels :=
  triage_entrypoints.labels_with ∅ triage_entrypoints.default_args.

(** Two functions, the higher ranked of which requires a role. *)
Definition gated_pair_fs : gmap string file :=
  {[ "codegraph/01_nodes.md" := Text [ "- FUNC:a"; "- FUNC:b" ];
     "codegraph/02_edges.md" := Text [ "- REQUIRES_ROLE | FUNC:b -> ROLE:admin" ] ]}.

(** One function, which requires a role. *)
Definition gated_fs : gmap string file :=
  {[ "codegraph/01_nodes.md" := Text [ "- FUNC:f" ];
     "codegraph/02_edges.md" := Text [ "- REQUIRES_ROLE | FUNC:f -> ROLE:admin" ] ]}.

(** The graph of [gated_fs] with a nodes file whose bytes are not UTF-8. *)
Definition undecodable_nodes_fs : gmap string file :=
  {[ "codegraph/00_schema.md" := Text scaffold_schema;
     "codegraph/01_nodes.md" := Unreadable UnicodeDecodeError;
     "codegraph/02_edges.md" := Text [ "- REQUIRES_ROLE | FUNC:f -> ROLE:admin" ] ]}.

(** [--permissionless-only] *)
Definition permissionless_args : triage_entrypoints.args :=
  {| triage_entrypoints.arg_codegraph_dir := "codegraph";
     triage_entrypoints.arg_limit := 50;
     triage_entrypoints.arg_permissionless_only := true;
     triage_entrypoints.arg_no_label_map := false;
     triage_entrypoints.arg_func_type := "FUNC";
     triage_entrypoints.arg_asset_type := "ASSET";
     triage_entrypoints.arg_value_edges := "TRANSFERS,MINTS,BURNS,COLLECTS_FEE";
     triage_entrypoints.arg_call_edges := "EXT_CALLS,DELEGATECALLS,STATICCALLS";
     triage_entrypoints.arg_reads_edge := "READS";
     triage_entrypoints.arg_writes_edge := "WRITES";
     triage_entrypoints.arg_role_edge := "REQUIRES_ROLE" |}.

(** [--limit 0] *)
Definition limit0_args : triage_entrypoints.args :=
  {| triage_entrypoints.arg_codegraph_dir := "codegraph";
     triage_entrypoints.arg_limit := 0;
     triage_entrypoints.arg_permissionless_only := false;
     triage_entrypoints.arg_no_label_map := false;
     triage_entrypoints.arg_func_type := "FUNC";
     triage_entrypoints.arg_asset_type := "ASSET";
     triage_entrypoints.arg_value_edges := "TRANSFERS,MINTS,BURNS,COLLECTS_FEE";
     triage_entrypoints.arg_call_edges := "EXT_CALLS,DELEGATECALLS,STATICCALLS";
     triage_entrypoints.arg_reads_edge := "READS";
     triage_entrypoints.arg_writes_edge := "WRITES";
     triage_entrypoints.arg_role_edge := "REQUIRES_ROLE" |}.


Definition overlap_edge : triage_entrypoints.Edge :=
  {| triage_entrypoints.edge_type := "WRITES";
     triage_entrypoints.src := "FUNC:f";
     triage_entrypoints.dst := "ASSET:usdc";
     triage_entrypoints.line_no := 1 |}.

(** Three edges of one function: two transfers of the same asset and a
    read. *)
Definition transfer_edges : list triage_entrypoints.Edge :=
  [ {| triage_entrypoints.edge_type := "TRANSFERS";
       triage_entrypoints.src := "FUNC:b";
       triage_entrypoints.dst := "ASSET:usdc";
       triage_entrypoints.line_no := 1 |};
    {| triage_entrypoints.edge_type := "TRANSFERS";
       triage_entrypoints.src := "FUNC:b";
       triage_entrypoints.dst := "ASSET:usdc";
       triage_entrypoints.line_no := 2 |};
    {| triage_entrypoints.edge_type := "READS";
       triage_entrypoints.src := "FUNC:b";
       triage_entrypoints.dst := "STATE:x";
       triage_entrypoints.line_no := 3 |} ].

(** A workspace whose root already holds a ledger with notes in it. *)
Definition custom_ledger_fs
  : gmap (list string) init_investigation_workspace.entry :=
  {[ ["ws"] := init_investigation_workspace.Dir;
     ["unknowns.md"; "ws"] :=
       init_investigation_workspace.File "# Unknowns Ledger (with notes)" ]}.

(** A workspace in which a regular file has the name of the codegraph
    directory. *)
Definition blocked_fs
  : gmap (list string) init_investigation_workspace.entry :=
  {[ ["ws"] := init_investigation_workspace.Dir;
     ["codegraph"; "ws"] := init_investigation_workspace.File "" ]}.

(** What the script prints for [custom_ledger_fs] and the root [/ws]. *)
Definition custom_ledger_report : list string :=
  [ "Scaffold created:"; "- codegraph"; "- codegraph/layers";
    "- codegraph/diagrams"; "- codegraph/00_schema.md";
    "- codegraph/01_nodes.md"; "- codegraph/02_edges.md";
    "- codegraph/layers/L1_repo.md"; "- codegraph/layers/L2_catalog.md";
    "- codegraph/layers/L3_types.md"; "- codegraph/layers/L4_inheritance.md";
    "- codegraph/layers/L5_external_surface.md";
    "- codegraph/layers/L6_deployment_topology.md";
    "- codegraph/layers/L7_authority.md"; "- codegraph/layers/L8_storage.md";
    "- codegraph/layers/L9_function_semantics.md";
    "- codegraph/layers/L10_call_graph.md";
    "- codegraph/layers/L11_value_accounting.md";
    "- codegraph/layers/L12_external_systems.md";
    "- codegraph/layers/L13_state_machine.md";
    "- codegraph/layers/L14_invariants.md";
    "- codegraph/layers/L15_attack_surface.md";
    "- codegraph/layers/L16_primitives.md";
    "- codegraph/layers/L17_falsifiers.md";
    "- codegraph/layers/L18_learnings.md";
    "- codegraph/layers/L19_control_plane.md";
    "- codegraph/layers/L20_approval_surface.md";
    "- codegraph/layers/L21_ordering_model.md";
    "- codegraph/layers/L22_cycle_mining.md"; "- hypothesis_ledger.md";
    "- resume_pack.md"; "- deployment_snapshot.md" ].

(** * Properties *)

Module V := validate_codegraph.
Module T := triage_entrypoints.
Module Scaf := init_investigation_workspace.

(** ** Paths *)

(** [Path(dir) / name] on some directory arguments: a trailing slash,
    doubled slashes and single dots leave no trace, an empty or
    single-dot directory gives the bare name, and two leading slashes
    are kept where three are one. *)
Lemma path_join_normalises :
  path_join "codegraph" "02_edges.md" = "codegraph/02_edges.md"
  ∧ path_join "codegraph/" "02_edges.md" = "codegraph/02_edges.md"
  ∧ path_join "./a//b/." "x" = "a/b/x"
  ∧ path_join "" "x" = "x"
  ∧ path_join "." "x" = "x"
  ∧ path_join "/" "x" = "/x"
  ∧ path_join "//" "x" = "//x"
  ∧ path_join "///srv" "x" = "/srv/x"
  ∧ path_join "a/.." "x" = "a/../x"
  ∧ path_join "dir" "/abs" = "/abs".
Proof. repeat split; vm_compute; reflexivity. Qed.

(** ** Whitespace *)

(** The two whitespace characters between U+0080 and U+00FF are trimmed
    like the ASCII ones, and either of them makes a bullet. *)
Lemma whitespace_beyond_ascii :
  strip (String "160" "FUNC:f" +:+ String "133" "") = "FUNC:f"
  ∧ BULLET_RE_match (String "-" (String "160" "T | a -> b")) = true
  ∧ BULLET_RE_sub (String "-" (String "160" "T | a -> b")) = "T | a -> b"
  ∧ strip ("## Node Types" +:+ String "160" "") = "## Node Types".
Proof. repeat split; vm_compute; reflexivity. Qed.

(** ** Orders *)

Section cmp_orders.
Context {A} (cmp : A → A → comparison) `{!CmpSpec cmp}.

Lemma cmp_gt_lt x y : cmp x y = Gt ↔ cmp y x = Lt.
Proof. rewrite (cmp_antisym (cmp:=cmp) x y). destruct (cmp x y); simpl; naive_solver. Qed.

Lemma cmp_eq_iff x y : cmp x y = Eq ↔ x = y.
Proof. split; [apply cmp_eq; done | intros ->; apply cmp_refl]. Qed.

Lemma cmp_le_lt_trans x y z : cmp x y ≠ Gt → cmp y z = Lt → cmp x z = Lt.
Proof.
  intros Hxy Hyz. destruct (cmp x y) eqn:E; [| |done].
  - apply cmp_eq in E as ->. done.
  - by apply cmp_lt_trans with y.
Qed.

#[global] Instance cmp_le_total : Total (cmp_le cmp).
Proof.
  intros x y. unfold cmp_le. rewrite (cmp_antisym (cmp:=cmp) x y).
  destruct (cmp x y); simpl; naive_solver.
Qed.

#[global] Instance cmp_le_trans : Transitive (cmp_le cmp).
Proof.
  intros x y z Hxy Hyz. unfold cmp_le in *.
  destruct (cmp y z) eqn:E; [| |done].
  - apply cmp_eq in E as <-. done.
  - by rewrite (cmp_le_lt_trans x y z).
Qed.

#[global] Instance cmp_le_antisymm : AntiSymm (=) (cmp_le cmp).
Proof.
  intros x y Hxy Hyx. unfold cmp_le in *. apply cmp_eq.
  rewrite (cmp_antisym (cmp:=cmp) x y) in Hyx.
  destruct (cmp x y); simpl in *; done.
Qed.

Lemma cmp_ge_flip x y : cmp_ge cmp x y ↔ cmp_le cmp y x.
Proof.
  unfold cmp_ge, cmp_le. rewrite (cmp_antisym (cmp:=cmp) x y).
  destruct (cmp x y); simpl; naive_solver.
Qed.

#[global] Instance cmp_ge_total : Total (cmp_ge cmp).
Proof.
  intros x y. rewrite !cmp_ge_flip. destruct (cmp_le_total y x); auto.
Qed.

#[global] Instance cmp_ge_trans : Transitive (cmp_ge cmp).
Proof.
  intros x y z. rewrite !cmp_ge_flip. intros ??. by trans y.
Qed.

#[global] Instance cmp_ge_antisymm : AntiSymm (=) (cmp_ge cmp).
Proof.
  intros x y. rewrite !cmp_ge_flip. intros ??. by apply (anti_symm (cmp_le cmp)).
Qed.
End cmp_orders.

#[global] Instance nat_cmp_spec : CmpSpec Nat.compare.
Proof.
  split.
  - intros x y. apply Nat.compare_eq.
  - apply Nat.compare_refl.
  - intros x y. apply Nat.compare_antisym.
  - intros x y z. rewrite !Nat.compare_lt_iff. lia.
Qed.

Lemma string_compare_refl s : String.compare s s = Eq.
Proof.
  induction s as [|a s IH]; simpl; [done|].
  unfold Ascii.compare. by rewrite N.compare_refl.
Qed.

#[global] Instance string_cmp_spec : CmpSpec String.compare.
Proof.
  split.
  - apply String.compare_eq_iff.
  - apply string_compare_refl.
  - intros x y. apply String.compare_antisym.
  - intros x. induction x as [|a x IH]; intros [|b y] [|c z]; simpl; try done.
    destruct (Ascii.compare a b) eqn:Eab; try done;
      destruct (Ascii.compare b c) eqn:Ebc; try done.
    + apply Ascii.compare_eq_iff in Eab as ->. rewrite Ebc. apply IH.
    + apply Ascii.compare_eq_iff in Eab as ->. by rewrite Ebc.
    + apply Ascii.compare_eq_iff in Ebc as ->. by rewrite Eab.
    + intros _ _. unfold Ascii.compare in *.
      apply N.compare_lt_iff in Eab, Ebc.
      assert ((N_of_ascii a ?= N_of_ascii c)%N = Lt) as ->; [|done].
      apply N.compare_lt_iff. by etrans.
Qed.

#[global] Instance lex_cmp_spec {A B} (ca : A → A → comparison)
    (cb : B → B → comparison) `{!CmpSpec ca, !CmpSpec cb} :
  CmpSpec (lex_compare ca cb).
Proof.
  split.
  - intros [a b] [a' b']. unfold lex_compare. simpl.
    destruct (ca a a') eqn:E; try done.
    intros Hb. apply cmp_eq in E, Hb. by subst.
  - intros [a b]. unfold lex_compare. simpl. rewrite (cmp_refl (cmp:=ca) a). apply cmp_refl.
  - intros [a b] [a' b']. unfold lex_compare. simpl.
    rewrite (cmp_antisym (cmp:=ca) a a'). destruct (ca a a'); simpl; try done.
    apply cmp_antisym.
  - intros [a b] [a' b'] [a'' b'']. unfold lex_compare. simpl.
    destruct (ca a a') eqn:E1; try done; destruct (ca a' a'') eqn:E2; try done.
    + apply cmp_eq in E1 as ->. rewrite E2. apply cmp_lt_trans.
    + apply cmp_eq in E1 as ->. by rewrite E2.
    + apply cmp_eq in E2 as <-. by rewrite E1.
    + by rewrite (cmp_lt_trans (cmp:=ca) _ _ _ E1 E2).
Qed.

(** ** Sorting *)

Section sorting_facts.
Context {A} (cmp : A → A → comparison) `{!CmpSpec cmp}.

Lemma sorted_le_spec (l : list A) :
  StronglySorted (cmp_le cmp) (merge_sort (cmp_le cmp) l)
  ∧ merge_sort (cmp_le cmp) l ≡ₚ l.
Proof.
  split; [apply StronglySorted_merge_sort; apply _ | apply merge_sort_Permutation].
Qed.

Lemma sorted_ge_spec (l : list A) :
  StronglySorted (cmp_ge cmp) (merge_sort (cmp_ge cmp) l)
  ∧ merge_sort (cmp_ge cmp) l ≡ₚ l.
Proof.
  split; [apply StronglySorted_merge_sort; apply _ | apply merge_sort_Permutation].
Qed.

(** Whatever algorithm sorts, a descending arrangement is unique. *)
Lemma sorted_ge_unique (l l' : list A) :
  l' ≡ₚ l → StronglySorted (cmp_ge cmp) l' → l' = merge_sort (cmp_ge cmp) l.
Proof.
  intros Hp Hs. apply (StronglySorted_unique (cmp_ge cmp)); [done| |].
  - apply sorted_ge_spec.
  - rewrite Hp. symmetry. apply merge_sort_Permutation.
Qed.
End sorting_facts.

(** A sorted list with pairwise distinct images under [f] is strictly
    sorted as soon as related elements with different images are strictly
    related. *)
Lemma StronglySorted_strict {A B} (R R' : relation A) (f : A → B) (l : list A) :
  (∀ x y, R x y → f x ≠ f y → R' x y) →
  NoDup (f <$> l) → StronglySorted R l → StronglySorted R' l.
Proof.
  intros HR. induction l as [|x l IH]; intros Hnd Hs; [constructor|].
  rewrite fmap_cons in Hnd. apply NoDup_cons in Hnd as [Hx Hnd].
  apply StronglySorted_cons in Hs as [Hall Hs].
  apply StronglySorted_cons. split; [|by apply IH].
  apply Forall_forall. intros y Hy. apply HR.
  - rewrite Forall_forall in Hall. by apply Hall.
  - intros Heq. apply Hx. rewrite Heq. by apply list_elem_of_fmap_2.
Qed.

(** ** The validator *)

Section validator.
Implicit Types (nodes : gmap string string) (edges : list V.Edge).
Implicit Types (nt et : gset string) (ep : string).

Lemma check_node_foldl nt (items : list (string * string)) acc :
  foldl (V.check_node nt) acc items
  = acc ++ ((λ it, V.node_type_error it.1 it.2)
              <$> filter (λ it, it.2 ∉ nt) items).
Proof.
  revert acc. induction items as [|[n t] items IH]; intros acc; simpl.
  - by rewrite app_nil_r.
  - rewrite IH. rewrite filter_cons. unfold V.check_node. simpl.
    destruct (decide (t ∉ nt)); [|done].
    by rewrite <-app_assoc.
Qed.

Lemma check_edge_foldl et nodes ep edges acc :
  foldl (V.check_edge et nodes ep) acc edges
  = acc ++ (edges ≫= λ e,
      (if decide (V.edge_type e ∉ et) then [V.edge_type_error ep e] else [])
      ++ (if decide (nodes !! V.src e = None) then [V.missing_src_error ep e] else [])
      ++ (if decide (nodes !! V.dst e = None) then [V.missing_dst_error ep e] else [])).
Proof.
  revert acc. induction edges as [|e edges IH]; intros acc; simpl.
  - by rewrite app_nil_r.
  - rewrite IH. unfold V.check_edge.
    repeat case_decide; simpl; rewrite <-?app_assoc; done.
Qed.

Lemma sorted_items_perm nodes : V.sorted_items nodes ≡ₚ map_to_list nodes.
Proof. apply merge_sort_Permutation. Qed.

Lemma sorted_items_strict nodes :
  StronglySorted (λ a b, String.compare a.1 b.1 = Lt) (V.sorted_items nodes).
Proof.
  apply (StronglySorted_strict
           (cmp_le (lex_compare String.compare String.compare)) _ fst).
  - intros [a b] [a' b'] Hle Hne. unfold cmp_le, lex_compare in Hle.
    simpl in *. destruct (String.compare a a') eqn:E; [|done..].
    by apply String.compare_eq_iff in E.
  - rewrite sorted_items_perm. apply NoDup_fst_map_to_list.
  - apply (sorted_le_spec _).
Qed.

Lemma collect_errors_spec nt et nodes edges ep :
  V.collect_errors nt et nodes edges ep
  = ((λ it, V.node_type_error it.1 it.2)
       <$> filter (λ it, it.2 ∉ nt) (V.sorted_items nodes))
    ++ (edges ≫= λ e,
      (if decide (V.edge_type e ∉ et) then [V.edge_type_error ep e] else [])
      ++ (if decide (nodes !! V.src e = None) then [V.missing_src_error ep e] else [])
      ++ (if decide (nodes !! V.dst e = None) then [V.missing_dst_error ep e] else [])).
Proof.
  unfold V.collect_errors. by rewrite check_node_foldl, check_edge_foldl.
Qed.

Lemma validate_unfold fs dir nt et nodes edges :
  V.parse_schema fs (path_join dir "00_schema.md") = Ok (nt, et) →
  V.parse_nodes fs (path_join dir "01_nodes.md") = Ok nodes →
  V.parse_edges fs (path_join dir "02_edges.md") = Ok edges →
  V.validate fs dir =
    match V.collect_errors nt et nodes edges (path_join dir "02_edges.md") with
    | [] => Ok (0%Z, {| stdout := [ "codegraph validation: OK";
                                    "- nodes: " +:+ pretty (size nodes);
                                    "- edges: " +:+ pretty (length edges) ];
                        stderr := [] |})
    | e :: errs =>
        Ok (1%Z, {| stdout := [];
                    stderr := "codegraph validation: FAIL"
                                :: ((λ err, "- " +:+ err) <$> (e :: errs)) |})
    end.
Proof.
  intros Hs Hn He. unfold V.validate. rewrite Hs. simpl. rewrite Hn. simpl.
  rewrite He. simpl. by destruct (V.collect_errors _ _ _ _ _).
Qed.

(** C7. The error report of [validate] is complete and ordered: the nodes
    are visited in strictly ascending order of their identifier and give
    one "node type not in schema" error per node whose type the schema
    lacks; then every edge, in file order, gives its unknown-type,
    missing-source and missing-destination errors, each exactly when its
    own condition fails; the run fails exactly with that list, and a
    graph without nodes and edges validates with counts 0 and 0 whatever
    the schema holds. *)
Theorem validate_report_complete_ordered fs dir nt et nodes edges :
  V.parse_schema fs (path_join dir "00_schema.md") = Ok (nt, et) →
  V.parse_nodes fs (path_join dir "01_nodes.md") = Ok nodes →
  V.parse_edges fs (path_join dir "02_edges.md") = Ok edges →
  let ep := path_join dir "02_edges.md" in
  let items := V.sorted_items nodes in
  let errors :=
    ((λ it, V.node_type_error it.1 it.2) <$> filter (λ it, it.2 ∉ nt) items)
    ++ (edges ≫= λ e,
      (if decide (V.edge_type e ∉ et) then [V.edge_type_error ep e] else [])
      ++ (if decide (nodes !! V.src e = None) then [V.missing_src_error ep e] else [])
      ++ (if decide (nodes !! V.dst e = None) then [V.missing_dst_error ep e] else [])) in
  items ≡ₚ map_to_list nodes
  ∧ StronglySorted (λ a b, String.compare a.1 b.1 = Lt) items
  ∧ V.validate fs dir =
      Ok (if decide (errors = [])
          then (0%Z, {| stdout := [ "codegraph validation: OK";
                                    "- nodes: " +:+ pretty (size nodes);
                                    "- edges: " +:+ pretty (length edges) ];
                        stderr := [] |})
          else (1%Z, {| stdout := [];
                        stderr := "codegraph validation: FAIL"
                                    :: ((λ err, "- " +:+ err) <$> errors) |}))
  ∧ (nodes = ∅ → edges = [] →
     V.validate fs dir =
       Ok (0%Z, {| stdout := [ "codegraph validation: OK";
                               "- nodes: 0"; "- edges: 0" ];
                   stderr := [] |})).
Proof.
  intros Hs Hn He ep items errors.
  assert (V.collect_errors nt et nodes edges ep = errors) as Herr
    by apply collect_errors_spec.
  pose proof (validate_unfold fs dir nt et nodes edges Hs Hn He) as Hv.
  fold ep in Hv. rewrite Herr in Hv.
  split; [apply sorted_items_perm|]. split; [apply sorted_items_strict|].
  split.
  - rewrite Hv. destruct errors; by case_decide.
  - intros -> ->. rewrite Hv. subst errors items. unfold V.sorted_items.
    rewrite map_to_list_empty. done.
Qed.
End validator.

(** ** The schema parser *)

Section schema.
(** The section variable is set by the two markers and by nothing else:
    in particular no other line, header or not, clears it. *)
Lemma schema_step_section st line :
  V.cur (V.schema_step st line) =
    if decide (strip line = "## Node Types") then V.SecNodes
    else if decide (strip line = "## Edge Types") then V.SecEdges
    else V.cur st.
Proof.
  unfold V.schema_step. cbv zeta.
  destruct (decide (strip line = "## Node Types")); [done|].
  destruct (decide (strip line = "## Edge Types")); [done|].
  destruct (negb (BULLET_RE_match line)); [done|].
  destruct (negb (nonempty _)); [done|].
  by destruct (V.cur st) eqn:E.
Qed.

Lemma schema_section_never_resets st line :
  V.cur st ≠ V.SecNone → V.cur (V.schema_step st line) ≠ V.SecNone.
Proof. rewrite schema_step_section. by repeat case_decide. Qed.

Lemma schema_step_init line :
  strip line ≠ "## Node Types" → strip line ≠ "## Edge Types" →
  V.schema_step V.schema_init line = V.schema_init.
Proof.
  intros H1 H2. unfold V.schema_step. cbv zeta.
  rewrite !decide_False by done.
  destruct (negb (BULLET_RE_match line)); [done|].
  by destruct (negb (nonempty _)).
Qed.

Lemma parse_schema_lines_sectionless lines :
  Forall (λ l, strip l ≠ "## Node Types" ∧ strip l ≠ "## Edge Types") lines →
  V.parse_schema_lines lines = V.schema_init.
Proof.
  unfold V.parse_schema_lines. induction 1 as [|l lines [H1 H2] _ IH]; [done|].
  simpl. by rewrite schema_step_init.
Qed.

(** C1. On the schema document of a freshly scaffolded workspace the
    bullet under the third header, "## Label Map (optional)", lands in
    the edge-types set: the header does not leave the "Edge Types"
    section. *)
Theorem parse_schema_scaffold_label_map_leaks :
  V.parse_schema scaffold_fs "codegraph/00_schema.md"
  = Ok (∅, {[ "CANONICAL -> ACTUAL" ]})
  ∧ V.cur (V.parse_schema_lines scaffold_schema) = V.SecEdges.
Proof. split; vm_compute; reflexivity. Qed.
End schema.

Section schema_absent.
(** C4, as the claim states it, fails: a missing schema file makes the
    schema parser, and the validation with it, end with
    [SystemExit("missing file: ...")]. *)
Lemma parse_schema_missing_file_raises :
  V.parse_schema ∅ "codegraph/00_schema.md"
    = Raise (SystemExitMsg "missing file: codegraph/00_schema.md")
  ∧ V.validate ∅ "codegraph"
    = Raise (SystemExitMsg "missing file: codegraph/00_schema.md").
Proof. split; vm_compute; reflexivity. Qed.

(** C4, amended.  A missing schema file aborts the schema parser and
    the validation with [SystemExit("missing file: <path>")], and a
    schema file that cannot be read as text aborts them with the
    exception of [read_text], which nothing catches.  A schema text in
    which neither section marker occurs gives two empty sets, and the
    validation then proceeds and accepts nothing: every node yields its
    node-type error and every edge its edge-type error, so only the
    empty graph validates. *)
Theorem schema_missing_aborts_sectionless_empty fs dir :
  let sp := path_join dir "00_schema.md" in
  let ep := path_join dir "02_edges.md" in
  (fs !! sp = None →
     V.parse_schema fs sp = Raise (SystemExitMsg ("missing file: " +:+ sp))
     ∧ V.validate fs dir = Raise (SystemExitMsg ("missing file: " +:+ sp)))
  ∧ (∀ err, fs !! sp = Some (Unreadable err) →
     V.parse_schema fs sp = Raise (ReadError err)
     ∧ V.validate fs dir = Raise (ReadError err))
  ∧ (∀ lines, fs !! sp = Some (Text lines) →
     Forall (λ l, strip l ≠ "## Node Types" ∧ strip l ≠ "## Edge Types") lines →
     V.parse_schema fs sp = Ok (∅, ∅)
     ∧ ∀ nodes edges,
         V.parse_nodes fs (path_join dir "01_nodes.md") = Ok nodes →
         V.parse_edges fs ep = Ok edges →
         ∃ errs,
           (∀ n t, nodes !! n = Some t → V.node_type_error n t ∈ errs)
           ∧ (∀ e, e ∈ edges → V.edge_type_error ep e ∈ errs)
           ∧ V.validate fs dir =
               Ok (if decide (errs = [])
                   then (0%Z, {| stdout := [ "codegraph validation: OK";
                                             "- nodes: " +:+ pretty (size nodes);
                                             "- edges: " +:+ pretty (length edges) ];
                                 stderr := [] |})
                   else (1%Z, {| stdout := [];
                                 stderr := "codegraph validation: FAIL"
                                   :: ((λ err, "- " +:+ err) <$> errs) |}))).
Proof.
  intros sp ep. split; [|split].
  - intros Hnone. unfold V.validate, V.parse_schema, V._read_lines.
    fold sp. by rewrite Hnone.
  - intros err Hbad. unfold V.validate, V.parse_schema, V._read_lines.
    fold sp. by rewrite Hbad.
  - intros lines Hsome Hbare.
    assert (V.parse_schema fs sp = Ok (∅, ∅)) as Hschema.
    { unfold V.parse_schema, V._read_lines. rewrite Hsome. simpl.
      by rewrite parse_schema_lines_sectionless. }
    split; [done|]. intros nodes edges Hn He.
    exists (V.collect_errors ∅ ∅ nodes edges ep). split; [|split].
    + intros n t Hnt. rewrite collect_errors_spec. apply elem_of_app. left.
      apply (list_elem_of_fmap_2' _ _ (n, t)); [|done].
      apply list_elem_of_filter. split; [set_solver|].
      rewrite sorted_items_perm. by apply elem_of_map_to_list.
    + intros e Hin. rewrite collect_errors_spec. apply elem_of_app. right.
      apply list_elem_of_bind. exists e. split; [|done].
      rewrite decide_True by set_solver. set_solver.
    + rewrite (validate_unfold fs dir ∅ ∅ nodes edges Hschema Hn He).
      fold ep. by destruct (V.collect_errors _ _ _ _ _).
Qed.

Lemma schema_missing_aborts_sectionless_empty_witness :
  V.parse_schema ∅ "codegraph/00_schema.md"
    = Raise (SystemExitMsg "missing file: codegraph/00_schema.md")
  ∧ V.parse_schema bare_schema_fs "codegraph/00_schema.md" = Ok (∅, ∅).
Proof.
  split.
  - apply (schema_missing_aborts_sectionless_empty ∅ "codegraph").
    reflexivity.
  - apply (proj2 (proj2 (schema_missing_aborts_sectionless_empty
                          bare_schema_fs "codegraph"))
                 [ "# Codegraph Schema (SSOT)"; "" ]).
    + reflexivity.
    + repeat constructor; vm_compute; discriminate.
Defined.
End schema_absent.

(** ** The two node parsers *)

Section node_parsers.
Lemma nodes_step_dom (m : gmap string string) (s : gset string) line :
  dom m = filter (λ t, ¬ is_link t) s →
  dom (V.nodes_step m line) = filter (λ t, ¬ is_link t) (T.nodes_step s line).
Proof.
  intros Hdom. unfold V.nodes_step, T.nodes_step, contains.
  destruct (negb (BULLET_RE_match line)); [done|]. cbv zeta.
  set (token := strip (BULLET_RE_sub line)).
  destruct (negb (nonempty token)); [done|]. simpl.
  destruct (startswith "http://" token) eqn:E1; simpl.
  { destruct (split_once ":" token); simpl; [|done].
    assert (is_link token) by (unfold is_link; rewrite E1; by left).
    apply set_eq. intros x.
    rewrite Hdom, !elem_of_filter, elem_of_union, elem_of_singleton.
    intuition congruence. }
  destruct (startswith "https://" token) eqn:E2; simpl.
  { destruct (split_once ":" token); simpl; [|done].
    assert (is_link token) by (unfold is_link; rewrite E2; by right).
    apply set_eq. intros x.
    rewrite Hdom, !elem_of_filter, elem_of_union, elem_of_singleton.
    intuition congruence. }
  destruct (split_once ":" token) as [[t rest]|]; simpl; [|done].
  assert (¬ is_link token) by (unfold is_link; rewrite E1, E2; by intros [[]|[]]).
  apply set_eq. intros x.
  rewrite dom_insert_L, Hdom, elem_of_union, !elem_of_filter, elem_of_union,
    elem_of_singleton.
  intuition congruence.
Qed.

(** The validator keeps exactly the triage nodes that are not links. *)
Lemma validator_nodes_are_triage_nodes_without_links lines :
  dom (V.parse_nodes_lines lines)
  = filter (λ t, ¬ is_link t) (T.parse_nodes_lines lines).
Proof.
  unfold V.parse_nodes_lines, T.parse_nodes_lines.
  assert (∀ (m : gmap string string) (s : gset string),
    dom m = filter (λ t, ¬ is_link t) s →
    dom (foldl V.nodes_step m lines)
    = filter (λ t, ¬ is_link t) (foldl T.nodes_step s lines)) as Hgen.
  { induction lines as [|l lines IH]; intros m s Hdom; [done|].
    simpl. apply IH. by apply nodes_step_dom. }
  apply Hgen. apply set_eq. intros x.
  rewrite dom_empty_L, elem_of_filter, !elem_of_empty. tauto.
Qed.

(** C3. On a nodes document with a link among its bullets the two parsers
    differ: the validator drops the link, the triage parser keeps it as a
    node. *)
Theorem parse_nodes_link_bullet_differs :
  dom (V.parse_nodes_lines link_nodes) = ∅
  ∧ T.parse_nodes_lines link_nodes = {[ "https://example.com/spec" ]}
  ∧ dom (V.parse_nodes_lines link_nodes) ≠ T.parse_nodes_lines link_nodes.
Proof.
  assert (dom (V.parse_nodes_lines link_nodes) = ∅) as H1
    by (vm_compute; reflexivity).
  assert (T.parse_nodes_lines link_nodes = {[ "https://example.com/spec" ]}) as H2
    by (vm_compute; reflexivity).
  split; [done|]. split; [done|]. rewrite H1, H2.
  intros Heq. assert ("https://example.com/spec" ∈ (∅ : gset string)) as Hin
    by (rewrite Heq; set_solver).
  set_solver.
Qed.
End node_parsers.

(** ** Triage: the statistics of one edge *)

Section edge_buckets.
Implicit Types (cfg : T.labels) (e : T.Edge) (st : T.stats).
Implicit Types (by_func : gmap string T.stats).

Lemma edge_step_skips_foreign_source cfg by_func e :
  by_func !! T.src e = None → T.edge_step cfg by_func e = by_func.
Proof. intros H. unfold T.edge_step. by rewrite H. Qed.

Lemma edge_step_dom cfg by_func e :
  dom (T.edge_step cfg by_func e) = dom by_func.
Proof.
  unfold T.edge_step. destruct (by_func !! T.src e) eqn:E; [|done].
  rewrite dom_insert_L. apply elem_of_dom_2 in E.
  apply subseteq_union_1_L. by apply singleton_subseteq_l.
Qed.

End edge_buckets.

(** ** Slices *)

Section slices.
Context {A : Type}.
Implicit Types (l : list A) (n : Z).

Lemma slice_to_nonneg l n :
  (0 ≤ n)%Z → slice_to n l = take (Z.to_nat n) l.
Proof.
  intros Hn. unfold slice_to. destruct (0 <=? n)%Z eqn:E; [done|].
  apply Z.leb_gt in E. lia.
Qed.


Lemma slice_to_sublist l n : slice_to n l `sublist_of` l.
Proof. unfold slice_to. destruct (0 <=? n)%Z; apply sublist_take. Qed.

Lemma slice_to_all l n : (Z.of_nat (length l) ≤ n)%Z → slice_to n l = l.
Proof.
  intros Hn. rewrite slice_to_nonneg by lia. apply take_ge. lia.
Qed.
End slices.

(** ** Triage: the ranking *)

Section ranking.
Implicit Types (cfg : T.labels) (nodes : gset string) (edges : list T.Edge).
Implicit Types (by_func : gmap string T.stats) (funcs : list string).
Implicit Types (perm : bool) (t : T.rank).

#[local] Instance rank_cmp_spec : CmpSpec T.rank_compare.
Proof. unfold T.rank_compare. apply _. Qed.

Lemma funcs_of_perm nodes ft :
  T.funcs_of nodes ft ≡ₚ filter (λ n, T.is_typed n ft) (elements nodes).
Proof. apply merge_sort_Permutation. Qed.

Lemma funcs_of_NoDup nodes ft : NoDup (T.funcs_of nodes ft).
Proof.
  rewrite funcs_of_perm. apply NoDup_filter, NoDup_elements.
Qed.

Lemma funcs_of_elem nodes ft f :
  f ∈ T.funcs_of nodes ft ↔ f ∈ nodes ∧ T.is_typed f ft.
Proof.
  rewrite funcs_of_perm, list_elem_of_filter, elem_of_elements. tauto.
Qed.

(** What one function contributes to [ranked]. *)
Lemma ranked_of_bind perm funcs by_func :
  T.ranked_of perm funcs by_func
  = funcs ≫= λ func,
      match by_func !! func with
      | Some st => if perm && T.has_roles st then [] else [T.rank_of func st]
      | None => []
      end.
Proof.
  unfold T.ranked_of.
  assert (∀ acc, foldl (T.rank_step perm by_func) acc funcs
    = acc ++ (funcs ≫= λ func,
        match by_func !! func with
        | Some st => if perm && T.has_roles st then [] else [T.rank_of func st]
        | None => []
        end)) as Hgen.
  { induction funcs as [|f funcs IH]; intros acc; simpl.
    - by rewrite app_nil_r.
    - rewrite IH. unfold T.rank_step.
      destruct (by_func !! f) as [st|]; [|done].
      destruct (perm && T.has_roles st); [done|].
      by rewrite <-app_assoc. }
  apply Hgen.
Qed.

Lemma ranked_of_elem perm funcs by_func t :
  t ∈ T.ranked_of perm funcs by_func ↔
  ∃ st, t.2 ∈ funcs ∧ by_func !! t.2 = Some st ∧ t = T.rank_of t.2 st
        ∧ (perm && T.has_roles st = false).
Proof.
  rewrite ranked_of_bind, list_elem_of_bind. split.
  - intros (f & Hin & Hf). destruct (by_func !! f) as [st|] eqn:E.
    + destruct (perm && T.has_roles st) eqn:Ep.
      * by apply elem_of_nil in Hin.
      * apply list_elem_of_singleton in Hin as ->. by exists st.
    + by apply elem_of_nil in Hin.
  - intros (st & Hf & Hst & Ht & Hp). exists t.2. split; [|done].
    rewrite Hst, Hp, Ht. apply list_elem_of_singleton. done.
Qed.

Lemma ranked_of_funcs_sublist perm funcs by_func :
  (snd <$> T.ranked_of perm funcs by_func) `sublist_of` funcs.
Proof.
  rewrite ranked_of_bind. induction funcs as [|f funcs IH]; [done|].
  rewrite bind_cons, fmap_app.
  destruct (by_func !! f) as [st|]; [destruct (perm && T.has_roles st)|]; simpl.
  - by apply sublist_cons.
  - by apply sublist_skip.
  - by apply sublist_cons.
Qed.

(** The permissionless filter only leaves tuples out. *)
Lemma ranked_of_filter_sublist funcs by_func :
  T.ranked_of true funcs by_func `sublist_of` T.ranked_of false funcs by_func.
Proof.
  rewrite !ranked_of_bind. induction funcs as [|f funcs IH]; [done|].
  rewrite !bind_cons.
  destruct (by_func !! f) as [st|]; [|done]. simpl.
  destruct (T.has_roles st); simpl.
  - by apply sublist_cons.
  - by apply sublist_skip.
Qed.

Lemma sort_reverse_perm (ranked : list T.rank) : T.sort_reverse ranked ≡ₚ ranked.
Proof. apply merge_sort_Permutation. Qed.

(** Distinct identifiers make the descending order strict. *)
Lemma sort_reverse_strict (ranked : list T.rank) :
  NoDup (snd <$> ranked) →
  StronglySorted (λ a b, T.rank_compare a b = Gt) (T.sort_reverse ranked).
Proof.
  intros Hnd.
  apply (StronglySorted_strict (cmp_ge T.rank_compare) _ snd).
  - intros x y Hge Hne. unfold cmp_ge in Hge.
    destruct (T.rank_compare x y) eqn:E; [|done..].
    apply (cmp_eq (cmp:=T.rank_compare)) in E. by subst.
  - by rewrite sort_reverse_perm.
  - apply (sorted_ge_spec _).
Qed.

Lemma StronglySorted_lookup_lt {B} (R : relation B) (l : list B) i j x y :
  StronglySorted R l → l !! i = Some x → l !! j = Some y → i < j → R x y.
Proof.
  intros Hs. revert i j. induction Hs as [|a l Hs IH Hall]; intros i j Hi Hj Hlt.
  - by rewrite lookup_nil in Hi.
  - destruct j as [|j]; [lia|]. destruct i as [|i]; simpl in *.
    + injection Hi as <-. rewrite Forall_forall in Hall. apply Hall.
      by eapply list_elem_of_lookup_2.
    + eapply IH; [done..|lia].
Qed.

Lemma has_roles_false st : T.has_roles st = false ↔ T.roles st = ∅.
Proof.
  unfold T.has_roles. rewrite bool_decide_eq_false.
  split; [apply dec_stable | intros H1 H2; done].
Qed.

(** [rank_compare] spelled out: the first differing component decides. *)
Lemma rank_compare_gt_lex (v a c w r v' a' c' w' r' : nat) (f f' : string) :
  T.rank_compare (v, a, c, w, r, f) (v', a', c', w', r', f') = Gt ↔
  v' < v ∨ (v = v' ∧ (a' < a ∨ (a = a' ∧ (c' < c ∨ (c = c' ∧
    (w' < w ∨ (w = w' ∧ (r' < r ∨ (r = r' ∧ String.compare f f' = Gt))))))))).
Proof.
  unfold T.rank_compare, lex_compare. simpl.
  destruct (Nat.compare_spec v v'); [subst| |]; [|split; [done|lia]|split; [lia|done]].
  destruct (Nat.compare_spec a a'); [subst| |]; [|split; [done|lia]|split; [lia|done]].
  destruct (Nat.compare_spec c c'); [subst| |]; [|split; [done|lia]|split; [lia|done]].
  destruct (Nat.compare_spec w w'); [subst| |]; [|split; [done|lia]|split; [lia|done]].
  destruct (Nat.compare_spec r r'); [subst| |]; [|split; [done|lia]|split; [lia|done]].
  split; [intros ->; tauto|]. intros H. repeat (destruct H as [H|[_ H]]; [lia|]). done.
Qed.

(** C5. The ranking of [triage] is one descending lexicographic sort of
    the tuples (value_edges, number of distinct assets, call_edges,
    writes, reads, identifier) of the functions that pass the filter.
    The order is total and strict on them, so the outcome is the only
    descending arrangement and does not depend on how the sort proceeds;
    of two functions with the same five numbers the one with the greater
    identifier comes first; and the output renders the first [limit]
    tuples, for a limit that is a count. *)
Theorem triage_ranking_descending_total nodes edges limit perm cfg :
  let funcs := T.funcs_of nodes (T.func_type cfg) in
  let by_func := T.by_func_of cfg funcs edges in
  let ranked := T.sort_reverse (T.ranked_of perm funcs by_func) in
  (∀ t, t ∈ ranked ↔
     ∃ st, t.2 ∈ funcs ∧ by_func !! t.2 = Some st
           ∧ t = (T.value_edges st, size (T.assets st), T.call_edges st,
                  T.writes st, T.reads st, t.2)
           ∧ (perm = true → T.roles st = ∅))
  ∧ StronglySorted (λ a b, T.rank_compare a b = Gt) ranked
  ∧ (∀ v a c w r f v' a' c' w' r' f',
       T.rank_compare (v, a, c, w, r, f) (v', a', c', w', r', f') = Gt ↔
       v' < v ∨ (v = v' ∧ (a' < a ∨ (a = a' ∧ (c' < c ∨ (c = c' ∧
         (w' < w ∨ (w = w' ∧ (r' < r ∨ (r = r' ∧ String.compare f f' = Gt))))))))))
  ∧ (∀ l, l ≡ₚ T.ranked_of perm funcs by_func →
          StronglySorted (cmp_ge T.rank_compare) l → l = ranked)
  ∧ (∀ i j v a c w r f1 f2,
       ranked !! i = Some (v, a, c, w, r, f1) →
       ranked !! j = Some (v, a, c, w, r, f2) →
       String.compare f1 f2 = Gt → i < j)
  ∧ ((0 ≤ limit)%Z →
       T.triage_graph nodes edges limit perm cfg
         = T.render by_func <$> take (Z.to_nat limit) ranked
       ∧ length (T.triage_graph nodes edges limit perm cfg)
         = min (Z.to_nat limit) (length ranked)).
Proof.
  intros funcs by_func ranked.
  assert (StronglySorted (λ a b, T.rank_compare a b = Gt) ranked) as Hstrict.
  { apply sort_reverse_strict.
    apply (sublist_NoDup _ funcs); [apply funcs_of_NoDup|].
    apply ranked_of_funcs_sublist. }
  split; [|split; [done|split; [intros; apply rank_compare_gt_lex|split; [|split]]]].
  - intros t. subst ranked. rewrite sort_reverse_perm, ranked_of_elem.
    split; intros (st & Hf & Hst & Ht & Hp); exists st; repeat split; try done.
    + intros ->. simpl in Hp. by apply has_roles_false.
    + destruct perm; [|done]. simpl. apply has_roles_false. by apply Hp.
  - intros l Hp Hs. by apply (sorted_ge_unique _).
  - intros i j v a c w r f1 f2 Hi Hj Hgt.
    destruct (decide (i < j)) as [|Hge]; [done|]. exfalso.
    destruct (decide (i = j)) as [->|Hne].
    + rewrite Hi in Hj. injection Hj as ->.
      by rewrite string_compare_refl in Hgt.
    + assert (T.rank_compare (v, a, c, w, r, f2) (v, a, c, w, r, f1) = Gt) as H21.
      { apply (StronglySorted_lookup_lt
                 (λ a b, T.rank_compare a b = Gt) ranked j i); [done..|lia]. }
      assert (T.rank_compare (v, a, c, w, r, f1) (v, a, c, w, r, f2) = Gt) as H12.
      { apply rank_compare_gt_lex. tauto. }
      rewrite (cmp_antisym (cmp:=T.rank_compare) _ _), H12 in H21. done.
  - intros Hlim. unfold T.triage_graph. fold funcs by_func ranked.
    rewrite slice_to_nonneg by done. split; [done|].
    by rewrite length_fmap, length_take.
Qed.

End ranking.

(** ** Triage: the permissionless filter *)

Section permissionless.
Implicit Types (cfg : T.labels) (nodes : gset string) (edges : list T.Edge).

Lemma ranked_of_length perm funcs by_func :
  length (T.ranked_of perm funcs by_func) ≤ length funcs.
Proof.
  pose proof (sublist_length _ _ (ranked_of_funcs_sublist perm funcs by_func))
    as Hlen.
  by rewrite length_fmap in Hlen.
Qed.

Lemma triage_graph_filter_subseteq nodes edges limit limit' cfg :
  (Z.of_nat (length (T.funcs_of nodes (T.func_type cfg))) ≤ limit')%Z →
  T.triage_graph nodes edges limit true cfg
    ⊆ T.triage_graph nodes edges limit' false cfg.
Proof.
  intros Hlim line. unfold T.triage_graph.
  set (funcs := T.funcs_of nodes (T.func_type cfg)) in *.
  set (by_func := T.by_func_of cfg funcs edges).
  rewrite (slice_to_all _ limit').
  2:{ rewrite (sort_reverse_perm _).
      pose proof (ranked_of_length false funcs by_func). lia. }
  rewrite !list_elem_of_fmap. intros (t & -> & Ht). exists t. split; [done|].
  apply (sublist_subseteq _ _ (slice_to_sublist _ _)) in Ht.
  rewrite sort_reverse_perm in Ht. rewrite sort_reverse_perm.
  by apply (sublist_subseteq _ _ (ranked_of_filter_sublist funcs by_func)).
Qed.

(** C2, as the claim states it, fails: under the cap 1 the filtered run
    emits the entry of [FUNC:a], which the unfiltered run, whose one
    slot goes to the role-gated [FUNC:b], does not emit. *)
Lemma permissionless_filter_adds_entry_under_cap :
  T.triage gated_pair_fs "codegraph" 1 true default_labels
    = Ok [ "- FUNC:a | value_edges=0 assets=none calls=0 writes=0 reads=0 roles=none" ]
  ∧ T.triage gated_pair_fs "codegraph" 1 false default_labels
    = Ok [ "- FUNC:b | value_edges=0 assets=none calls=0 writes=0 reads=0 roles=ROLE:admin" ]
  ∧ ¬ ([ "- FUNC:a | value_edges=0 assets=none calls=0 writes=0 reads=0 roles=none" ]
        ⊆ [ "- FUNC:b | value_edges=0 assets=none calls=0 writes=0 reads=0 roles=ROLE:admin" ]).
Proof.
  split; [vm_compute; reflexivity|]. split; [vm_compute; reflexivity|].
  intros Hsub. specialize (Hsub _ (list_elem_of_here _ _)).
  apply list_elem_of_singleton in Hsub. discriminate.
Qed.

(** C2, amended.  On the same files and labels, every entry that a run
    with the permissionless filter emits, under any limit, is an entry
    of the unfiltered run whose limit is at least the number of function
    nodes, that is, of the whole unfiltered ranking; so the filter only
    removes entries whenever the common limit does not cut the
    unfiltered ranking. *)
Theorem permissionless_entries_in_unfiltered_ranking
    fs dir limit limit' cfg nodes lines_f lines_u :
  T.parse_nodes fs (path_join dir "01_nodes.md") = Ok nodes →
  (Z.of_nat (length (T.funcs_of nodes (T.func_type cfg))) ≤ limit')%Z →
  T.triage fs dir limit true cfg = Ok lines_f →
  T.triage fs dir limit' false cfg = Ok lines_u →
  lines_f ⊆ lines_u.
Proof.
  intros Hn Hlim. unfold T.triage. rewrite Hn. simpl.
  destruct (T.parse_edges fs _) as [edges|]; simpl; [|done].
  intros [= <-] [= <-]. by apply triage_graph_filter_subseteq.
Qed.
End permissionless.

(** ** Triage: the entry point *)

Section entry_point.
Lemma main_unfold fs a cfg nodes edges :
  T.labels_of fs a = Ok cfg →
  fs !! path_join (T.arg_codegraph_dir a) "01_nodes.md" = Some (Text nodes) →
  fs !! path_join (T.arg_codegraph_dir a) "02_edges.md" = Some (Text edges) →
  let lines := T.triage_graph (T.parse_nodes_lines nodes)
                 (T.parse_edges_lines edges) (T.arg_limit a)
                 (T.arg_permissionless_only a) cfg in
  T.main fs a =
    Ok (T.header_line
          :: (if decide (lines = []) then [T.sentinel_line] else lines)).
Proof.
  intros Hc Hn He lines. unfold T.main. rewrite Hc. simpl.
  unfold T.triage, T.parse_nodes, T.parse_edges, T._read_lines.
  rewrite Hn, He. simpl. fold lines.
  destruct lines; simpl; done.
Qed.

(** The labels are there exactly when the schema need not be read, is
    missing, or is a text. *)
Lemma labels_of_ok fs a :
  (∃ cfg, T.labels_of fs a = Ok cfg)
  ↔ T.arg_no_label_map a = true
    ∨ fs !! path_join (T.arg_codegraph_dir a) "00_schema.md" = None
    ∨ ∃ lines,
        fs !! path_join (T.arg_codegraph_dir a) "00_schema.md"
        = Some (Text lines).
Proof.
  unfold T.labels_of, T.parse_label_map.
  destruct (T.arg_no_label_map a); simpl; [split; eauto|].
  destruct (fs !! _) as [[lines|err]|]; simpl.
  - split; eauto 6.
  - split; [by intros [? ?]|]. intros [?|[?|[? ?]]]; done.
  - split; eauto.
Qed.

Lemma labels_of_raise fs a :
  (∃ cfg, T.labels_of fs a = Ok cfg)
  ∨ ∃ err, T.labels_of fs a = Raise (ReadError err).
Proof.
  unfold T.labels_of, T.parse_label_map.
  destruct (T.arg_no_label_map a); simpl; [eauto|].
  destruct (fs !! _) as [[lines|err]|]; simpl; eauto.
Qed.

Lemma contains_append_r sep a b :
  contains sep b = true → contains sep (a +:+ b) = true.
Proof.
  unfold contains. intros Hb. induction a as [|c a IH]; [done|].
  change (String c a +:+ b) with (String c (a +:+ b)).
  cbn [split_once]. destruct (String.prefix sep (String c (a +:+ b))); [done|].
  by destruct (split_once sep (a +:+ b)) as [[??]|].
Qed.

Lemma render_has_bar by_func t : contains "|" (T.render by_func t) = true.
Proof.
  destruct t as [[[[[v n] c] w] r] f]. unfold T.render.
  do 2 apply contains_append_r. done.
Qed.

(** The sentinel follows the header exactly when [triage] returned no
    line at all, whatever the reason; no entry reads like the sentinel. *)
Lemma main_sentinel_iff_no_lines fs a cfg lines :
  T.labels_of fs a = Ok cfg →
  T.triage fs (T.arg_codegraph_dir a) (T.arg_limit a)
    (T.arg_permissionless_only a) cfg = Ok lines →
  T.main fs a =
    Ok (T.header_line
          :: (if decide (lines = []) then [T.sentinel_line] else lines))
  ∧ T.sentinel_line ∉ lines.
Proof.
  intros Hc Ht. split.
  - unfold T.main. rewrite Hc. simpl. rewrite Ht. simpl. by destruct lines.
  - unfold T.triage in Ht.
    destruct (T.parse_nodes fs _) as [nodes|]; simpl in Ht; [|done].
    destruct (T.parse_edges fs _) as [edges|]; simpl in Ht; [|done].
    injection Ht as <-. unfold T.triage_graph.
    intros (t & Heq & _)%list_elem_of_fmap.
    pose proof (render_has_bar
      (T.by_func_of cfg (T.funcs_of nodes (T.func_type cfg)) edges) t) as Hbar.
    rewrite <-Heq in Hbar. by vm_compute in Hbar.
Qed.

(** C8, as the claim states it, fails: in a directory without
    [01_nodes.md] the run ends with an uncaught [FileNotFoundError], and
    the exit status is 1. *)
Lemma triage_main_missing_nodes_file_fails :
  T.main ∅ T.default_args = Raise (FileNotFoundError "codegraph/01_nodes.md")
  ∧ exit_status (T.main ∅ T.default_args) = 1%Z.
Proof. split; vm_compute; reflexivity. Qed.

(** C8, amended.  When [01_nodes.md] and [02_edges.md] are texts,
    whatever these texts hold, and the schema file is a text, is missing
    or is not read ([--no-label-map]), the triage entry point prints the
    header line and then the ranked entries, or the sentinel when there
    is none, and exits with status 0.  In every other case it prints
    nothing and ends with status 1, on an exception that nothing
    catches: a [FileNotFoundError] when the first file that cannot be
    read is a missing [01_nodes.md] or [02_edges.md], and the exception
    of [read_text] (a [UnicodeDecodeError] for bytes that are not UTF-8)
    when it is a file that exists. *)
Theorem triage_main_exit_status fs a :
  let sp := path_join (T.arg_codegraph_dir a) "00_schema.md" in
  let np := path_join (T.arg_codegraph_dir a) "01_nodes.md" in
  let ep := path_join (T.arg_codegraph_dir a) "02_edges.md" in
  let schema_read :=
    T.arg_no_label_map a = true ∨ fs !! sp = None
    ∨ ∃ lines, fs !! sp = Some (Text lines) in
  let all_read :=
    schema_read ∧ (∃ nodes, fs !! np = Some (Text nodes))
    ∧ (∃ edges, fs !! ep = Some (Text edges)) in
  (all_read →
     ∃ cfg lines,
       T.labels_of fs a = Ok cfg
       ∧ T.triage fs (T.arg_codegraph_dir a) (T.arg_limit a)
           (T.arg_permissionless_only a) cfg = Ok lines
       ∧ T.main fs a =
           Ok (T.header_line
                 :: (if decide (lines = []) then [T.sentinel_line] else lines))
       ∧ exit_status (T.main fs a) = 0%Z)
  ∧ (¬ all_read →
     ∃ exc, T.main fs a = Raise exc
            ∧ ((∃ p, exc = FileNotFoundError p) ∨ (∃ err, exc = ReadError err))
            ∧ exit_status (T.main fs a) = 1%Z)
  ∧ (schema_read →
     fs !! np = None ∨ ((∃ nodes, fs !! np = Some (Text nodes)) ∧ fs !! ep = None) →
     ∃ p, T.main fs a = Raise (FileNotFoundError p) ∧ (p = np ∨ p = ep))
  ∧ (∀ err,
       (T.arg_no_label_map a = false ∧ fs !! sp = Some (Unreadable err))
       ∨ (schema_read ∧ fs !! np = Some (Unreadable err))
       ∨ (schema_read ∧ (∃ nodes, fs !! np = Some (Text nodes))
          ∧ fs !! ep = Some (Unreadable err)) →
       T.main fs a = Raise (ReadError err)).
Proof.
  intros sp np ep schema_read all_read.
  assert (∀ cfg, T.labels_of fs a = Ok cfg →
            T.main fs a
            = match fs !! np with
              | Some (Text nodes) =>
                  match fs !! ep with
                  | Some (Text edges) =>
                      let lines := T.triage_graph (T.parse_nodes_lines nodes)
                                     (T.parse_edges_lines edges) (T.arg_limit a)
                                     (T.arg_permissionless_only a) cfg in
                      Ok (T.header_line
                            :: (if decide (lines = []) then [T.sentinel_line]
                                else lines))
                  | Some (Unreadable err) => Raise (ReadError err)
                  | None => Raise (FileNotFoundError ep)
                  end
              | Some (Unreadable err) => Raise (ReadError err)
              | None => Raise (FileNotFoundError np)
              end) as Hmain.
  { intros cfg Hc. unfold T.main. rewrite Hc. simpl.
    unfold T.triage, T.parse_nodes, T.parse_edges, T._read_lines. fold np ep.
    destruct (fs !! np) as [[nodes|err]|]; simpl; try done.
    destruct (fs !! ep) as [[edges|err]|]; simpl; try done.
    by destruct (T.triage_graph _ _ _ _ _). }
  assert (∀ err, T.labels_of fs a = Raise (ReadError err) →
            T.main fs a = Raise (ReadError err)) as Hbad.
  { intros err Hc. unfold T.main. by rewrite Hc. }
  pose proof (labels_of_ok fs a) as Hok. fold sp in Hok.
  fold schema_read in Hok.
  split; [|split; [|split]].
  - intros (Hs & [nodes Hn] & [edges He]).
    apply Hok in Hs as [cfg Hc]. exists cfg.
    pose proof (main_unfold fs a cfg nodes edges Hc Hn He) as Hm. simpl in Hm.
    eexists. split; [done|]. split; [|split; [exact Hm|by rewrite Hm]].
    unfold T.triage, T.parse_nodes, T.parse_edges, T._read_lines.
    fold np ep. by rewrite Hn, He.
  - intros Hnot. destruct (labels_of_raise fs a) as [[cfg Hc]|[err Hc]].
    + assert (schema_read) as Hs by (apply Hok; eauto).
      rewrite (Hmain cfg Hc).
      destruct (fs !! np) as [[nodes|err]|] eqn:En; [|eauto 8..].
      destruct (fs !! ep) as [[edges|err]|] eqn:Ee; [|eauto 8..].
      destruct Hnot. split; [done|]. eauto.
    + rewrite (Hbad err Hc). eauto 8.
  - intros Hs Hmiss. apply Hok in Hs as [cfg Hc]. rewrite (Hmain cfg Hc).
    destruct Hmiss as [->|[[nodes ->] ->]]; eauto.
  - intros err [[Hno Hs]|[[Hs Hn]|(Hs & [nodes Hn] & He)]].
    + apply Hbad. unfold T.labels_of, T.parse_label_map. fold sp.
      by rewrite Hno, Hs.
    + apply Hok in Hs as [cfg Hc]. by rewrite (Hmain cfg Hc), Hn.
    + apply Hok in Hs as [cfg Hc]. by rewrite (Hmain cfg Hc), Hn, He.
Qed.
End entry_point.

Section sentinel.
(** C9. With [--permissionless-only] on a graph whose one function
    requires a role, and with [--limit 0] on the same graph, the run
    prints the "no FUNC nodes found" sentinel although the nodes file
    holds a qualifying function node, which the plain run reports. *)
Theorem sentinel_printed_despite_func_nodes :
  T.funcs_of (T.parse_nodes_lines [ "- FUNC:f" ]) "FUNC" = [ "FUNC:f" ]
  ∧ T.main gated_fs permissionless_args
    = Ok [ T.header_line; T.sentinel_line ]
  ∧ T.main gated_fs limit0_args = Ok [ T.header_line; T.sentinel_line ]
  ∧ T.main gated_fs T.default_args
    = Ok [ T.header_line;
           "- FUNC:f | value_edges=0 assets=none calls=0 writes=0 reads=0 roles=ROLE:admin" ].
Proof. repeat split; vm_compute; reflexivity. Qed.
End sentinel.

(** ** Instances on the sample inputs *)

Lemma validate_report_complete_ordered_witness :
  V.validate demo_fs "codegraph/" =
    Ok (1%Z,
        {| stdout := [];
           stderr := [ "codegraph validation: FAIL";
                       "- node type not in schema: ROLE (ROLE:admin)";
                       "- codegraph/02_edges.md:2: edge type not in schema: CALLS";
                       "- codegraph/02_edges.md:2: missing src node: FUNC:g" ] |}).
Proof.
  destruct (validate_report_complete_ordered demo_fs "codegraph/"
              {[ "FUNC"; "ASSET" ]} {[ "TRANSFERS" ]}
              (V.parse_nodes_lines [ "- FUNC:f"; "- ASSET:usdc"; "- ROLE:admin" ])
              (V.parse_edges_lines
                 [ "- TRANSFERS | FUNC:f -> ASSET:usdc"; "- CALLS | FUNC:g -> FUNC:f" ]))
    as (_ & _ & Hv & _).
  - vm_compute. reflexivity.
  - vm_compute. reflexivity.
  - vm_compute. reflexivity.
  - rewrite Hv. vm_compute. reflexivity.
Defined.


Lemma triage_ranking_descending_total_witness :
  T.triage_graph {[ "FUNC:a"; "FUNC:b"; "ASSET:usdc" ]} [] 1 false default_labels
  = [ "- FUNC:b | value_edges=0 assets=none calls=0 writes=0 reads=0 roles=none" ].
Proof.
  destruct (triage_ranking_descending_total
              {[ "FUNC:a"; "FUNC:b"; "ASSET:usdc" ]} [] 1 false default_labels)
    as (_ & _ & _ & _ & _ & Hcap).
  destruct Hcap as [Hlines _]; [lia|].
  rewrite Hlines. vm_compute. reflexivity.
Defined.


Lemma permissionless_entries_in_unfiltered_ranking_witness :
  [ "- FUNC:a | value_edges=0 assets=none calls=0 writes=0 reads=0 roles=none" ]
  ⊆ [ "- FUNC:b | value_edges=0 assets=none calls=0 writes=0 reads=0 roles=ROLE:admin";
      "- FUNC:a | value_edges=0 assets=none calls=0 writes=0 reads=0 roles=none" ].
Proof.
  apply (permissionless_entries_in_unfiltered_ranking
           gated_pair_fs "codegraph" 1 2 default_labels
           (T.parse_nodes_lines [ "- FUNC:a"; "- FUNC:b" ])).
  - vm_compute. reflexivity.
  - vm_compute. discriminate.
  - vm_compute. reflexivity.
  - vm_compute. reflexivity.
Defined.

Lemma triage_main_exit_status_witness :
  exit_status (T.main gated_fs T.default_args) = 0%Z
  ∧ exit_status (T.main ∅ T.default_args) = 1%Z
  ∧ T.main undecodable_nodes_fs T.default_args
    = Raise (ReadError UnicodeDecodeError).
Proof.
  split; [|split].
  - destruct (proj1 (triage_main_exit_status gated_fs T.default_args))
      as (cfg & lines & _ & _ & _ & Hexit).
    + split; [right; left; vm_compute; reflexivity|]. split.
      * exists [ "- FUNC:f" ]. vm_compute. reflexivity.
      * exists [ "- REQUIRES_ROLE | FUNC:f -> ROLE:admin" ].
        vm_compute. reflexivity.
    + exact Hexit.
  - destruct (proj1 (proj2 (triage_main_exit_status ∅ T.default_args)))
      as (exc & _ & _ & Hexit).
    + intros (_ & [nodes Hn] & _). rewrite lookup_empty in Hn. discriminate.
    + exact Hexit.
  - apply (proj2 (proj2 (proj2 (triage_main_exit_status
                                  undecodable_nodes_fs T.default_args)))).
    right. left. split; [|vm_compute; reflexivity].
    right. right. exists scaffold_schema. vm_compute. reflexivity.
Defined.

(** * Further properties *)

(** ** Text primitives *)

Section text_facts.
Implicit Types (s a b sep : string) (c : ascii).

Lemma append_cons c a b : String c a +:+ b = String c (a +:+ b).
Proof. done. Qed.

Lemma append_nil_r a : a +:+ "" = a.
Proof. induction a as [|c a IH]; [done|]. by rewrite append_cons, IH. Qed.

Lemma append_assoc a b s : (a +:+ b) +:+ s = a +:+ (b +:+ s).
Proof. induction a as [|c a IH]; [done|]. by rewrite !append_cons, IH. Qed.

Lemma prefix_cons_inv sep c s :
  String.prefix sep (String c s) = true →
  sep = "" ∨ ∃ sep', sep = String c sep' ∧ String.prefix sep' s = true.
Proof.
  destruct sep as [|d sep']; [by left|]. simpl.
  destruct (ascii_dec d c) as [->|]; [|done]. right. by exists sep'.
Qed.

Lemma prefix_split sep s :
  String.prefix sep s = true → s = sep +:+ drop_chars (String.length sep) s.
Proof.
  revert s. induction sep as [|d sep IH]; intros s; [done|].
  destruct s as [|c s]; simpl; [done|].
  destruct (ascii_dec d c) as [->|]; [|done].
  intros H. rewrite append_cons. f_equal. by apply IH.
Qed.

Lemma prefix_append sep a b :
  String.prefix sep a = true → String.prefix sep (a +:+ b) = true.
Proof.
  revert a. induction sep as [|d sep IH]; intros a;
    [intros _; by destruct (a +:+ b)|].
  destruct a as [|c a]; simpl; [done|].
  destruct (ascii_dec d c); [|done]. apply IH.
Qed.

(** [s.split(sep, 1)] cuts at the leftmost occurrence and loses nothing. *)
Lemma split_once_spec sep s a b :
  split_once sep s = Some (a, b) →
  s = a +:+ sep +:+ b ∧ (sep ≠ "" → contains sep a = false).
Proof.
  revert a b. induction s as [|c s IH]; intros a b.
  - cbn [split_once]. destruct (String.prefix sep "") eqn:E; [|done].
    intros [= <- <-]. by destruct sep.
  - cbn [split_once]. destruct (String.prefix sep (String c s)) eqn:E.
    + intros [= <- <-]. split; [by apply prefix_split|].
      intros Hne. unfold contains. cbn [split_once]. by destruct sep.
    + destruct (split_once sep s) as [[a' b']|] eqn:Es; [|done].
      intros [= <- <-]. destruct (IH a' b' eq_refl) as [-> Hno]. split; [done|].
      intros Hne. specialize (Hno Hne). unfold contains in *. cbn [split_once].
      destruct (String.prefix sep (String c a')) eqn:E'.
      * apply (prefix_append _ _ (sep +:+ b')) in E'.
        rewrite append_cons in E'. congruence.
      * by destruct (split_once sep a') as [[??]|].
Qed.

Lemma contains_split_once sep s :
  contains sep s = true ↔ is_Some (split_once sep s).
Proof.
  unfold contains. destruct (split_once sep s); split; intros H; done.
Qed.

Lemma rstrip_cons c s :
  rstrip (String c s) =
    match rstrip s with
    | EmptyString => if is_space c then EmptyString else String c EmptyString
    | r => String c r
    end.
Proof. done. Qed.

Lemma rstrip_idem s : rstrip (rstrip s) = rstrip s.
Proof.
  induction s as [|c s IH]; [done|]. rewrite rstrip_cons.
  destruct (rstrip s) as [|d r] eqn:E.
  - destruct (is_space c) eqn:Ec; [done|]. rewrite rstrip_cons. simpl.
    by rewrite Ec.
  - rewrite rstrip_cons. by rewrite IH.
Qed.

Lemma lstrip_clean s : starts_clean s → lstrip s = s.
Proof. destruct s as [|c s]; [done|]. simpl. by intros ->. Qed.

Lemma lstrip_starts_clean s : starts_clean (lstrip s).
Proof.
  induction s as [|c s IH]; [done|]. simpl.
  destruct (is_space c) eqn:E; [done|]. by simpl.
Qed.

Lemma rstrip_starts_clean s : starts_clean s → starts_clean (rstrip s).
Proof.
  destruct s as [|c s]; [done|]. rewrite rstrip_cons. simpl. intros Hc.
  destruct (rstrip s); [by rewrite Hc|done].
Qed.

Lemma strip_starts_clean s : starts_clean (strip s).
Proof. apply rstrip_starts_clean, lstrip_starts_clean. Qed.

Lemma strip_idem s : strip (strip s) = strip s.
Proof.
  unfold strip. rewrite (lstrip_clean (rstrip _)).
  - apply rstrip_idem.
  - apply rstrip_starts_clean, lstrip_starts_clean.
Qed.

Lemma nonempty_true s : nonempty s = true ↔ s ≠ "".
Proof. by destruct s. Qed.
End text_facts.

(** ** The edge parsers *)

Section edge_parsers.
Implicit Types (lines : list string) (line : string) (n k i : nat).

Lemma foldl_append_omap {A B} (f : A → option B) (l : list A) (acc : list B) :
  foldl (λ acc x, match f x with Some y => acc ++ [y] | None => acc end) acc l
  = acc ++ omap f l.
Proof.
  revert acc. induction l as [|x l IH]; intros acc; simpl.
  - by rewrite app_nil_r.
  - rewrite IH. destruct (f x); [|done]. by rewrite <-app_assoc.
Qed.

Lemma validator_edges_omap lines :
  V.parse_edges_lines lines = omap V.edge_of_line (enumerate1 lines).
Proof. unfold V.parse_edges_lines. by rewrite foldl_append_omap. Qed.

Lemma triage_edges_omap lines :
  T.parse_edges_lines lines = omap T.edge_of_line (enumerate1 lines).
Proof. unfold T.parse_edges_lines. by rewrite foldl_append_omap. Qed.

Lemma enumerate1_lookup {A} (l : list A) i n (x : A) :
  enumerate1 l !! i = Some (n, x) ↔ n = S i ∧ l !! i = Some x.
Proof.
  unfold enumerate1. rewrite lookup_zip_with_Some. split.
  - intros (m & y & [= <- <-] & Hm & Hy). apply lookup_seq in Hm as [-> _]. done.
  - intros [-> Hx]. exists (S i), x. split; [done|]. split; [|done].
    apply lookup_seq. split; [done|]. by apply lookup_lt_Some in Hx.
Qed.

Lemma validator_edge_of_line_inv n line e :
  V.edge_of_line (n, line) = Some e →
  V.line_no e = n ∧ V.raw e = line ∧ BULLET_RE_match line = true
  ∧ V.src e ≠ "" ∧ V.dst e ≠ ""
  ∧ strip (V.edge_type e) = V.edge_type e
  ∧ strip (V.src e) = V.src e ∧ strip (V.dst e) = V.dst e.
Proof.
  unfold V.edge_of_line. destruct (BULLET_RE_match line); simpl; [|done].
  destruct (nonempty (strip (BULLET_RE_sub line))); simpl; [|done].
  destruct (split_char "|" _) as [|f0 [|f1 fs]]; simpl; [done..|].
  destruct (split_once "->" (strip f1)) as [[a b]|]; [|done].
  destruct (nonempty (strip a)) eqn:Ea; simpl; [|done].
  destruct (nonempty (strip b)) eqn:Eb; simpl; [|done].
  intros [= <-]. simpl. apply nonempty_true in Ea, Eb.
  by rewrite !strip_idem.
Qed.

Lemma edge_of_line_forget nl :
  T.edge_of_line nl = forget_raw <$> V.edge_of_line nl.
Proof.
  destruct nl as [n line]. unfold T.edge_of_line, V.edge_of_line.
  destruct (BULLET_RE_match line); simpl; [|done].
  destruct (nonempty (strip (BULLET_RE_sub line))); simpl; [|done].
  destruct (split_char "|" _) as [|f0 [|f1 fs]]; simpl; [done..|].
  destruct (split_once "->" (strip f1)) as [[a b]|]; [|done].
  by destruct (negb (nonempty (strip a)) || negb (nonempty (strip b))).
Qed.

Lemma omap_fmap_option {A B C} (f : A → option B) (g : B → C) (l : list A) :
  omap (λ x, g <$> f x) l = g <$> omap f l.
Proof.
  induction l as [|x l IH]; [done|]. csimpl.
  destruct (f x); csimpl; by rewrite IH.
Qed.

Lemma numbered_edges_sorted (f : nat * string → option V.Edge) k lines :
  (∀ n line e, f (n, line) = Some e → V.line_no e = n) →
  StronglySorted (λ a b, V.line_no a < V.line_no b)
    (omap f (zip (seq k (length lines)) lines))
  ∧ Forall (λ e, k ≤ V.line_no e) (omap f (zip (seq k (length lines)) lines)).
Proof.
  intros Hf. revert k. induction lines as [|line lines IH]; intros k; csimpl.
  - split; constructor.
  - destruct (IH (S k)) as [Hs Hall].
    assert (Forall (λ e, k ≤ V.line_no e)
              (omap f (zip (seq (S k) (length lines)) lines))) as Hk.
    { eapply Forall_impl; [exact Hall|]. simpl. lia. }
    destruct (f (k, line)) as [e|] eqn:E; [|by split].
    apply Hf in E. split.
    + constructor; [done|]. eapply Forall_impl; [exact Hall|]. simpl. lia.
    + constructor; [lia|done].
Qed.

(** X1. The edges come in file order, each one from the bullet line whose
    number it records, with trimmed fields and non-empty endpoints; and
    every line that parses as an edge is there. *)
Theorem validator_edges_locate_their_lines lines :
  StronglySorted (λ a b, V.line_no a < V.line_no b) (V.parse_edges_lines lines)
  ∧ (∀ e, e ∈ V.parse_edges_lines lines ↔
          ∃ i line, lines !! i = Some line ∧ V.edge_of_line (S i, line) = Some e)
  ∧ (∀ e, e ∈ V.parse_edges_lines lines →
          1 ≤ V.line_no e ≤ length lines
          ∧ lines !! (V.line_no e - 1) = Some (V.raw e)
          ∧ BULLET_RE_match (V.raw e) = true
          ∧ V.src e ≠ "" ∧ V.dst e ≠ ""
          ∧ strip (V.edge_type e) = V.edge_type e
          ∧ strip (V.src e) = V.src e ∧ strip (V.dst e) = V.dst e).
Proof.
  assert (∀ e, e ∈ V.parse_edges_lines lines ↔
          ∃ i line, lines !! i = Some line ∧ V.edge_of_line (S i, line) = Some e)
    as Hchar.
  { intros e. rewrite validator_edges_omap, list_elem_of_omap. split.
    - intros ([n line] & Hin & He). apply list_elem_of_lookup in Hin as [i Hi].
      apply enumerate1_lookup in Hi as [-> Hl]. by exists i, line.
    - intros (i & line & Hl & He). exists (S i, line). split; [|done].
      apply list_elem_of_lookup. exists i. by apply enumerate1_lookup. }
  split; [|split; [done|]].
  - rewrite validator_edges_omap. apply numbered_edges_sorted.
    intros n line e He. by apply validator_edge_of_line_inv in He as (? & _).
  - intros e (i & line & Hl & He)%Hchar.
    apply validator_edge_of_line_inv in He as (-> & -> & Hrest).
    split; [apply lookup_lt_Some in Hl; lia|].
    split; [|done]. by replace (S i - 1) with i by lia.
Qed.

(** X2. The two scripts read the edges document alike: the triage edges are
    the validator's, field by field, without the raw line. *)
Theorem triage_edges_are_validator_edges lines :
  T.parse_edges_lines lines = forget_raw <$> V.parse_edges_lines lines.
Proof.
  rewrite triage_edges_omap, validator_edges_omap, <-omap_fmap_option.
  induction (enumerate1 lines) as [|nl l IH]; [done|].
  csimpl. by rewrite edge_of_line_forget, IH.
Qed.
End edge_parsers.

(** ** The node parsers *)

Section node_parsers_more.
Implicit Types (lines : list string) (line n t ty name : string).

Lemma prefix_self_append p s : String.prefix p (p +:+ s) = true.
Proof.
  induction p as [|c p IH]; [by destruct s|]. rewrite append_cons. simpl.
  by destruct (ascii_dec c c).
Qed.

Lemma split_once_char c a b :
  contains (String c "") a = false →
  split_once (String c "") (a +:+ String c b) = Some (a, b).
Proof.
  induction a as [|d a IH]; intros Hno.
  - change ("" +:+ String c b) with (String c b). cbn.
    destruct (ascii_dec c c); [|done]. by destruct b.
  - unfold contains in Hno. cbn [split_once] in Hno.
    rewrite append_cons. cbn [split_once].
    assert (String.prefix (String c "") (String d a) = false) as Hd.
    { by destruct (String.prefix (String c "") (String d a)). }
    rewrite Hd in Hno. simpl in Hd. simpl.
    destruct (ascii_dec c d) as [->|Hne]; [by destruct a|].
    rewrite IH; [done|]. unfold contains.
    by destruct (split_once (String c "") a) as [[??]|].
Qed.

Lemma split_once_colon ty name :
  contains ":" ty = false → split_once ":" (ty +:+ ":" +:+ name) = Some (ty, name).
Proof. apply (split_once_char ":" ty name). Qed.

Lemma contains_colon_nonempty s : contains ":" s = true → s ≠ "".
Proof. by destruct s. Qed.

(** [is_typed(node, ty)] holds exactly for the identifiers [ty:...]. *)
Lemma is_typed_iff n ty :
  T.is_typed n ty = true ↔ ∃ name, n = ty +:+ ":" +:+ name.
Proof.
  unfold T.is_typed, startswith. split.
  - intros H%prefix_split. rewrite append_assoc in H. eauto.
  - intros [name ->]. rewrite <-append_assoc. apply prefix_self_append.
Qed.

(** X3. For a label without a colon, [is_typed] selects the nodes whose type,
    the text before the first colon, is that label. *)
Theorem is_typed_selects_node_type n ty :
  contains ":" ty = false →
  (T.is_typed n ty = true ↔ contains ":" n = true ∧ T._node_type n = ty).
Proof.
  intros Hty. rewrite is_typed_iff. unfold T._node_type, contains. split.
  - intros [name ->]. by rewrite split_once_colon.
  - destruct (split_once ":" n) as [[t rest]|] eqn:E; [|by intros [? _]].
    intros [_ ->]. apply split_once_spec in E as [-> _]. by exists rest.
Qed.

Lemma is_typed_selects_node_type_witness :
  T.is_typed "FUNC:f" "FUNC" = true
  ↔ contains ":" "FUNC:f" = true ∧ T._node_type "FUNC:f" = "FUNC".
Proof. apply (is_typed_selects_node_type "FUNC:f" "FUNC"). reflexivity. Defined.

Lemma foldl_invariant {A B} (P : A → Prop) (f : A → B → A) (l : list B) (a : A) :
  P a → (∀ a x, P a → P (f a x)) → P (foldl f a l).
Proof.
  intros Ha Hf. revert a Ha. induction l as [|x l IH]; intros a Ha; [done|].
  simpl. by apply IH, Hf.
Qed.

Lemma validator_node_inv lines n t :
  V.parse_nodes_lines lines !! n = Some t →
  (∃ name, n = t +:+ ":" +:+ name)
  ∧ contains ":" t = false ∧ T._node_type n = t
  ∧ ¬ is_link n ∧ n ≠ "" ∧ strip n = n.
Proof.
  unfold V.parse_nodes_lines. revert n t.
  apply (foldl_invariant (λ m : gmap string string, ∀ n t, m !! n = Some t →
    (∃ name, n = t +:+ ":" +:+ name) ∧ contains ":" t = false
    ∧ T._node_type n = t ∧ ¬ is_link n ∧ n ≠ "" ∧ strip n = n)).
  - intros n t. by rewrite lookup_empty.
  - intros m line IH n t. unfold V.nodes_step.
    destruct (negb (BULLET_RE_match line)); [apply IH|]. cbv zeta.
    set (token := strip (BULLET_RE_sub line)).
    destruct (nonempty token) eqn:En; simpl; [|apply IH].
    destruct (startswith "http://" token) eqn:E1; simpl; [apply IH|].
    destruct (startswith "https://" token) eqn:E2; simpl; [apply IH|].
    destruct (split_once ":" token) as [[ty rest]|] eqn:Es; [|apply IH].
    rewrite lookup_insert. case_decide as Heq; [|apply IH].
    intros [= <-]. subst n. pose proof (split_once_spec _ _ _ _ Es) as [Htok Hno].
    split; [by exists rest|]. split; [by apply Hno|].
    split; [unfold T._node_type; by rewrite Es|].
    split; [unfold is_link; rewrite E1, E2; by intros [[]|[]]|].
    split; [by apply nonempty_true|]. apply strip_idem.
Qed.

(** X4. Every key of the validator's node dict is a trimmed, non-empty
    identifier [type:name] that is not a link, and its value is the type:
    the text before the first colon. *)
Theorem validator_nodes_are_typed_identifiers lines n t :
  V.parse_nodes_lines lines !! n = Some t →
  (∃ name, n = t +:+ ":" +:+ name)
  ∧ contains ":" t = false ∧ T._node_type n = t
  ∧ ¬ is_link n ∧ n ≠ "" ∧ strip n = n.
Proof. exact (validator_node_inv lines n t). Qed.

Lemma validator_nodes_are_typed_identifiers_witness :
  (∃ name, "FUNC:f" = "FUNC" +:+ ":" +:+ name)
  ∧ contains ":" "FUNC" = false ∧ T._node_type "FUNC:f" = "FUNC"
  ∧ ¬ is_link "FUNC:f" ∧ "FUNC:f" ≠ "" ∧ strip "FUNC:f" = "FUNC:f".
Proof.
  apply (validator_nodes_are_typed_identifiers [ "  -  FUNC:f " ] "FUNC:f" "FUNC").
  vm_compute. reflexivity.
Defined.

Lemma triage_nodes_elem lines n :
  n ∈ T.parse_nodes_lines lines ↔
  ∃ line, line ∈ lines ∧ BULLET_RE_match line = true
          ∧ strip (BULLET_RE_sub line) = n ∧ contains ":" n = true.
Proof.
  unfold T.parse_nodes_lines.
  assert (∀ acc : gset string, n ∈ foldl T.nodes_step acc lines ↔
    n ∈ acc ∨ ∃ line, line ∈ lines ∧ BULLET_RE_match line = true
          ∧ strip (BULLET_RE_sub line) = n ∧ contains ":" n = true) as Hgen.
  { induction lines as [|l lines IH]; intros acc; simpl.
    - split; [by left|]. intros [?|(line & Hin & _)]; [done|].
      by apply elem_of_nil in Hin.
    - rewrite IH. unfold T.nodes_step.
      destruct (BULLET_RE_match l) eqn:Em; simpl.
      + destruct (nonempty (strip (BULLET_RE_sub l))) eqn:En; simpl.
        * destruct (contains ":" (strip (BULLET_RE_sub l))) eqn:Ec; simpl.
          -- rewrite elem_of_union, elem_of_singleton. split.
             ++ intros [[->|?]|(line & Hin & ?)]; [right|by left|right].
                ** exists l. split; [apply list_elem_of_here|done].
                ** exists line. split; [by apply list_elem_of_further|done].
             ++ intros [?|(line & Hin & Hm & Ht & Hc)]; [by left; right|].
                apply elem_of_cons in Hin as [->|Hin]; [by left; left|].
                right. by exists line.
          -- split.
             ++ intros [?|(line & Hin & ?)]; [by left|right].
                exists line. split; [by apply list_elem_of_further|done].
             ++ intros [?|(line & Hin & Hm & Ht & Hc)]; [by left|].
                apply elem_of_cons in Hin as [->|Hin]; [congruence|].
                right. by exists line.
        * split.
          -- intros [?|(line & Hin & ?)]; [by left|right].
             exists line. split; [by apply list_elem_of_further|done].
          -- intros [?|(line & Hin & Hm & Ht & Hc)]; [by left|].
             apply elem_of_cons in Hin as [->|Hin].
             ++ apply contains_colon_nonempty, nonempty_true in Hc. congruence.
             ++ right. by exists line.
      + split.
        * intros [?|(line & Hin & ?)]; [by left|right].
          exists line. split; [by apply list_elem_of_further|done].
        * intros [?|(line & Hin & Hm & Ht & Hc)]; [by left|].
          apply elem_of_cons in Hin as [->|Hin]; [congruence|].
          right. by exists line. }
  rewrite Hgen. split; [intros [H|H]; [by apply elem_of_empty in H|done]|by right].
Qed.

(** X5. The triage node set is exactly the set of trimmed bullet tokens that
    contain a colon. *)
Theorem triage_nodes_membership lines n :
  n ∈ T.parse_nodes_lines lines ↔
  ∃ line, line ∈ lines ∧ BULLET_RE_match line = true
          ∧ strip (BULLET_RE_sub line) = n ∧ contains ":" n = true.
Proof. exact (triage_nodes_elem lines n). Qed.

(** The validator's dict, read off the triage set: its keys are the triage
    nodes that are not links, each with its type. *)
Lemma validator_nodes_lookup lines n t :
  V.parse_nodes_lines lines !! n = Some t ↔
  n ∈ T.parse_nodes_lines lines ∧ ¬ is_link n ∧ T._node_type n = t.
Proof.
  split.
  - intros H. pose proof (validator_node_inv _ _ _ H)
      as (_ & _ & Ht & Hl & _).
    split; [|done]. apply elem_of_dom_2 in H.
    rewrite validator_nodes_are_triage_nodes_without_links in H.
    by apply elem_of_filter in H as [_ ?].
  - intros (Hin & Hl & Ht).
    assert (n ∈ dom (V.parse_nodes_lines lines)) as [t' Ht']%elem_of_dom.
    { rewrite validator_nodes_are_triage_nodes_without_links.
      by apply elem_of_filter. }
    pose proof (validator_node_inv _ _ _ Ht')
      as (_ & _ & Ht'' & _).
    congruence.
Qed.

(** X6. Neither node parser depends on the order of the lines or on how
    often a line occurs. *)
Theorem node_parsers_ignore_order_and_repeats lines1 lines2 :
  (∀ line, line ∈ lines1 ↔ line ∈ lines2) →
  T.parse_nodes_lines lines1 = T.parse_nodes_lines lines2
  ∧ V.parse_nodes_lines lines1 = V.parse_nodes_lines lines2.
Proof.
  intros Hsame.
  assert (T.parse_nodes_lines lines1 = T.parse_nodes_lines lines2) as Ht.
  { apply set_eq. intros n. rewrite !triage_nodes_elem.
    split; intros (line & Hin & H); exists line; (split; [by apply Hsame|done]). }
  split; [done|]. apply map_eq. intros n. apply option_eq. intros t.
  by rewrite !validator_nodes_lookup, Ht.
Qed.

Lemma node_parsers_ignore_order_and_repeats_witness :
  T.parse_nodes_lines [ "- FUNC:f"; "- ASSET:a"; "- FUNC:f" ]
    = T.parse_nodes_lines [ "- ASSET:a"; "- FUNC:f" ]
  ∧ V.parse_nodes_lines [ "- FUNC:f"; "- ASSET:a"; "- FUNC:f" ]
    = V.parse_nodes_lines [ "- ASSET:a"; "- FUNC:f" ].
Proof.
  apply (node_parsers_ignore_order_and_repeats
           [ "- FUNC:f"; "- ASSET:a"; "- FUNC:f" ] [ "- ASSET:a"; "- FUNC:f" ]).
  intros line. rewrite !elem_of_cons, !elem_of_nil. tauto.
Defined.

(** X7. Round trip: a bullet that renders a trimmed identifier [ty:name],
    not a link and with no colon in [ty], is parsed back as that
    identifier with type [ty], wherever it stands in the document. *)
Theorem node_bullet_round_trip lines ty name :
  strip (ty +:+ ":" +:+ name) = ty +:+ ":" +:+ name →
  ¬ is_link (ty +:+ ":" +:+ name) →
  contains ":" ty = false →
  ("- " +:+ ty +:+ ":" +:+ name) ∈ lines →
  V.parse_nodes_lines lines !! (ty +:+ ":" +:+ name) = Some ty
  ∧ (ty +:+ ":" +:+ name) ∈ T.parse_nodes_lines lines.
Proof.
  intros Hstrip Hlink Hty Hin. set (token := ty +:+ ":" +:+ name) in *.
  assert (bullet_rest ("- " +:+ token) = Some token) as Hb.
  { unfold bullet_rest. change ("- " +:+ token) with (String "-" (String " " token)).
    simpl. f_equal. apply lstrip_clean. rewrite <-Hstrip. apply strip_starts_clean. }
  assert (contains ":" token = true) as Hc.
  { unfold contains, token. by rewrite split_once_colon. }
  assert (token ∈ T.parse_nodes_lines lines) as Hmem.
  { apply triage_nodes_elem. exists ("- " +:+ token).
    unfold BULLET_RE_match, BULLET_RE_sub. rewrite Hb. done. }
  split; [|done]. apply validator_nodes_lookup. split; [done|]. split; [done|].
  unfold T._node_type, token. by rewrite split_once_colon.
Qed.

Lemma node_bullet_round_trip_witness :
  V.parse_nodes_lines [ "# Nodes"; "- FUNC:pay" ] !! ("FUNC" +:+ ":" +:+ "pay")
    = Some "FUNC"
  ∧ ("FUNC" +:+ ":" +:+ "pay") ∈ T.parse_nodes_lines [ "# Nodes"; "- FUNC:pay" ].
Proof.
  apply (node_bullet_round_trip [ "# Nodes"; "- FUNC:pay" ] "FUNC" "pay").
  - reflexivity.
  - intros [[]|[]].
  - reflexivity.
  - apply list_elem_of_further, list_elem_of_here.
Defined.
End node_parsers_more.

(** ** The validator: verdict, error count, monotonicity, missing files *)

Section validator_more.
Implicit Types (nodes : gmap string string) (edges : list V.Edge).
Implicit Types (nt et : gset string) (ep : string).

Lemma edge_errors_nil et nodes ep edges :
  (edges ≫= λ e,
     (if decide (V.edge_type e ∉ et) then [V.edge_type_error ep e] else [])
     ++ (if decide (nodes !! V.src e = None) then [V.missing_src_error ep e] else [])
     ++ (if decide (nodes !! V.dst e = None) then [V.missing_dst_error ep e] else []))
  = [] ↔
  ∀ e, e ∈ edges →
    V.edge_type e ∈ et ∧ is_Some (nodes !! V.src e) ∧ is_Some (nodes !! V.dst e).
Proof.
  induction edges as [|e edges IH].
  - split; [|done]. intros _ e Hin. by apply elem_of_nil in Hin.
  - rewrite bind_cons. split.
    + intros (He & Hrest)%app_eq_nil e' [->|Hin]%elem_of_cons; [|by apply IH].
      repeat case_decide; simpl in He; try done.
      by rewrite <-!not_eq_None_Some.
    + intros Hall.
      rewrite (proj2 IH) by (intros e' Hin; apply Hall; by right).
      rewrite app_nil_r.
      destruct (Hall e (list_elem_of_here _ _)) as (Ht & Hs & Hd).
      rewrite <-not_eq_None_Some in Hs, Hd.
      rewrite (decide_False (P:=V.edge_type e ∉ et)) by (by intros ?).
      by rewrite !decide_False by done.
Qed.

Lemma collect_errors_nil nt et nodes edges ep :
  V.collect_errors nt et nodes edges ep = [] ↔
  (∀ n t, nodes !! n = Some t → t ∈ nt)
  ∧ (∀ e, e ∈ edges →
       V.edge_type e ∈ et ∧ is_Some (nodes !! V.src e) ∧ is_Some (nodes !! V.dst e)).
Proof.
  rewrite collect_errors_spec. split.
  - intros [Hn He]%app_eq_nil.
    split; [|exact (proj1 (edge_errors_nil et nodes ep edges) He)].
    intros n t Hnt. apply fmap_nil_inv in Hn. apply dec_stable. intros Hbad.
    assert ((n, t) ∈ filter (λ it : string * string, it.2 ∉ nt) (V.sorted_items nodes))
      as Hin.
    { apply list_elem_of_filter. split; [done|].
      rewrite sorted_items_perm. by apply elem_of_map_to_list. }
    rewrite Hn in Hin. by apply elem_of_nil in Hin.
  - intros [Hn He]. apply (proj2 (edge_errors_nil et nodes ep edges)) in He.
    rewrite He, app_nil_r.
    assert (filter (λ it : string * string, it.2 ∉ nt) (V.sorted_items nodes) = [])
      as ->; [|done].
    apply elem_of_nil_inv. intros [n t] [Hbad Hin]%list_elem_of_filter.
    apply Hbad. rewrite sorted_items_perm in Hin.
    apply elem_of_map_to_list in Hin. eauto.
Qed.

(** X8. [validate] returns 0 or 1, and 0 exactly for a graph that conforms:
    every node type is in the schema, and every edge has a type of the
    schema and both endpoints among the nodes. *)
Theorem validate_accepts_exactly_conforming_graphs fs dir nt et nodes edges :
  V.parse_schema fs (path_join dir "00_schema.md") = Ok (nt, et) →
  V.parse_nodes fs (path_join dir "01_nodes.md") = Ok nodes →
  V.parse_edges fs (path_join dir "02_edges.md") = Ok edges →
  ∃ code out,
    V.validate fs dir = Ok (code, out)
    ∧ (code = 0%Z ∨ code = 1%Z)
    ∧ (code = 0%Z ↔
         (∀ n t, nodes !! n = Some t → t ∈ nt)
         ∧ (∀ e, e ∈ edges →
              V.edge_type e ∈ et ∧ is_Some (nodes !! V.src e)
              ∧ is_Some (nodes !! V.dst e))).
Proof.
  intros Hs Hn He. rewrite (validate_unfold fs dir nt et nodes edges Hs Hn He).
  pose proof (collect_errors_nil nt et nodes edges (path_join dir "02_edges.md"))
    as Hnil.
  destruct (V.collect_errors nt et nodes edges (path_join dir "02_edges.md"))
    as [|err errs]; eexists _, _; (split; [done|]); rewrite <-Hnil.
  - split; [by left|done].
  - split; [by right|]. split; intros; done.
Qed.
End validator_more.

Lemma validate_accepts_exactly_conforming_graphs_witness :
  ∃ code out,
    V.validate demo_fs "codegraph" = Ok (code, out)
    ∧ (code = 0%Z ∨ code = 1%Z).
Proof.
  destruct (validate_accepts_exactly_conforming_graphs demo_fs "codegraph"
              {[ "FUNC"; "ASSET" ]} {[ "TRANSFERS" ]}
              (V.parse_nodes_lines [ "- FUNC:f"; "- ASSET:usdc"; "- ROLE:admin" ])
              (V.parse_edges_lines
                 [ "- TRANSFERS | FUNC:f -> ASSET:usdc"; "- CALLS | FUNC:g -> FUNC:f" ]))
    as (code & out & Hv & Hcode & _).
  - vm_compute. reflexivity.
  - vm_compute. reflexivity.
  - vm_compute. reflexivity.
  - exists code, out. split; [exact Hv|exact Hcode].
Defined.

Section validator_report.
Implicit Types (nodes : gmap string string) (edges : list V.Edge).
Implicit Types (nt et : gset string) (ep : string).

Lemma filter_length_perm {A} (P : A → Prop) `{∀ x, Decision (P x)} (l k : list A) :
  l ≡ₚ k → length (filter P l) = length (filter P k).
Proof. intros Hp. by rewrite Hp. Qed.

(** X9. The report holds one error per violated condition: as many lines as
    there are nodes of unknown type, edges of unknown type, edges whose
    source is missing and edges whose destination is missing. *)
Theorem collect_errors_count nt et nodes edges ep :
  length (V.collect_errors nt et nodes edges ep)
  = size (filter (λ kv : string * string, kv.2 ∉ nt) nodes)
    + length (filter (λ e, V.edge_type e ∉ et) edges)
    + length (filter (λ e, nodes !! V.src e = None) edges)
    + length (filter (λ e, nodes !! V.dst e = None) edges).
Proof.
  rewrite collect_errors_spec, length_app, length_fmap.
  rewrite (filter_length_perm _ _ _ (sorted_items_perm nodes)).
  assert (length (filter (λ it : string * string, it.2 ∉ nt) (map_to_list nodes))
          = size (filter (λ kv : string * string, kv.2 ∉ nt) nodes)) as ->.
  { rewrite <-length_map_to_list. apply Permutation_length, NoDup_Permutation.
    - apply NoDup_filter, NoDup_map_to_list.
    - apply NoDup_map_to_list.
    - intros [k v]. rewrite list_elem_of_filter, !elem_of_map_to_list,
        map_lookup_filter_Some. tauto. }
  rewrite <-!Nat.add_assoc. f_equal.
  induction edges as [|e edges IH]; [done|].
  rewrite bind_cons, length_app, IH, !filter_cons.
  repeat case_decide; simpl; lia.
Qed.

Lemma filter_weaken_sublist {A} (P Q : A → Prop)
    `{∀ x, Decision (P x)} `{∀ x, Decision (Q x)} (l : list A) :
  (∀ x, P x → Q x) → filter P l `sublist_of` filter Q l.
Proof.
  intros HPQ. induction l as [|x l IH]; [done|]. rewrite !filter_cons.
  destruct (decide (P x)) as [HP|HP].
  - rewrite decide_True by auto. by apply sublist_skip.
  - destruct (decide (Q x)); [by apply sublist_cons|done].
Qed.

(** X10. Enlarging the schema never adds an error: the report for the larger
    schema is the old report with some lines left out. *)
Theorem collect_errors_antitone nt nt' et et' nodes edges ep :
  nt ⊆ nt' → et ⊆ et' →
  V.collect_errors nt' et' nodes edges ep
    `sublist_of` V.collect_errors nt et nodes edges ep.
Proof.
  intros Hnt Het. rewrite !collect_errors_spec. apply sublist_app.
  - apply fmap_sublist, filter_weaken_sublist. intros [n t]. set_solver.
  - induction edges as [|e edges IH]; [done|]. rewrite !bind_cons.
    apply sublist_app; [|done]. apply sublist_app; [|done].
    destruct (decide (V.edge_type e ∉ et')) as [Hbad|Hok].
    + rewrite decide_True; [done|]. set_solver.
    + case_decide; [by apply sublist_cons|done].
Qed.

Lemma collect_errors_antitone_witness :
  V.collect_errors {[ "FUNC"; "ASSET" ]} {[ "TRANSFERS" ]}
    {[ "FUNC:f" := "FUNC"; "ASSET:a" := "ASSET" ]} [] "codegraph/02_edges.md"
  `sublist_of`
  V.collect_errors {[ "FUNC" ]} ∅
    {[ "FUNC:f" := "FUNC"; "ASSET:a" := "ASSET" ]} [] "codegraph/02_edges.md".
Proof.
  apply (collect_errors_antitone {[ "FUNC" ]} {[ "FUNC"; "ASSET" ]} ∅ {[ "TRANSFERS" ]}).
  - apply union_subseteq_l.
  - apply empty_subseteq.
Defined.

(** X11. The validator reads the schema, the nodes and the edges in this
    order, and the first of them that is not a text ends it before any
    check: a missing file with [SystemExit("missing file: <path>")],
    whose message names that file, and a file that exists but cannot be
    read as text with the exception of [read_text], which nothing
    catches.  In both cases the script itself prints nothing and the
    exit status is 1.  With three texts the exit status is the verdict of
    [validate]. *)
Theorem validator_missing_file_aborts fs dir :
  let sp := path_join dir "00_schema.md" in
  let np := path_join dir "01_nodes.md" in
  let ep := path_join dir "02_edges.md" in
  let text := λ p : string, ∃ lines, fs !! p = Some (Text lines) in
  (∀ p, (p = sp ∧ fs !! sp = None)
        ∨ (p = np ∧ text sp ∧ fs !! np = None)
        ∨ (p = ep ∧ text sp ∧ text np ∧ fs !! ep = None) →
     V.validate fs dir = Raise (SystemExitMsg ("missing file: " +:+ p))
     ∧ V.main fs dir = ({| stdout := []; stderr := [] |},
                        Raise (SystemExitMsg ("missing file: " +:+ p)))
     ∧ exit_status (V.main fs dir).2 = 1%Z)
  ∧ (∀ err, fs !! sp = Some (Unreadable err)
            ∨ (text sp ∧ fs !! np = Some (Unreadable err))
            ∨ (text sp ∧ text np ∧ fs !! ep = Some (Unreadable err)) →
     V.validate fs dir = Raise (ReadError err)
     ∧ V.main fs dir = ({| stdout := []; stderr := [] |}, Raise (ReadError err))
     ∧ exit_status (V.main fs dir).2 = 1%Z)
  ∧ (text sp → text np → text ep →
     ∃ code out,
       V.validate fs dir = Ok (code, out)
       ∧ V.main fs dir = (out, Raise (SystemExitCode code))
       ∧ exit_status (V.main fs dir).2 = code).
Proof.
  intros sp np ep text. split; [|split].
  - intros p Hp.
    assert (V.validate fs dir = Raise (SystemExitMsg ("missing file: " +:+ p))) as Hv.
    { unfold V.validate, V.parse_schema, V.parse_nodes, V.parse_edges, V._read_lines.
      fold sp np ep.
      destruct Hp as [[-> Hs]|[(-> & [ls Hs] & Hn)|(-> & [ls Hs] & [ln Hn] & He)]].
      - by rewrite Hs.
      - rewrite Hs. simpl. by rewrite Hn.
      - rewrite Hs. simpl. rewrite Hn. simpl. by rewrite He. }
    split; [done|]. unfold V.main. by rewrite Hv.
  - intros err Hp.
    assert (V.validate fs dir = Raise (ReadError err)) as Hv.
    { unfold V.validate, V.parse_schema, V.parse_nodes, V.parse_edges, V._read_lines.
      fold sp np ep.
      destruct Hp as [Hs|[([ls Hs] & Hn)|([ls Hs] & [ln Hn] & He)]].
      - by rewrite Hs.
      - rewrite Hs. simpl. by rewrite Hn.
      - rewrite Hs. simpl. rewrite Hn. simpl. by rewrite He. }
    split; [done|]. unfold V.main. by rewrite Hv.
  - intros [ls Hs] [ln Hn] [le He].
    assert (∃ code out, V.validate fs dir = Ok (code, out)) as (code & out & Hv).
    { unfold V.validate, V.parse_schema, V.parse_nodes, V.parse_edges, V._read_lines.
      fold sp np ep. rewrite Hs. simpl. rewrite Hn. simpl. rewrite He. simpl.
      destruct (V.collect_errors _ _ _ _ _); eauto. }
    exists code, out. split; [done|]. unfold V.main. by rewrite Hv.
Qed.

Lemma validator_missing_file_aborts_witness :
  V.validate scaffold_fs "codegraph"
    = Raise (SystemExitMsg ("missing file: " +:+ path_join "codegraph" "01_nodes.md"))
  ∧ V.validate undecodable_nodes_fs "codegraph/"
    = Raise (ReadError UnicodeDecodeError)
  ∧ ∃ code out, V.validate demo_fs "codegraph" = Ok (code, out)
      ∧ V.main demo_fs "codegraph" = (out, Raise (SystemExitCode code))
      ∧ exit_status (V.main demo_fs "codegraph").2 = code.
Proof.
  split; [|split].
  - apply (proj1 (validator_missing_file_aborts scaffold_fs "codegraph")).
    right. left. split; [reflexivity|]. split; [|reflexivity].
    exists scaffold_schema. reflexivity.
  - apply (proj1 (proj2 (validator_missing_file_aborts
                           undecodable_nodes_fs "codegraph/"))).
    right. left. split; [|vm_compute; reflexivity].
    exists scaffold_schema. vm_compute. reflexivity.
  - apply (proj2 (proj2 (validator_missing_file_aborts demo_fs "codegraph")));
      eexists; reflexivity.
Defined.
End validator_report.

(** ** Triage: the statistics of a whole edges document *)

Ltac resolve_decides :=
  repeat match goal with
  | |- context [decide ?P] =>
      first [ rewrite (decide_True (P:=P)) by (intuition congruence)
            | rewrite (decide_False (P:=P)) by (intuition congruence) ]
  end.

Section statistics.
Implicit Types (cfg : T.labels) (edges : list T.Edge) (e : T.Edge).
Implicit Types (funcs : list string) (f : string).

Lemma by_func_init_lookup funcs f :
  T.by_func_init funcs !! f = if decide (f ∈ funcs) then Some T.stats0 else None.
Proof.
  unfold T.by_func_init.
  assert (∀ acc : gmap string T.stats,
    foldl (λ by_func func, <[func := T.stats0]> by_func) acc funcs !! f
    = if decide (f ∈ funcs) then Some T.stats0 else acc !! f) as Hgen.
  { induction funcs as [|g funcs IH]; intros acc; cbn [foldl].
    - case_decide as Hin; [by apply elem_of_nil in Hin|done].
    - rewrite IH. destruct (decide (f ∈ funcs)) as [Hin|Hout].
      + rewrite decide_True; [done|]. by right.
      + destruct (decide (f = g)) as [->|Hne].
        * rewrite decide_True by left. by rewrite lookup_insert_eq.
        * rewrite decide_False by (intros [?|?]%elem_of_cons; done).
          by rewrite lookup_insert_ne. }
  rewrite Hgen. by case_decide.
Qed.

Lemma stats_eq (s1 s2 : T.stats) :
  T.value_edges s1 = T.value_edges s2 → T.call_edges s1 = T.call_edges s2 →
  T.reads s1 = T.reads s2 → T.writes s1 = T.writes s2 →
  T.roles s1 = T.roles s2 → T.assets s1 = T.assets s2 → s1 = s2.
Proof. destruct s1, s2. simpl. by intros -> -> -> -> -> ->. Qed.

Lemma filter_snoc_length {A} (P : A → Prop) `{∀ x, Decision (P x)} (l : list A) x :
  length (filter P (l ++ [x]))
  = length (filter P l) + (if decide (P x) then 1 else 0).
Proof.
  rewrite filter_app, length_app, filter_cons, filter_nil. by case_decide.
Qed.

Lemma filter_snoc_dsts (P : T.Edge → Prop) `{∀ x, Decision (P x)} edges e :
  list_to_set (C:=gset string) (T.dst <$> filter P (edges ++ [e]))
  = (if decide (P e) then {[T.dst e]} else ∅)
      ∪ list_to_set (T.dst <$> filter P edges).
Proof.
  rewrite filter_app, fmap_app, list_to_set_app_L, filter_cons, filter_nil.
  destruct (decide (P e)); simpl.
  - by rewrite (right_id_L ∅ (∪)), (comm_L (∪)).
  - by rewrite (right_id_L ∅ (∪)), (left_id_L ∅ (∪)).
Qed.

Ltac stats_fields :=
  apply stats_eq; unfold outgoing_stats; cbv zeta;
  cbn [T.value_edges T.call_edges T.reads T.writes T.roles T.assets];
  rewrite ?filter_snoc_length, ?filter_snoc_dsts; resolve_decides;
  rewrite ?(left_id_L ∅ (∪)); try done; try lia.

Lemma outgoing_stats_snoc cfg f edges e :
  outgoing_stats cfg f (edges ++ [e])
  = if decide (T.src e = f) then T.bump cfg e (outgoing_stats cfg f edges)
    else outgoing_stats cfg f edges.
Proof.
  destruct (decide (T.src e = f)) as [Hsrc|Hsrc]; [|stats_fields].
  unfold T.bump.
  destruct (decide (T.edge_type e ∈ T.value_edge_types cfg)) as [HV|HV].
  { destruct (T.is_typed (T.dst e) (T.asset_type cfg)) eqn:Ea; stats_fields. }
  destruct (decide (T.edge_type e ∈ T.call_edge_types cfg)) as [HC|HC];
    [stats_fields|].
  destruct (decide (T.edge_type e = T.reads_edge_type cfg)) as [HR|HR];
    [stats_fields|].
  destruct (decide (T.edge_type e = T.writes_edge_type cfg)) as [HW|HW];
    [stats_fields|].
  destruct (decide (T.edge_type e = T.role_edge_type cfg)) as [HRo|HRo];
    stats_fields.
Qed.

Lemma by_func_of_lookup cfg funcs edges f :
  T.by_func_of cfg funcs edges !! f
  = if decide (f ∈ funcs) then Some (outgoing_stats cfg f edges) else None.
Proof.
  unfold T.by_func_of. induction edges as [|e edges IH] using rev_ind.
  - simpl. rewrite by_func_init_lookup. by case_decide.
  - rewrite foldl_app. cbn [foldl]. rewrite outgoing_stats_snoc.
    set (m := foldl (T.edge_step cfg) (T.by_func_init funcs) edges) in *.
    unfold T.edge_step. destruct (m !! T.src e) as [st|] eqn:Est.
    + rewrite lookup_insert. destruct (decide (T.src e = f)) as [Heq|Hne]; [|done].
      subst f. rewrite IH in Est.
      destruct (decide (T.src e ∈ funcs)); [|done]. by injection Est as <-.
    + destruct (decide (T.src e = f)) as [Heq|Hne]; [|done].
      subst f. rewrite Est. rewrite IH in Est.
      by destruct (decide (T.src e ∈ funcs)).
Qed.

(** X12. The dict that the edge loop of [triage] builds holds, for every
    function node and for nothing else, the direct count of its outgoing
    edges by kind. *)
Theorem by_func_counts_outgoing_edges cfg funcs edges f :
  T.by_func_of cfg funcs edges !! f
  = if decide (f ∈ funcs) then Some (outgoing_stats cfg f edges) else None.
Proof. exact (by_func_of_lookup cfg funcs edges f). Qed.
End statistics.

(** ** Triage: what the ranked tuples say about the graph *)

Section ranked_tuples.
Implicit Types (cfg : T.labels) (edges : list T.Edge) (e : T.Edge).
Implicit Types (nodes : gset string) (f : string) (perm : bool).

Lemma size_list_to_set_le (l : list string) :
  size (list_to_set (C:=gset string) l) ≤ length l.
Proof.
  induction l as [|x l IH]; [by rewrite list_to_set_nil, size_empty|].
  rewrite list_to_set_cons, size_union_alt, size_singleton. simpl.
  assert (size (list_to_set l ∖ {[x]} : gset string)
          ≤ size (list_to_set l : gset string)) as Hle.
  { apply subseteq_size. intros y Hy. by apply elem_of_difference in Hy as [? _]. }
  lia.
Qed.

Lemma outgoing_counts_disjoint cfg f edges :
  let st := outgoing_stats cfg f edges in
  T.value_edges st + T.call_edges st + T.reads st + T.writes st
  ≤ length (filter (λ e, T.src e = f) edges).
Proof.
  unfold outgoing_stats. cbv zeta.
  cbn [T.value_edges T.call_edges T.reads T.writes].
  induction edges as [|e edges IH]; [done|]. rewrite !filter_cons.
  destruct (decide (T.src e = f)) as [Hs|Hs].
  - destruct (decide (T.edge_type e ∈ T.value_edge_types cfg));
      [resolve_decides; simpl; lia|].
    destruct (decide (T.edge_type e ∈ T.call_edge_types cfg));
      [resolve_decides; simpl; lia|].
    destruct (decide (T.edge_type e = T.reads_edge_type cfg));
      [resolve_decides; simpl; lia|].
    destruct (decide (T.edge_type e = T.writes_edge_type cfg));
      resolve_decides; simpl; lia.
  - resolve_decides. lia.
Qed.

Lemma ranked_elem_stats nodes edges perm cfg t :
  let funcs := T.funcs_of nodes (T.func_type cfg) in
  t ∈ T.sort_reverse (T.ranked_of perm funcs (T.by_func_of cfg funcs edges)) ↔
  t.2 ∈ funcs ∧ t = T.rank_of t.2 (outgoing_stats cfg t.2 edges)
  ∧ (perm = true → T.roles (outgoing_stats cfg t.2 edges) = ∅).
Proof.
  intros funcs. rewrite sort_reverse_perm, ranked_of_elem. split.
  - intros (st & Hf & Hst & Ht & Hp).
    rewrite by_func_of_lookup, decide_True in Hst by done.
    injection Hst as <-. split; [done|]. split; [done|].
    intros ->. by apply has_roles_false.
  - intros (Hf & Ht & Hp). exists (outgoing_stats cfg t.2 edges).
    split; [done|]. split; [by rewrite by_func_of_lookup, decide_True|].
    split; [done|]. destruct perm; [|done]. apply has_roles_false. by apply Hp.
Qed.

(** X13. Every ranked tuple belongs to a function node of the nodes document
    and is bounded by its outgoing edges: the number of distinct assets
    is at most the number of value edges, and the four counters together
    are at most the number of edges that leave the function. *)
Theorem ranked_tuples_bounded nodes edges perm cfg v a c w r f :
  (v, a, c, w, r, f)
    ∈ T.sort_reverse
        (T.ranked_of perm (T.funcs_of nodes (T.func_type cfg))
           (T.by_func_of cfg (T.funcs_of nodes (T.func_type cfg)) edges)) →
  f ∈ nodes ∧ T.is_typed f (T.func_type cfg) = true
  ∧ a ≤ v
  ∧ v + c + w + r ≤ length (filter (λ e, T.src e = f) edges).
Proof.
  intros (Hf & Ht & _)%ranked_elem_stats. cbn [snd] in Hf, Ht.
  apply funcs_of_elem in Hf as [Hn Hty]. split; [done|].
  split; [by apply Is_true_true|].
  unfold T.rank_of in Ht. injection Ht as -> -> -> -> ->.
  pose proof (outgoing_counts_disjoint cfg f edges) as Hsum. cbv zeta in Hsum.
  assert (∀ x y z u bound, x + y + z + u ≤ bound → x + y + u + z ≤ bound)
    as Hswap by lia.
  split; [|apply Hswap, Hsum].
  unfold outgoing_stats. cbv zeta. cbn [T.assets T.value_edges].
  etrans; [apply size_list_to_set_le|]. rewrite length_fmap.
  apply sublist_length, filter_weaken_sublist. tauto.
Qed.

Lemma ranked_tuples_bounded_witness :
  "FUNC:b" ∈ ({[ "FUNC:a"; "FUNC:b"; "ASSET:usdc" ]} : gset string)
  ∧ T.is_typed "FUNC:b" (T.func_type default_labels) = true
  ∧ 1 ≤ 2
  ∧ 2 + 0 + 0 + 1 ≤ length (filter (λ e, T.src e = "FUNC:b") transfer_edges).
Proof.
  apply (ranked_tuples_bounded {[ "FUNC:a"; "FUNC:b"; "ASSET:usdc" ]}
           transfer_edges false default_labels 2 1 0 0 1 "FUNC:b").
  vm_compute. left.
Defined.

Lemma ranked_of_unfiltered_funcs cfg funcs edges :
  (T.ranked_of false funcs (T.by_func_of cfg funcs edges)).*2 = funcs.
Proof.
  rewrite ranked_of_bind.
  assert (∀ l, l ⊆ funcs →
    (l ≫= λ func,
       match T.by_func_of cfg funcs edges !! func with
       | Some st => if false && T.has_roles st then [] else [T.rank_of func st]
       | None => []
       end).*2 = l) as Hgen.
  { induction l as [|g l IH]; intros Hsub; [done|].
    rewrite bind_cons, fmap_app, IH by set_solver.
    rewrite by_func_of_lookup, decide_True by set_solver. done. }
  by apply Hgen.
Qed.

(** X14. Without the permissionless filter the report has one entry for each
    function node, up to the limit: its length is the smaller of the
    limit and the number of nodes of the function type. *)
Theorem unfiltered_triage_lists_every_function nodes edges limit cfg :
  (0 ≤ limit)%Z →
  length (T.triage_graph nodes edges limit false cfg)
  = min (Z.to_nat limit)
        (size (filter (λ n, T.is_typed n (T.func_type cfg) = true) nodes)).
Proof.
  intros Hlim. unfold T.triage_graph.
  rewrite slice_to_nonneg, length_fmap, length_take by done. f_equal.
  rewrite sort_reverse_perm.
  pose proof (f_equal length (ranked_of_unfiltered_funcs cfg
    (T.funcs_of nodes (T.func_type cfg)) edges)) as Hlen.
  rewrite length_fmap in Hlen. unfold T.rank in *. rewrite Hlen, funcs_of_perm.
  unfold filter at 2, set_filter. rewrite size_list_to_set.
  - f_equal. apply list_filter_iff. intros n. by rewrite Is_true_true.
  - apply NoDup_filter, NoDup_elements.
Qed.

Lemma unfiltered_triage_lists_every_function_witness :
  length (T.triage_graph {[ "FUNC:a"; "FUNC:b"; "ASSET:usdc" ]} [] 5 false
            default_labels)
  = min (Z.to_nat 5)
        (size (filter (λ n, T.is_typed n (T.func_type default_labels) = true)
                 ({[ "FUNC:a"; "FUNC:b"; "ASSET:usdc" ]} : gset string))).
Proof.
  apply (unfiltered_triage_lists_every_function
           {[ "FUNC:a"; "FUNC:b"; "ASSET:usdc" ]} [] 5 default_labels).
  lia.
Defined.

Lemma dsts_empty (l : list T.Edge) :
  list_to_set (C:=gset string) (T.dst <$> l) = ∅ ↔ l = [].
Proof.
  destruct l as [|e l]; [done|]. split; [|done].
  rewrite fmap_cons, list_to_set_cons. intros H.
  assert (T.dst e ∈ (∅ : gset string)) as Hin by (rewrite <-H; set_solver).
  by apply elem_of_empty in Hin.
Qed.

(** X15. With [--permissionless-only] a function node is ranked exactly when
    none of its outgoing edges counts as a role requirement, that is, has
    the role label and none of the labels that are tested before it. *)
Theorem permissionless_ranks_functions_without_role_edges nodes edges cfg f :
  (∃ v a c w r,
     (v, a, c, w, r, f)
       ∈ T.sort_reverse
           (T.ranked_of true (T.funcs_of nodes (T.func_type cfg))
              (T.by_func_of cfg (T.funcs_of nodes (T.func_type cfg)) edges))) ↔
  f ∈ nodes ∧ T.is_typed f (T.func_type cfg) = true
  ∧ ∀ e, e ∈ edges → T.src e = f →
      T.edge_type e = T.role_edge_type cfg →
      T.edge_type e ∈ T.value_edge_types cfg
      ∨ T.edge_type e ∈ T.call_edge_types cfg
      ∨ T.edge_type e = T.reads_edge_type cfg
      ∨ T.edge_type e = T.writes_edge_type cfg.
Proof.
  assert (T.roles (outgoing_stats cfg f edges) = ∅ ↔
    ∀ e, e ∈ edges → T.src e = f →
      T.edge_type e = T.role_edge_type cfg →
      T.edge_type e ∈ T.value_edge_types cfg
      ∨ T.edge_type e ∈ T.call_edge_types cfg
      ∨ T.edge_type e = T.reads_edge_type cfg
      ∨ T.edge_type e = T.writes_edge_type cfg) as Hroles.
  { unfold outgoing_stats. cbv zeta. cbn [T.roles]. rewrite dsts_empty. split.
    - intros Hnil e Hin Hs Hr.
      destruct (decide (T.edge_type e ∈ T.value_edge_types cfg)); [by left|].
      destruct (decide (T.edge_type e ∈ T.call_edge_types cfg)); [by right; left|].
      destruct (decide (T.edge_type e = T.reads_edge_type cfg));
        [by right; right; left|].
      destruct (decide (T.edge_type e = T.writes_edge_type cfg));
        [by right; right; right|].
      exfalso. eapply elem_of_nil. rewrite <-Hnil.
      apply list_elem_of_filter. split; [|exact Hin]. tauto.
    - intros Hall. apply elem_of_nil_inv.
      intros e [(Hs & HV & HC & HR & HW & HRo) Hin]%list_elem_of_filter.
      destruct (Hall e Hin Hs HRo) as [?|[?|[?|?]]]; done. }
  rewrite <-Hroles. split.
  - intros (v & a & c & w & r & (Hf & _ & Hp)%ranked_elem_stats).
    cbn [snd] in Hf, Hp. apply funcs_of_elem in Hf as [Hn Hty].
    split; [done|]. split; [by apply Is_true_true|]. by apply Hp.
  - intros (Hn & Hty & Hr).
    exists (T.value_edges (outgoing_stats cfg f edges)),
           (size (T.assets (outgoing_stats cfg f edges))),
           (T.call_edges (outgoing_stats cfg f edges)),
           (T.writes (outgoing_stats cfg f edges)),
           (T.reads (outgoing_stats cfg f edges)).
    apply ranked_elem_stats. cbn [snd]. split; [|done].
    apply funcs_of_elem. split; [done|]. by apply Is_true_true.
Qed.

Lemma outgoing_stats_only_own_edges cfg f edges edges' :
  filter (λ e, T.src e = f) edges ≡ₚ filter (λ e, T.src e = f) edges' →
  outgoing_stats cfg f edges = outgoing_stats cfg f edges'.
Proof.
  intros Hp.
  assert (∀ (P : T.Edge → Prop) `{∀ e, Decision (P e)},
    filter (λ e, T.src e = f ∧ P e) edges
    ≡ₚ filter (λ e, T.src e = f ∧ P e) edges') as Hfil.
  { intros P ?.
    rewrite <-(list_filter_filter_l (λ e, T.src e = f ∧ P e)
                 (λ e, T.src e = f) edges) by tauto.
    rewrite <-(list_filter_filter_l (λ e, T.src e = f ∧ P e)
                 (λ e, T.src e = f) edges') by tauto.
    by rewrite Hp. }
  apply stats_eq; unfold outgoing_stats; cbv zeta;
    cbn [T.value_edges T.call_edges T.reads T.writes T.roles T.assets];
    by rewrite (Hfil _ _).
Qed.

(** X16. The report depends only on the edges that leave function nodes, and
    not on their order: two edge lists with the same such edges, in any
    order, give the same report. *)
Theorem triage_depends_on_function_edges_only nodes edges edges' limit perm cfg :
  (∀ f, f ∈ nodes → T.is_typed f (T.func_type cfg) = true →
        filter (λ e, T.src e = f) edges ≡ₚ filter (λ e, T.src e = f) edges') →
  T.triage_graph nodes edges limit perm cfg
  = T.triage_graph nodes edges' limit perm cfg.
Proof.
  intros Hsame. unfold T.triage_graph.
  assert (T.by_func_of cfg (T.funcs_of nodes (T.func_type cfg)) edges
          = T.by_func_of cfg (T.funcs_of nodes (T.func_type cfg)) edges') as ->;
    [|done].
  apply map_eq. intros f. rewrite !by_func_of_lookup.
  case_decide as Hf; [|done]. f_equal. apply outgoing_stats_only_own_edges.
  apply funcs_of_elem in Hf as [Hn Hty]. apply Hsame; [done|].
  by apply Is_true_true.
Qed.
End ranked_tuples.

Lemma triage_depends_on_function_edges_only_witness :
  T.triage_graph {[ "FUNC:f" ]} [ overlap_edge ] 50 false default_labels
  = T.triage_graph {[ "FUNC:f" ]}
      [ {| T.edge_type := "READS"; T.src := "CONTRACT:c"; T.dst := "VAR:x";
           T.line_no := 2 |};
        overlap_edge ] 50 false default_labels.
Proof.
  apply (triage_depends_on_function_edges_only {[ "FUNC:f" ]}).
  intros f Hf _. apply elem_of_singleton in Hf. rewrite Hf.
  vm_compute. reflexivity.
Defined.

(** ** Triage: the label map *)

Section label_map.
Implicit Types (mapping : gmap string string) (line token : string).

Lemma map_token_clean seps token mapping :
  (∀ k v, mapping !! k = Some v →
          k ≠ "" ∧ v ≠ "" ∧ strip k = k ∧ strip v = v) →
  ∀ k v, T.map_token seps token mapping !! k = Some v →
         k ≠ "" ∧ v ≠ "" ∧ strip k = k ∧ strip v = v.
Proof.
  intros Hm. induction seps as [|sep seps IH]; [done|]. cbn [T.map_token].
  destruct (split_once sep token) as [[a b]|]; [|done].
  destruct (nonempty (strip a)) eqn:Ea; simpl; [|done].
  destruct (nonempty (strip b)) eqn:Eb; simpl; [|done].
  intros k v. rewrite lookup_insert. case_decide as Hk; [|apply Hm].
  intros [= <-]. subst k. apply nonempty_true in Ea, Eb.
  by rewrite !strip_idem.
Qed.

(** X17. Every entry of the label map has a non-empty, trimmed key and a
    non-empty, trimmed value, whatever the schema document holds. *)
Theorem label_map_entries_clean fs path mapping k v :
  T.parse_label_map fs path = Ok mapping →
  mapping !! k = Some v →
  k ≠ "" ∧ v ≠ "" ∧ strip k = k ∧ strip v = v.
Proof.
  unfold T.parse_label_map.
  destruct (fs !! path) as [[lines|err]|]; [|done|by intros [= <-]].
  intros [= <-]. revert k v.
  apply (foldl_invariant (λ st : gmap string string * bool, ∀ k v,
    st.1 !! k = Some v → k ≠ "" ∧ v ≠ "" ∧ strip k = k ∧ strip v = v)).
  - intros k v. cbn [fst]. by rewrite lookup_empty.
  - intros [mapping in_section] line IH. unfold T.label_map_step. cbv zeta.
    destruct (startswith "## " (strip line)); [exact IH|].
    destruct (negb in_section); [exact IH|].
    destruct (negb (BULLET_RE_match line)); [exact IH|].
    destruct (negb (nonempty (strip (BULLET_RE_sub line)))); [exact IH|].
    cbn [fst]. by apply map_token_clean.
Qed.

Lemma label_map_entries_clean_witness :
  "WRITES" ≠ "" ∧ "MOD_STORAGE" ≠ "" ∧ strip "WRITES" = "WRITES"
  ∧ strip "MOD_STORAGE" = "MOD_STORAGE".
Proof.
  apply (label_map_entries_clean
           {[ "s.md" := Text [ "## Label Mapping"; "-  WRITES  ->  MOD_STORAGE " ] ]}
           "s.md" {[ "WRITES" := "MOD_STORAGE" ]} "WRITES" "MOD_STORAGE").
  - vm_compute. reflexivity.
  - vm_compute. reflexivity.
Defined.

Lemma label_map_without_header lines :
  (∀ line, line ∈ lines → startswith "## " (strip line) = true →
           lower (strip (drop_chars 3 (strip line))) ∉ T.label_map_headers) →
  foldl T.label_map_step (∅, false) lines = (∅, false).
Proof.
  induction lines as [|l lines IH]; intros Hno; [done|]. cbn [foldl].
  assert (T.label_map_step (∅, false) l = (∅, false)) as ->.
  { unfold T.label_map_step. cbv zeta.
    destruct (startswith "## " (strip l)) eqn:E; [|done].
    rewrite bool_decide_eq_false_2; [done|].
    apply Hno; [apply list_elem_of_here|done]. }
  apply IH. intros line Hin. apply Hno. by apply list_elem_of_further.
Qed.

(** X18. Without a label map, the labels of the run are the command-line
    values as given: that is so with [--no-label-map], with no schema
    file, and with a schema file none of whose headers is one of the four
    accepted spellings of the label-map header. *)
Theorem labels_are_the_arguments_without_label_map fs a :
  T.arg_no_label_map a = true
  ∨ fs !! path_join (T.arg_codegraph_dir a) "00_schema.md" = None
  ∨ (∃ lines,
       fs !! path_join (T.arg_codegraph_dir a) "00_schema.md"
       = Some (Text lines)
       ∧ ∀ line, line ∈ lines → startswith "## " (strip line) = true →
           lower (strip (drop_chars 3 (strip line))) ∉ T.label_map_headers) →
  T.labels_of fs a =
    Ok {| T.func_type := T.arg_func_type a;
          T.asset_type := T.arg_asset_type a;
          T.value_edge_types := T._csv_set (T.arg_value_edges a);
          T.call_edge_types := T._csv_set (T.arg_call_edges a);
          T.reads_edge_type := T.arg_reads_edge a;
          T.writes_edge_type := T.arg_writes_edge a;
          T.role_edge_type := T.arg_role_edge a |}.
Proof.
  intros Hcase. unfold T.labels_of.
  assert ((if T.arg_no_label_map a then Ok ∅
           else T.parse_label_map fs
                  (path_join (T.arg_codegraph_dir a) "00_schema.md"))
          = Ok (∅ : gmap string string)) as ->.
  { destruct (T.arg_no_label_map a); [done|].
    destruct Hcase as [?|[Hnone|(lines & Hsome & Hno)]]; [done| |].
    - unfold T.parse_label_map. by rewrite Hnone.
    - unfold T.parse_label_map. rewrite Hsome.
      by rewrite label_map_without_header. }
  simpl. unfold T.labels_with. f_equal. cbv zeta.
  assert (∀ X : gset string,
    set_map (C:=gset string) (D:=gset string)
      (λ label : string, default label ((∅ : gmap string string) !! label)) X = X)
    as Hid.
  { intros X. apply set_eq. intros x. rewrite elem_of_map. split.
    - intros (y & -> & Hy). by rewrite lookup_empty.
    - intros Hx. exists x. by rewrite lookup_empty. }
  rewrite !Hid, !lookup_empty. done.
Qed.

Lemma labels_are_the_arguments_without_label_map_witness :
  T.labels_of scaffold_fs T.default_args =
    Ok {| T.func_type := T.arg_func_type T.default_args;
          T.asset_type := T.arg_asset_type T.default_args;
          T.value_edge_types := T._csv_set (T.arg_value_edges T.default_args);
          T.call_edge_types := T._csv_set (T.arg_call_edges T.default_args);
          T.reads_edge_type := T.arg_reads_edge T.default_args;
          T.writes_edge_type := T.arg_writes_edge T.default_args;
          T.role_edge_type := T.arg_role_edge T.default_args |}.
Proof.
  apply (labels_are_the_arguments_without_label_map scaffold_fs T.default_args).
  right. right. exists scaffold_schema. split; [reflexivity|].
  rewrite <-Forall_forall. apply (bool_decide_unpack _). vm_compute. exact I.
Defined.
End label_map.

(** ** Round trip of an edge bullet *)

Section edge_round_trip.
Implicit Types (s a b d ety : string) (c x : ascii).

Lemma append_nonempty_r a b : b ≠ "" → a +:+ b ≠ "".
Proof. destruct a; [done|]. by rewrite append_cons. Qed.

Lemma rstrip_append_clean a b :
  rstrip b ≠ "" → rstrip (a +:+ b) = a +:+ rstrip b.
Proof.
  intros Hb. induction a as [|c a IH]; [done|].
  rewrite !append_cons, rstrip_cons, IH.
  pose proof (append_nonempty_r a (rstrip b) Hb) as Hne.
  by destruct (a +:+ rstrip b).
Qed.

Lemma rstrip_append_fixed a b :
  rstrip b = b → b ≠ "" → rstrip (a +:+ b) = a +:+ b.
Proof. intros Hb Hne. rewrite rstrip_append_clean; by rewrite Hb. Qed.

Lemma rstrip_append_blank a b : rstrip b = "" → rstrip (a +:+ b) = rstrip a.
Proof.
  intros Hb. induction a as [|c a IH]; [done|].
  by rewrite append_cons, !rstrip_cons, IH.
Qed.

Lemma strip_fixed_iff s : strip s = s ↔ starts_clean s ∧ rstrip s = s.
Proof.
  split.
  - intros Hs. split; [rewrite <-Hs; apply strip_starts_clean|].
    rewrite <-Hs at 1. unfold strip. by rewrite rstrip_idem.
  - intros [Hc Hr]. unfold strip. by rewrite lstrip_clean.
Qed.

Lemma starts_clean_append a b : starts_clean a → a ≠ "" → starts_clean (a +:+ b).
Proof. by destruct a. Qed.

Lemma contains_char_cons c x s :
  contains (String c "") (String x s)
  = if decide (c = x) then true else contains (String c "") s.
Proof.
  unfold contains. cbn [split_once]. simpl.
  destruct (ascii_dec c x) as [->|Hne].
  - rewrite decide_True by done. by destruct s.
  - rewrite decide_False by done. by destruct (split_once (String c "") s) as [[??]|].
Qed.

Lemma contains_char_append c a b :
  contains (String c "") (a +:+ b) = false ↔
  contains (String c "") a = false ∧ contains (String c "") b = false.
Proof.
  induction a as [|x a IH]; [by split; [|intros [_ ?]]|].
  rewrite append_cons, !contains_char_cons. case_decide; [|done].
  split; [done|by intros [? _]].
Qed.

Lemma split_char_none c s :
  contains (String c "") s = false → split_char c s = [s].
Proof.
  induction s as [|x s IH]; [done|]. rewrite contains_char_cons.
  case_decide as Hcx; [done|]. intros Hs. cbn [split_char].
  rewrite (proj2 (Ascii.eqb_neq x c)) by congruence. by rewrite IH.
Qed.

Lemma split_char_append c a b :
  contains (String c "") a = false →
  split_char c (a +:+ String c b) = a :: split_char c b.
Proof.
  induction a as [|x a IH].
  - intros _. change ("" +:+ String c b) with (String c b). cbn [split_char].
    by rewrite Ascii.eqb_refl.
  - rewrite contains_char_cons. case_decide as Hcx; [done|]. intros Ha.
    rewrite append_cons. cbn [split_char].
    rewrite (proj2 (Ascii.eqb_neq x c)) by congruence. by rewrite IH.
Qed.

Lemma prefix_nil s : String.prefix "" s = true.
Proof. by destruct s. Qed.

Lemma prefix_cons_cons x a c s :
  String.prefix (String x a) (String c s)
  = if decide (x = c) then String.prefix a s else false.
Proof. simpl. destruct (ascii_dec x c); by case_decide. Qed.

Lemma split_once_arrow s d :
  contains "->" s = false →
  split_once "->" (s +:+ " -> " +:+ d) = Some (s +:+ " ", " " +:+ d).
Proof.
  induction s as [|c s IH]; intros Hno.
  - vm_compute. by destruct d.
  - rewrite append_cons. cbn [split_once].
    unfold contains in Hno. cbn [split_once] in Hno.
    destruct (String.prefix "->" (String c s)) eqn:E; [done|].
    assert (String.prefix "->" (String c (s +:+ " -> " +:+ d)) = false) as ->.
    { change "->" with (String "-" (String ">" "")) in E |- *.
      rewrite prefix_cons_cons in E |- *. case_decide; [|done].
      destruct s as [|c' s].
      - change ("" +:+ " -> " +:+ d) with (String " " ("-> " +:+ d)).
        rewrite prefix_cons_cons. by rewrite decide_False.
      - rewrite append_cons. rewrite prefix_cons_cons in E |- *.
        case_decide; [|done]. by rewrite prefix_nil in E. }
    rewrite IH; [by rewrite append_cons|].
    unfold contains. by destruct (split_once "->" s) as [[??]|].
Qed.

Lemma strip_padded_right s : strip s = s → s ≠ "" → strip (s +:+ " ") = s.
Proof.
  intros [Hc Hr]%strip_fixed_iff Hne. unfold strip.
  rewrite lstrip_clean by (by apply starts_clean_append).
  by rewrite rstrip_append_blank.
Qed.

Lemma strip_padded_left s : strip s = s → strip (" " +:+ s) = s.
Proof. intros Hs. unfold strip in *. done. Qed.

(** X19. Round trip: the bullet that renders an edge as
    [- TYPE | SRC -> DST], with trimmed non-empty fields free of the
    separators, is parsed back as that very edge with the number of its
    line. *)
Theorem edge_bullet_round_trip n ety s d :
  strip ety = ety → strip s = s → strip d = d →
  ety ≠ "" → s ≠ "" → d ≠ "" →
  contains "|" ety = false → contains "|" s = false → contains "|" d = false →
  contains "->" s = false →
  let line := "- " +:+ ety +:+ " | " +:+ s +:+ " -> " +:+ d in
  V.edge_of_line (n, line)
    = Some {| V.edge_type := ety; V.src := s; V.dst := d;
              V.raw := line; V.line_no := n |}
  ∧ T.edge_of_line (n, line)
    = Some {| T.edge_type := ety; T.src := s; T.dst := d; T.line_no := n |}.
Proof.
  intros Hety Hs Hd Nety Ns Nd Bety Bs Bd As line.
  assert (V.edge_of_line (n, line)
    = Some {| V.edge_type := ety; V.src := s; V.dst := d;
              V.raw := line; V.line_no := n |}) as HV;
    [|split; [done|by rewrite edge_of_line_forget, HV]].
  set (link := s +:+ " -> " +:+ d).
  set (token := ety +:+ " | " +:+ link).
  pose proof (proj1 (strip_fixed_iff _) Hety) as [Cety Rety].
  pose proof (proj1 (strip_fixed_iff _) Hs) as [Cs Rs].
  pose proof (proj1 (strip_fixed_iff _) Hd) as [Cd Rd].
  assert (strip link = link) as Hlink.
  { apply strip_fixed_iff. split; [by apply starts_clean_append|].
    unfold link.
    apply rstrip_append_fixed; [|exact (append_nonempty_r " -> " d Nd)].
    by apply rstrip_append_fixed. }
  assert (strip token = token) as Htoken.
  { apply strip_fixed_iff. split; [by apply starts_clean_append|].
    pose proof (proj1 (strip_fixed_iff _) Hlink) as [_ Rlink].
    assert (link ≠ "") as Nlink by (unfold link; by destruct s).
    unfold token.
    apply rstrip_append_fixed; [|exact (append_nonempty_r " | " link Nlink)].
    by apply rstrip_append_fixed. }
  assert (bullet_rest line = Some token) as Hb.
  { unfold bullet_rest, line.
    change ("- " +:+ ety +:+ " | " +:+ s +:+ " -> " +:+ d)
      with (String "-" (String " " token)).
    simpl. f_equal. apply lstrip_clean. by apply starts_clean_append. }
  assert (strip <$> split_char "|" token = [ety; link]) as Hsplit.
  { unfold token.
    change (ety +:+ " | " +:+ link) with (ety +:+ " " +:+ String "|" (" " +:+ link)).
    rewrite <-append_assoc, split_char_append.
    2:{ apply contains_char_append. split; [done|reflexivity]. }
    rewrite split_char_none.
    2:{ apply (contains_char_append "|" " " link). split; [reflexivity|].
        unfold link. apply contains_char_append. split; [done|].
        apply (contains_char_append "|" " -> " d). split; [reflexivity|done]. }
    simpl. by rewrite strip_padded_right, strip_padded_left. }
  unfold V.edge_of_line, BULLET_RE_match, BULLET_RE_sub. rewrite Hb. simpl.
  rewrite Htoken.
  assert (nonempty token = true) as ->.
  { apply nonempty_true. unfold token. by destruct ety. }
  simpl. rewrite Hsplit. unfold link. rewrite split_once_arrow by done.
  rewrite strip_padded_right, strip_padded_left by done.
  by rewrite (proj2 (nonempty_true s)), (proj2 (nonempty_true d)).
Qed.

Lemma edge_bullet_round_trip_witness :
  V.edge_of_line (7, "- " +:+ "TRANSFERS" +:+ " | " +:+ "FUNC:pay" +:+ " -> "
                       +:+ "ASSET:usdc")
    = Some {| V.edge_type := "TRANSFERS"; V.src := "FUNC:pay";
              V.dst := "ASSET:usdc";
              V.raw := "- " +:+ "TRANSFERS" +:+ " | " +:+ "FUNC:pay" +:+ " -> "
                         +:+ "ASSET:usdc";
              V.line_no := 7 |}
  ∧ T.edge_of_line (7, "- " +:+ "TRANSFERS" +:+ " | " +:+ "FUNC:pay" +:+ " -> "
                         +:+ "ASSET:usdc")
    = Some {| T.edge_type := "TRANSFERS"; T.src := "FUNC:pay";
              T.dst := "ASSET:usdc"; T.line_no := 7 |}.
Proof.
  apply (edge_bullet_round_trip 7 "TRANSFERS" "FUNC:pay" "ASSET:usdc");
    first [reflexivity | discriminate].
Defined.
End edge_round_trip.

(** ** The schema parser: which bullets become labels *)

Section schema_sections.
Implicit Types (lines pre post mid : list string) (line label m : string).
Implicit Types (st : V.schema_state).

Lemma bullet_not_marker line :
  BULLET_RE_match line = true →
  strip line ≠ "## Node Types" ∧ strip line ≠ "## Edge Types".
Proof.
  unfold BULLET_RE_match, bullet_rest, strip.
  destruct (lstrip line) as [|c [|c' rest]]; [done| |].
  - destruct (Ascii.eqb c "-") eqn:E; [|by destruct c as [[] [] [] [] [] [] [] []]].
    apply Ascii.eqb_eq in E as ->. done.
  - destruct (Ascii.eqb c "-") eqn:E; [|by destruct c as [[] [] [] [] [] [] [] []]].
    apply Ascii.eqb_eq in E as ->. intros _. rewrite rstrip_cons.
    by destruct (rstrip (String c' rest)).
Qed.

Lemma schema_fold_snoc st lines line :
  foldl V.schema_step st (lines ++ [line])
  = V.schema_step (foldl V.schema_step st lines) line.
Proof. by rewrite foldl_app. Qed.

Lemma schema_step_node_types st line label :
  label ∈ V.node_types (V.schema_step st line) ↔
  label ∈ V.node_types st
  ∨ (V.cur st = V.SecNodes ∧ BULLET_RE_match line = true
     ∧ strip (BULLET_RE_sub line) = label ∧ label ≠ "").
Proof.
  unfold V.schema_step. cbv zeta.
  destruct (decide (strip line = "## Node Types")) as [Hm|Hn].
  { cbn [V.node_types]. split; [by left|]. intros [?|(_ & Hb & _)]; [done|].
    by apply bullet_not_marker in Hb as [? _]. }
  destruct (decide (strip line = "## Edge Types")) as [Hm|He].
  { cbn [V.node_types]. split; [by left|]. intros [?|(_ & Hb & _)]; [done|].
    by apply bullet_not_marker in Hb as [_ ?]. }
  destruct (BULLET_RE_match line) eqn:Eb; simpl;
    [|split; [by left|by intros [?|(_ & ? & _)]]].
  destruct (nonempty (strip (BULLET_RE_sub line))) eqn:En; simpl.
  - apply nonempty_true in En.
    destruct (V.cur st) eqn:Ec; cbn [V.node_types].
    + split; [by left|by intros [?|(? & _)]].
    + rewrite elem_of_union, elem_of_singleton. split.
      * intros [->|?]; [by right|by left].
      * intros [?|(_ & _ & <- & _)]; [by right|by left].
    + split; [by left|by intros [?|(? & _)]].
  - split; [by left|]. intros [?|(_ & _ & <- & Hne)]; [done|].
    by destruct (strip (BULLET_RE_sub line)).
Qed.

Lemma schema_step_edge_types st line label :
  label ∈ V.edge_types (V.schema_step st line) ↔
  label ∈ V.edge_types st
  ∨ (V.cur st = V.SecEdges ∧ BULLET_RE_match line = true
     ∧ strip (BULLET_RE_sub line) = label ∧ label ≠ "").
Proof.
  unfold V.schema_step. cbv zeta.
  destruct (decide (strip line = "## Node Types")) as [Hm|Hn].
  { cbn [V.edge_types]. split; [by left|]. intros [?|(_ & Hb & _)]; [done|].
    by apply bullet_not_marker in Hb as [? _]. }
  destruct (decide (strip line = "## Edge Types")) as [Hm|He].
  { cbn [V.edge_types]. split; [by left|]. intros [?|(_ & Hb & _)]; [done|].
    by apply bullet_not_marker in Hb as [_ ?]. }
  destruct (BULLET_RE_match line) eqn:Eb; simpl;
    [|split; [by left|by intros [?|(_ & ? & _)]]].
  destruct (nonempty (strip (BULLET_RE_sub line))) eqn:En; simpl.
  - apply nonempty_true in En.
    destruct (V.cur st) eqn:Ec; cbn [V.edge_types].
    + split; [by left|by intros [?|(? & _)]].
    + split; [by left|by intros [?|(? & _)]].
    + rewrite elem_of_union, elem_of_singleton. split.
      * intros [->|?]; [by right|by left].
      * intros [?|(_ & _ & <- & _)]; [by right|by left].
  - split; [by left|]. intros [?|(_ & _ & <- & Hne)]; [done|].
    by destruct (strip (BULLET_RE_sub line)).
Qed.

(** The section in force after some lines: the last marker decides. *)
Lemma schema_section_after pre :
  (V.cur (V.parse_schema_lines pre) = V.SecNodes ↔
     ∃ pre1 m pre2, pre = pre1 ++ m :: pre2 ∧ strip m = "## Node Types"
       ∧ Forall (λ l, strip l ≠ "## Edge Types") pre2)
  ∧ (V.cur (V.parse_schema_lines pre) = V.SecEdges ↔
     ∃ pre1 m pre2, pre = pre1 ++ m :: pre2 ∧ strip m = "## Edge Types"
       ∧ Forall (λ l, strip l ≠ "## Node Types") pre2).
Proof.
  unfold V.parse_schema_lines. induction pre as [|l pre IH] using rev_ind.
  - split; (split; [done|]); intros (pre1 & m & pre2 & Heq & _);
      by destruct pre1.
  - rewrite schema_fold_snoc, schema_step_section. destruct IH as [IHn IHe].
    destruct (decide (strip l = "## Node Types")) as [Hn|Hn].
    { split; split; try done.
      - intros _. exists pre, l, []. by repeat split.
      - intros (pre1 & m & pre2 & Heq & Hm & Hall).
        destruct pre2 as [|x pre2 _] using rev_ind.
        + apply app_inj_tail in Heq as [_ <-]. congruence.
        + rewrite app_comm_cons, app_assoc in Heq.
          apply app_inj_tail in Heq as [_ <-].
          apply Forall_app in Hall as [_ Hx]. by inv Hx. }
    destruct (decide (strip l = "## Edge Types")) as [He|He].
    { split; split; try done.
      - intros (pre1 & m & pre2 & Heq & Hm & Hall).
        destruct pre2 as [|x pre2 _] using rev_ind.
        + apply app_inj_tail in Heq as [_ <-]. congruence.
        + rewrite app_comm_cons, app_assoc in Heq.
          apply app_inj_tail in Heq as [_ <-].
          apply Forall_app in Hall as [_ Hx]. by inv Hx.
      - intros _. exists pre, l, []. by repeat split. }
    split.
    + rewrite IHn. split.
      * intros (pre1 & m & pre2 & -> & Hm & Hall).
        exists pre1, m, (pre2 ++ [l]). rewrite <-app_assoc. split; [done|].
        split; [done|]. apply Forall_app. split; [done|]. by constructor.
      * intros (pre1 & m & pre2 & Heq & Hm & Hall).
        destruct pre2 as [|x pre2 _] using rev_ind.
        -- apply app_inj_tail in Heq as [_ <-]. congruence.
        -- rewrite app_comm_cons, app_assoc in Heq.
           apply app_inj_tail in Heq as [-> <-].
           apply Forall_app in Hall as [Hall _]. by exists pre1, m, pre2.
    + rewrite IHe. split.
      * intros (pre1 & m & pre2 & -> & Hm & Hall).
        exists pre1, m, (pre2 ++ [l]). rewrite <-app_assoc. split; [done|].
        split; [done|]. apply Forall_app. split; [done|]. by constructor.
      * intros (pre1 & m & pre2 & Heq & Hm & Hall).
        destruct pre2 as [|x pre2 _] using rev_ind.
        -- apply app_inj_tail in Heq as [_ <-]. congruence.
        -- rewrite app_comm_cons, app_assoc in Heq.
           apply app_inj_tail in Heq as [-> <-].
           apply Forall_app in Hall as [Hall _]. by exists pre1, m, pre2.
Qed.

Lemma schema_labels_by_state lines label :
  (label ∈ V.node_types (V.parse_schema_lines lines) ↔
     ∃ pre line post, lines = pre ++ line :: post
       ∧ V.cur (V.parse_schema_lines pre) = V.SecNodes
       ∧ BULLET_RE_match line = true
       ∧ strip (BULLET_RE_sub line) = label ∧ label ≠ "")
  ∧ (label ∈ V.edge_types (V.parse_schema_lines lines) ↔
     ∃ pre line post, lines = pre ++ line :: post
       ∧ V.cur (V.parse_schema_lines pre) = V.SecEdges
       ∧ BULLET_RE_match line = true
       ∧ strip (BULLET_RE_sub line) = label ∧ label ≠ "").
Proof.
  unfold V.parse_schema_lines. induction lines as [|l lines IH] using rev_ind.
  - split; (split; [by intros ?%elem_of_empty|]);
      intros (pre & line & post & Heq & _); by destruct pre.
  - rewrite schema_fold_snoc. destruct IH as [IHn IHe]. split.
    + rewrite schema_step_node_types, IHn. split.
      * intros [(pre & line & post & -> & H)|H].
        -- exists pre, line, (post ++ [l]). by rewrite <-app_assoc.
        -- exists lines, l, []. done.
      * intros (pre & line & post & Heq & Hc & H).
        destruct post as [|x post _] using rev_ind.
        -- apply app_inj_tail in Heq as [-> ->]. by right.
        -- rewrite app_comm_cons, app_assoc in Heq.
           apply app_inj_tail in Heq as [-> _]. left. by exists pre, line, post.
    + rewrite schema_step_edge_types, IHe. split.
      * intros [(pre & line & post & -> & H)|H].
        -- exists pre, line, (post ++ [l]). by rewrite <-app_assoc.
        -- exists lines, l, []. done.
      * intros (pre & line & post & Heq & Hc & H).
        destruct post as [|x post _] using rev_ind.
        -- apply app_inj_tail in Heq as [-> ->]. by right.
        -- rewrite app_comm_cons, app_assoc in Heq.
           apply app_inj_tail in Heq as [-> _]. left. by exists pre, line, post.
Qed.

(** X20. A label is a node type exactly when it is the non-empty trimmed text
    of a bullet whose nearest marker above is "## Node Types", and an edge
    type exactly when that marker is "## Edge Types"; other headers in
    between change nothing. *)
Theorem schema_labels_follow_nearest_marker lines label :
  (label ∈ V.node_types (V.parse_schema_lines lines) ↔
     ∃ pre m mid line post,
       lines = pre ++ m :: mid ++ line :: post
       ∧ strip m = "## Node Types"
       ∧ Forall (λ l, strip l ≠ "## Edge Types") mid
       ∧ BULLET_RE_match line = true
       ∧ strip (BULLET_RE_sub line) = label ∧ label ≠ "")
  ∧ (label ∈ V.edge_types (V.parse_schema_lines lines) ↔
     ∃ pre m mid line post,
       lines = pre ++ m :: mid ++ line :: post
       ∧ strip m = "## Edge Types"
       ∧ Forall (λ l, strip l ≠ "## Node Types") mid
       ∧ BULLET_RE_match line = true
       ∧ strip (BULLET_RE_sub line) = label ∧ label ≠ "").
Proof.
  destruct (schema_labels_by_state lines label) as [Hn He]. split.
  - rewrite Hn. split.
    + intros (pre0 & line & post & -> & Hc & H).
      apply (proj1 (schema_section_after pre0)) in Hc
        as (pre & m & mid & -> & Hm & Hall).
      exists pre, m, mid, line, post. by rewrite <-app_assoc.
    + intros (pre & m & mid & line & post & -> & Hm & Hall & H).
      exists (pre ++ m :: mid), line, post. rewrite <-app_assoc. split; [done|].
      split; [|done]. apply (proj1 (schema_section_after _)). by exists pre, m, mid.
  - rewrite He. split.
    + intros (pre0 & line & post & -> & Hc & H).
      apply (proj2 (schema_section_after pre0)) in Hc
        as (pre & m & mid & -> & Hm & Hall).
      exists pre, m, mid, line, post. by rewrite <-app_assoc.
    + intros (pre & m & mid & line & post & -> & Hm & Hall & H).
      exists (pre ++ m :: mid), line, post. rewrite <-app_assoc. split; [done|].
      split; [|done]. apply (proj2 (schema_section_after _)). by exists pre, m, mid.
Qed.
End schema_sections.

(** ** Triage: comma-separated label lists *)

Section csv_sets.
Implicit Types (items : list string) (x : string).

Lemma join_cons2 sep x y items :
  join sep (x :: y :: items) = x +:+ sep +:+ join sep (y :: items).
Proof. done. Qed.

Lemma split_char_join c items :
  Forall (λ x, contains (String c "") x = false) items → items ≠ [] →
  split_char c (join (String c "") items) = items.
Proof.
  induction 1 as [|x items Hx Hrest IH]; [done|]. intros _.
  destruct items as [|y items].
  - by apply split_char_none.
  - rewrite join_cons2. change (String c "" +:+ ?s) with (String c s).
    rewrite split_char_append by done. by rewrite IH.
Qed.

Lemma clean_items_kept items :
  Forall (λ x, strip x = x ∧ x ≠ "") items →
  filter (λ v, nonempty v) (strip <$> items) = items.
Proof.
  induction 1 as [|x l [Hs Hne] _ IH]; [done|].
  rewrite fmap_cons, Hs, filter_cons, IH.
  rewrite decide_True; [done|]. apply Is_true_true. by apply nonempty_true.
Qed.

(** X21. Round trip of [_csv_set]: a list of labels that are trimmed,
    non-empty and free of commas, written with [","] between them, is read
    back as the set of these labels. *)
Theorem csv_set_reads_comma_separated_labels items :
  Forall (λ x, strip x = x ∧ x ≠ "" ∧ contains "," x = false) items →
  T._csv_set (join "," items) = list_to_set items.
Proof.
  intros Hitems. unfold T._csv_set. destruct items as [|x0 items]; [done|].
  rewrite (split_char_join "," (x0 :: items)); [| |done].
  - f_equal. apply clean_items_kept.
    eapply Forall_impl; [exact Hitems|]. by intros ? (? & ? & _).
  - eapply Forall_impl; [exact Hitems|]. by intros ? (_ & _ & ?).
Qed.

Lemma csv_set_reads_comma_separated_labels_witness :
  T._csv_set (join "," [ "TRANSFERS"; "MINTS"; "BURNS"; "COLLECTS_FEE" ])
  = list_to_set [ "TRANSFERS"; "MINTS"; "BURNS"; "COLLECTS_FEE" ].
Proof.
  apply (csv_set_reads_comma_separated_labels
           [ "TRANSFERS"; "MINTS"; "BURNS"; "COLLECTS_FEE" ]).
  apply (bool_decide_unpack _). vm_compute. exact I.
Defined.
End csv_sets.


(** ** The scaffolding script *)

Ltac len_absurd H := apply (f_equal length) in H; simpl in H; lia.
Ltac suf_absurd H := apply suffix_length in H; simpl in H; lia.

Section scaffold.
Implicit Types (fs : gmap (list string) Scaf.entry) (p q root dir : list string).
Implicit Types (e : Scaf.entry) (content : string).

Lemma is_dir_mono fs fs' p : fs ⊆ fs' → Scaf.is_dir fs p = true → Scaf.is_dir fs' p = true.
Proof.
  intros Hsub. destruct p as [|n p]; [done|]. unfold Scaf.is_dir.
  destruct (fs !! (n :: p)) as [[c|]|] eqn:E; try done.
  intros _. by rewrite (lookup_weaken _ _ _ _ E Hsub).
Qed.

Lemma exists_mono fs fs' p : fs ⊆ fs' → Scaf.exists_ fs p = true → Scaf.exists_ fs' p = true.
Proof.
  intros Hsub. destruct p as [|n p]; [done|]. unfold Scaf.exists_.
  rewrite !bool_decide_eq_true. intros [e E].
  exists e. by apply (lookup_weaken _ _ _ _ E Hsub).
Qed.

Lemma exists_lookup fs p : p ≠ [] → Scaf.exists_ fs p = true ↔ is_Some (fs !! p).
Proof. destruct p; [done|]. intros _. apply bool_decide_eq_true. Qed.

Lemma not_exists_lookup fs p : Scaf.exists_ fs p = false → fs !! p = None.
Proof.
  destruct p; [done|]. unfold Scaf.exists_. rewrite bool_decide_eq_false.
  intros H. by apply eq_None_not_Some.
Qed.

Lemma is_dir_exists fs p : Scaf.is_dir fs p = true → Scaf.exists_ fs p = true.
Proof.
  destruct p as [|n p]; [done|]. unfold Scaf.is_dir, Scaf.exists_.
  by destruct (fs !! (n :: p)) as [[|]|].
Qed.

Lemma wf_insert fs p e :
  Scaf.wf fs → p ≠ [] → Scaf.is_dir fs (tail p) = true → fs !! p = None →
  Scaf.wf (<[p := e]> fs).
Proof.
  intros Hwf Hp Hdir Hnone q e'. rewrite lookup_insert.
  assert (fs ⊆ <[p := e]> fs) as Hsub by by apply insert_subseteq.
  case_decide as Hq.
  - subst q. intros _. split; [done|]. by apply (is_dir_mono fs).
  - intros Hq'. destruct (Hwf q e' Hq') as [? ?]. split; [done|].
    by apply (is_dir_mono fs).
Qed.

Lemma os_mkdir_ok p fs fs' :
  Scaf.os_mkdir p fs = inr fs' →
  p ≠ [] ∧ Scaf.is_dir fs (tail p) = true ∧ fs !! p = None ∧ fs' = <[p := Scaf.Dir]> fs.
Proof.
  destruct p as [|n parent]; [done|]. unfold Scaf.os_mkdir.
  destruct (Scaf.is_dir fs parent) eqn:Ed.
  - destruct (fs !! (n :: parent)) eqn:El; [done|]. by intros [= <-].
  - by destruct (Scaf.exists_ fs parent).
Qed.

Lemma os_mkdir_spec p fs fs' :
  Scaf.wf fs → Scaf.os_mkdir p fs = inr fs' →
  Scaf.wf fs' ∧ fs ⊆ fs' ∧ Scaf.is_dir fs' p = true
  ∧ ∀ q, q ≠ p → fs' !! q = fs !! q.
Proof.
  intros Hwf (Hp & Hd & Hn & ->)%os_mkdir_ok.
  split; [by apply wf_insert|]. split; [by apply insert_subseteq|].
  split.
  - destruct p; [done|]. unfold Scaf.is_dir. by rewrite lookup_insert_eq.
  - intros q Hq. by rewrite lookup_insert_ne.
Qed.

(** [mkdir(parents=True, exist_ok=True)] only adds directories, and only
    at the path and above it; when it succeeds the path is a directory. *)
Lemma mkdir_p_spec p fs fs' :
  Scaf.wf fs → Scaf.mkdir_p p fs = inr fs' →
  Scaf.wf fs' ∧ fs ⊆ fs' ∧ Scaf.is_dir fs' p = true
  ∧ ∀ q, ¬ q `suffix_of` p → fs' !! q = fs !! q.
Proof.
  revert fs fs'. induction p as [|n parent IH]; intros fs fs' Hwf.
  - cbn. intros [= <-]. done.
  - cbn [Scaf.mkdir_p].
    destruct (Scaf.os_mkdir (n :: parent) fs) as [err|fs1] eqn:E1.
    + destruct err.
      * destruct (Scaf.is_dir fs (n :: parent)) eqn:Ed; [|done]. by intros [= <-].
      * destruct (Scaf.mkdir_p parent fs) as [err|fs1] eqn:E2; [done|].
        destruct (IH fs fs1 Hwf E2) as (Hwf1 & Hsub1 & Hd1 & Hsame1).
        assert (∀ q, ¬ q `suffix_of` n :: parent → fs1 !! q = fs !! q) as Hsame.
        { intros q Hq. apply Hsame1. intros Hs. apply Hq. by apply suffix_cons_r. }
        destruct (Scaf.os_mkdir (n :: parent) fs1) as [err|fs2] eqn:E3.
        -- destruct err; try done;
             (destruct (Scaf.is_dir fs1 (n :: parent)) eqn:Ed; [|done]);
             by intros [= <-].
        -- intros [= <-].
           destruct (os_mkdir_spec _ _ _ Hwf1 E3) as (Hwf2 & Hsub2 & Hd2 & Hsame2).
           split; [done|]. split; [by trans fs1|]. split; [done|].
           intros q Hq. rewrite Hsame2; [by apply Hsame|].
           intros ->. by apply Hq.
      * destruct (Scaf.is_dir fs (n :: parent)) eqn:Ed; [|done]. by intros [= <-].
      * destruct (Scaf.is_dir fs (n :: parent)) eqn:Ed; [|done]. by intros [= <-].
    + intros [= <-].
      destruct (os_mkdir_spec _ _ _ Hwf E1) as (Hwf1 & Hsub1 & Hd1 & Hsame1).
      split; [done|]. split; [done|]. split; [done|].
      intros q Hq. apply Hsame1. intros ->. by apply Hq.
Qed.

Lemma mkdir_p_noop p fs :
  Scaf.wf fs → Scaf.is_dir fs p = true → Scaf.mkdir_p p fs = inr fs.
Proof.
  intros Hwf Hd. destruct p as [|n parent]; [done|]. cbn [Scaf.mkdir_p].
  unfold Scaf.os_mkdir. unfold Scaf.is_dir in Hd.
  destruct (fs !! (n :: parent)) as [[|]|] eqn:E; try done.
  destruct (Hwf _ _ E) as [_ Hpar]. cbn [tail] in Hpar. rewrite Hpar.
  unfold Scaf.is_dir. by rewrite E.
Qed.

Lemma syscall_mkdir_p_spec p fs fs' r :
  Scaf.wf fs → Scaf.syscall (Scaf.mkdir_p p) fs = (fs', r) →
  Scaf.wf fs' ∧ fs ⊆ fs'
  ∧ (∀ q, ¬ q `suffix_of` p → fs' !! q = fs !! q)
  ∧ (∀ u, r = inr u → Scaf.is_dir fs' p = true).
Proof.
  intros Hwf. unfold Scaf.syscall.
  destruct (Scaf.mkdir_p p fs) as [err|fs1] eqn:E.
  - intros [= <- <-]. done.
  - intros [= <- <-].
    destruct (mkdir_p_spec _ _ _ Hwf E) as (? & ? & ? & ?). done.
Qed.

Lemma cons_not_suffix {A} (x : A) (l : list A) : ¬ (x :: l) `suffix_of` l.
Proof. intros H%suffix_length. simpl in H. lia. Qed.

(** [_write_if_missing] leaves every existing entry as it is; when it
    returns, the path exists, and it has written the content exactly when
    the path was free. *)
Lemma write_if_missing_spec name dir content fs fs' r :
  Scaf.wf fs → Scaf._write_if_missing (name :: dir) content fs = (fs', r) →
  Scaf.wf fs' ∧ fs ⊆ fs'
  ∧ (∀ q, q ≠ name :: dir → ¬ q `suffix_of` dir → fs' !! q = fs !! q)
  ∧ (∀ b, r = inr b →
       if b then fs !! (name :: dir) = None
                 ∧ fs' !! (name :: dir) = Some (Scaf.File content)
       else is_Some (fs !! (name :: dir)) ∧ fs' = fs).
Proof.
  intros Hwf. unfold Scaf._write_if_missing.
  destruct (Scaf.exists_ fs (name :: dir)) eqn:Ex.
  { intros [= <- <-]. split; [done|]. split; [done|]. split; [done|].
    intros b [= <-]. split; [|done]. by apply exists_lookup in Ex. }
  apply not_exists_lookup in Ex. unfold Scaf.bind. cbn [tail].
  destruct (Scaf.syscall (Scaf.mkdir_p dir) fs) as [fs1 [err|[]]] eqn:E1.
  { intros [= <- <-].
    destruct (syscall_mkdir_p_spec _ _ _ _ Hwf E1) as (? & ? & Hsame & _).
    split; [done|]. split; [done|]. split; [|done].
    intros q _ Hq. by apply Hsame. }
  destruct (syscall_mkdir_p_spec _ _ _ _ Hwf E1) as (Hwf1 & Hsub1 & Hsame1 & Hd1).
  specialize (Hd1 () eq_refl).
  assert (fs1 !! (name :: dir) = None) as Hfree.
  { rewrite Hsame1; [done|]. apply cons_not_suffix. }
  unfold Scaf.syscall, Scaf.write_text. rewrite Hd1, Hfree. unfold Scaf.ret.
  intros [= <- <-].
  split; [by apply wf_insert|].
  split; [trans fs1; [done|by apply insert_subseteq]|].
  split.
  - intros q Hq Hs. rewrite lookup_insert_ne by done. by apply Hsame1.
  - intros b [= <-]. split; [done|]. by rewrite lookup_insert_eq.
Qed.

Lemma write_all_spec dir files fs fs' r :
  Scaf.wf fs → Scaf.write_all dir files fs = (fs', r) →
  Scaf.wf fs' ∧ fs ⊆ fs'
  ∧ (∀ q, q ∉ ((λ nc : string * string, nc.1 :: dir) <$> files) →
          ¬ q `suffix_of` dir → fs' !! q = fs !! q)
  ∧ (∀ created, r = inr created →
       (∀ nc, nc ∈ files → is_Some (fs' !! (nc.1 :: dir)))
       ∧ (NoDup (files.*1) →
          created = filter (λ p, fs !! p = None)
                      ((λ nc : string * string, nc.1 :: dir) <$> files)
          ∧ ∀ nc, nc ∈ files → fs !! (nc.1 :: dir) = None →
                  fs' !! (nc.1 :: dir) = Some (Scaf.File nc.2))).
Proof.
  revert fs fs' r. induction files as [|[name content] files IH];
    intros fs fs' r Hwf.
  - cbn. unfold Scaf.ret. intros [= <- <-].
    split; [done|]. split; [done|]. split; [done|].
    intros created [= <-]. split.
    + intros nc Hin. by apply elem_of_nil in Hin.
    + intros _. split; [done|]. intros nc Hin. by apply elem_of_nil in Hin.
  - cbn [Scaf.write_all]. unfold Scaf.bind at 1.
    destruct (Scaf._write_if_missing (name :: dir) content fs)
      as [fs1 [err|written]] eqn:E1.
    { intros [= <- <-].
      destruct (write_if_missing_spec _ _ _ _ _ _ Hwf E1) as (? & ? & Hsame & _).
      split; [done|]. split; [done|]. split; [|done].
      intros q Hq Hs. apply Hsame; [|done].
      intros ->. apply Hq. rewrite fmap_cons. apply list_elem_of_here. }
    destruct (write_if_missing_spec _ _ _ _ _ _ Hwf E1)
      as (Hwf1 & Hsub1 & Hsame1 & Hw).
    specialize (Hw written eq_refl). unfold Scaf.bind.
    destruct (Scaf.write_all dir files fs1) as [fs2 [err|created]] eqn:E2.
    { intros [= <- <-].
      destruct (IH _ _ _ Hwf1 E2) as (? & ? & Hsame2 & _).
      split; [done|]. split; [by trans fs1|]. split; [|done].
      intros q Hq Hs. rewrite fmap_cons in Hq. apply not_elem_of_cons in Hq as [? ?].
      rewrite Hsame2 by done. by apply Hsame1. }
    destruct (IH _ _ _ Hwf1 E2) as (Hwf2 & Hsub2 & Hsame2 & Hc).
    specialize (Hc created eq_refl) as [Hall Hnd].
    unfold Scaf.ret. intros [= <- <-].
    split; [done|]. split; [by trans fs1|]. split.
    { intros q Hq Hs. rewrite fmap_cons in Hq. apply not_elem_of_cons in Hq as [? ?].
      rewrite Hsame2 by done. by apply Hsame1. }
    intros created' [= <-]. split.
    { intros nc [->|Hin]%elem_of_cons; [|by apply Hall]. cbn [fst].
      assert (is_Some (fs1 !! (name :: dir))) as [e He].
      { destruct written; [destruct Hw as [_ ->]; eauto|].
        destruct Hw as [? ->]. done. }
      exists e. by apply (lookup_weaken _ _ _ _ He Hsub2). }
    intros Hnodup. rewrite fmap_cons in Hnodup. cbn [fst] in Hnodup.
    apply NoDup_cons in Hnodup as [Hfresh Hnodup].
    destruct (Hnd Hnodup) as [-> Hcontent].
    assert (∀ nc, nc ∈ files → fs1 !! (nc.1 :: dir) = fs !! (nc.1 :: dir)) as Hkeep.
    { intros nc Hin. apply Hsame1.
      - intros [= Heq]. apply Hfresh. rewrite <-Heq.
        by apply (list_elem_of_fmap_2 fst).
      - apply cons_not_suffix. }
    assert (filter (λ p, fs1 !! p = None)
              ((λ nc : string * string, nc.1 :: dir) <$> files)
            = filter (λ p, fs !! p = None)
              ((λ nc : string * string, nc.1 :: dir) <$> files)) as Hfil.
    { clear -Hkeep. induction files as [|nc files IHf]; [done|].
      rewrite fmap_cons, !filter_cons, Hkeep by left.
      rewrite IHf by (intros ??; apply Hkeep; by right). done. }
    rewrite Hfil. split.
    + rewrite fmap_cons, filter_cons. cbn [fst].
      destruct written.
      * destruct Hw as [Hnone _]. by rewrite decide_True.
      * destruct Hw as [[e He] _]. rewrite decide_False; [done|]. by rewrite He.
    + intros nc [->|Hin]%elem_of_cons Hnone; cbn [fst snd] in *.
      * destruct written; [|destruct Hw as [[e He] _]; congruence].
        destruct Hw as [_ Hfile]. by apply (lookup_weaken _ _ _ _ Hfile Hsub2).
      * apply Hcontent; [done|]. by rewrite Hkeep.
Qed.


Lemma wf_empty : Scaf.wf ∅.
Proof. intros p e. by rewrite lookup_empty. Qed.

Lemma wf_root fs : Scaf.wf fs → fs !! ([] : list string) = None.
Proof.
  intros Hwf. destruct (fs !! []) eqn:E; [|done]. by destruct (Hwf _ _ E).
Qed.

Lemma suffix_cons_cases {A} (l1 l2 : list A) (y : A) :
  l1 `suffix_of` y :: l2 → l1 = y :: l2 ∨ l1 `suffix_of` l2.
Proof.
  intros [[|x k] Hk]; [by left|]. right. exists k.
  by injection Hk as _ ->.
Qed.

Lemma wf_ancestors fs p q :
  Scaf.wf fs → Scaf.is_dir fs p = true → q `suffix_of` p → Scaf.is_dir fs q = true.
Proof.
  intros Hwf. induction p as [|n parent IH]; intros Hd Hs.
  - by apply suffix_nil_inv in Hs as ->.
  - apply suffix_cons_cases in Hs as [->|Hs]; [done|].
    apply IH; [|done]. unfold Scaf.is_dir in Hd.
    destruct (fs !! (n :: parent)) as [[|]|] eqn:E; try done.
    by destruct (Hwf _ _ E).
Qed.

Lemma dir_is_no_file fs q c :
  Scaf.wf fs → Scaf.is_dir fs q = true → fs !! q ≠ Some (Scaf.File c).
Proof.
  intros Hwf Hd E. destruct q as [|n q].
  - by rewrite (wf_root _ Hwf) in E.
  - unfold Scaf.is_dir in Hd. by rewrite E in Hd.
Qed.

Lemma mkdir_p_adds_dirs p fs fs' :
  Scaf.mkdir_p p fs = inr fs' →
  ∀ q e, fs' !! q = Some e → fs !! q = Some e ∨ e = Scaf.Dir.
Proof.
  revert fs fs'. induction p as [|n parent IH]; intros fs fs'.
  - cbn. intros [= <-]. auto.
  - cbn [Scaf.mkdir_p].
    destruct (Scaf.os_mkdir (n :: parent) fs) as [err|fs1] eqn:E1.
    + destruct err.
      * destruct (Scaf.is_dir fs (n :: parent)); [|done]. intros [= <-]. auto.
      * destruct (Scaf.mkdir_p parent fs) as [err|fs1] eqn:E2; [done|].
        destruct (Scaf.os_mkdir (n :: parent) fs1) as [err|fs2] eqn:E3.
        -- destruct err; try done;
             (destruct (Scaf.is_dir fs1 (n :: parent)); [|done]);
             intros [= <-]; by apply IH.
        -- intros [= <-] q e Hq.
           apply os_mkdir_ok in E3 as (_ & _ & _ & ->).
           apply lookup_insert_Some in Hq as [[_ <-]|[_ Hq]]; [by right|].
           by apply (IH _ _ E2).
      * destruct (Scaf.is_dir fs (n :: parent)); [|done]. intros [= <-]. auto.
      * destruct (Scaf.is_dir fs (n :: parent)); [|done]. intros [= <-]. auto.
    + intros [= <-] q e Hq.
      apply os_mkdir_ok in E1 as (_ & _ & _ & ->).
      apply lookup_insert_Some in Hq as [[_ <-]|[_ Hq]]; auto.
Qed.

(** [mkdir(parents=True, exist_ok=True)] fails exactly when a regular file
    lies at the path or above it. *)
Lemma mkdir_p_succeeds p fs :
  Scaf.wf fs →
  (∃ fs', Scaf.mkdir_p p fs = inr fs')
  ↔ ∀ q c, q `suffix_of` p → fs !! q ≠ Some (Scaf.File c).
Proof.
  intros Hwf. induction p as [|n parent IH].
  - cbn. split; [|eauto]. intros _ q c ->%suffix_nil_inv.
    by rewrite (wf_root _ Hwf).
  - cbn [Scaf.mkdir_p]. unfold Scaf.os_mkdir.
    destruct (Scaf.is_dir fs parent) eqn:Ed.
    + assert (∀ q c, q `suffix_of` parent → fs !! q ≠ Some (Scaf.File c)) as Hup.
      { intros q c Hs. apply dir_is_no_file; [done|].
        by apply (wf_ancestors fs parent). }
      destruct (fs !! (n :: parent)) as [[c|]|] eqn:El.
      * unfold Scaf.is_dir. rewrite El. split; [by intros [? ?]|].
        intros H. by destruct (H (n :: parent) c).
      * unfold Scaf.is_dir. rewrite El. split; [|eauto].
        intros _ q c [->|Hs]%suffix_cons_cases; [by rewrite El|by apply Hup].
      * split; [|eauto].
        intros _ q c [->|Hs]%suffix_cons_cases; [by rewrite El|by apply Hup].
    + assert (fs !! (n :: parent) = None) as El.
      { destruct (fs !! (n :: parent)) eqn:El; [|done].
        destruct (Hwf _ _ El) as [_ Hd]. cbn [tail] in Hd. congruence. }
      destruct (Scaf.exists_ fs parent) eqn:Ex.
      * unfold Scaf.is_dir at 1. rewrite El. split; [by intros [? ?]|].
        intros H. destruct parent as [|m parent]; [done|].
        apply exists_lookup in Ex as [e Ex]; [|done].
        unfold Scaf.is_dir in Ed. rewrite Ex in Ed. destruct e as [c|]; [|done].
        destruct (H (m :: parent) c); [|done]. by apply suffix_cons_r.
      * apply not_exists_lookup in Ex.
        destruct (Scaf.mkdir_p parent fs) as [err|fs1] eqn:E2.
        { split; [by intros [? ?]|]. intros H.
          destruct (proj2 IH) as [? ?]; [|done].
          intros q c Hs. apply H. by apply suffix_cons_r. }
        destruct (mkdir_p_spec _ _ _ Hwf E2) as (Hwf1 & Hsub1 & Hd1 & Hsame1).
        rewrite Hd1, Hsame1, El by apply cons_not_suffix.
        split; [|eauto].
        intros _ q c [->|Hs]%suffix_cons_cases; [by rewrite El|].
        apply (proj1 IH); eauto.
Qed.

Lemma bind_inv {A B} (m : Scaf.io A) (k : A → Scaf.io B) fs fs' r :
  Scaf.bind m k fs = (fs', r) →
  (∃ err, m fs = (fs', inl err) ∧ r = inl err)
  ∨ (∃ fs1 a, m fs = (fs1, inr a) ∧ k a fs1 = (fs', r)).
Proof.
  unfold Scaf.bind. destruct (m fs) as [fs1 [err|a]].
  - intros [= <- <-]. left. eauto.
  - intros H. right. eauto.
Qed.

Lemma grows_refl F fs : Scaf.wf fs → Scaf.grows_within F fs fs.
Proof. done. Qed.

Lemma grows_trans F fs1 fs2 fs3 :
  Scaf.grows_within F fs1 fs2 → Scaf.grows_within F fs2 fs3 → Scaf.grows_within F fs1 fs3.
Proof.
  intros (_ & Hs1 & Hf1) (Hw & Hs2 & Hf2).
  split; [done|]. split; [by trans fs2|].
  intros q Hq. by rewrite Hf2, Hf1.
Qed.

Lemma grows_weaken (F G : list string → Prop) fs fs' :
  (∀ q, F q → G q) → Scaf.grows_within F fs fs' → Scaf.grows_within G fs fs'.
Proof.
  intros HFG (Hw & Hs & Hf). split; [done|]. split; [done|].
  intros q Hq. apply Hf. intros HF. by apply Hq, HFG.
Qed.

Lemma step_mkdir p fs fs' r :
  Scaf.wf fs → Scaf.syscall (Scaf.mkdir_p p) fs = (fs', r) →
  Scaf.grows_within (λ q, q `suffix_of` p) fs fs'
  ∧ (∀ u, r = inr u → Scaf.is_dir fs' p = true).
Proof.
  intros Hwf H.
  by destruct (syscall_mkdir_p_spec _ _ _ _ Hwf H) as (? & ? & ? & ?).
Qed.

Lemma step_write_all dir files fs fs' r :
  Scaf.wf fs → Scaf.write_all dir files fs = (fs', r) →
  Scaf.grows_within
    (λ q, q ∈ ((λ nc : string * string, nc.1 :: dir) <$> files)
          ∨ q `suffix_of` dir) fs fs'.
Proof.
  intros Hwf H.
  destruct (write_all_spec _ _ _ _ _ Hwf H) as (? & ? & Hsame & _).
  split; [done|]. split; [done|].
  intros q Hq. apply Hsame; intros ?; apply Hq; auto.
Qed.

Lemma write_if_missing_succeeds name dir content fs :
  Scaf.wf fs → Scaf.is_dir fs dir = true →
  ∃ fs' b, Scaf._write_if_missing (name :: dir) content fs = (fs', inr b).
Proof.
  intros Hwf Hd. unfold Scaf._write_if_missing.
  destruct (Scaf.exists_ fs (name :: dir)) eqn:Ex; [eauto|].
  apply not_exists_lookup in Ex.
  unfold Scaf.bind, Scaf.syscall. cbn [tail]. rewrite mkdir_p_noop by done.
  unfold Scaf.write_text. rewrite Hd, Ex. eauto.
Qed.

Lemma write_all_succeeds dir files fs :
  Scaf.wf fs → Scaf.is_dir fs dir = true →
  ∃ fs' created, Scaf.write_all dir files fs = (fs', inr created).
Proof.
  revert fs. induction files as [|[name content] files IH]; intros fs Hwf Hd.
  - cbn. unfold Scaf.ret. eauto.
  - destruct (write_if_missing_succeeds name dir content fs Hwf Hd)
      as (fs1 & b & E1).
    destruct (write_if_missing_spec _ _ _ _ _ _ Hwf E1) as (Hwf1 & Hsub1 & _).
    destruct (IH fs1 Hwf1 (is_dir_mono _ _ _ Hsub1 Hd)) as (fs2 & created & E2).
    cbn [Scaf.write_all]. unfold Scaf.bind. rewrite E1, E2. unfold Scaf.ret. eauto.
Qed.

Lemma write_all_noop dir files fs :
  (∀ nc, nc ∈ files → is_Some (fs !! (nc.1 :: dir))) →
  Scaf.write_all dir files fs = (fs, inr []).
Proof.
  induction files as [|[name content] files IH]; intros Hall; [done|].
  cbn [Scaf.write_all]. unfold Scaf.bind, Scaf._write_if_missing.
  assert (Scaf.exists_ fs (name :: dir) = true) as ->.
  { apply exists_lookup; [done|]. apply (Hall (name, content)). left. }
  rewrite IH; [done|]. intros nc Hin. apply Hall. by right.
Qed.

Lemma filter_missing_lookup fs (l : list (list string)) :
  Forall (λ p, p ≠ []) l →
  filter (λ p, Scaf.exists_ fs p = false) l = filter (λ p, fs !! p = None) l.
Proof.
  induction 1 as [|p l Hp _ IH]; [done|]. rewrite !filter_cons, IH.
  destruct (Scaf.exists_ fs p) eqn:Ex.
  - apply exists_lookup in Ex as [e Ex]; [|done].
    rewrite decide_False by done. rewrite decide_False; [done|]. by rewrite Ex.
  - apply not_exists_lookup in Ex. rewrite decide_True by done.
    by rewrite decide_True.
Qed.

Lemma filter_lookup_frame fs fs1 (l : list (list string)) :
  (∀ p, p ∈ l → fs1 !! p = fs !! p) →
  filter (λ p, fs1 !! p = None) l = filter (λ p, fs !! p = None) l.
Proof.
  induction l as [|p l IH]; intros H; [done|].
  rewrite !filter_cons, H by left.
  rewrite IH by (intros ??; apply H; by right). done.
Qed.

Lemma scaffold_files_paths root :
  (Scaf.scaffold_files root).*1
  = ((λ nc : string * string, nc.1 :: "codegraph" :: root) <$> Scaf.ssot_files)
    ++ ((λ nc : string * string, nc.1 :: "layers" :: "codegraph" :: root)
          <$> Scaf.layer_files)
    ++ ((λ nc : string * string, nc.1 :: root) <$> Scaf.ledgers).
Proof.
  unfold Scaf.scaffold_files. cbv zeta.
  by rewrite !fmap_app, <-!list_fmap_compose.
Qed.

Lemma ssot_names_NoDup : NoDup (Scaf.ssot_files.*1).
Proof. apply (bool_decide_unpack _). by vm_compute. Qed.
Lemma layer_names_NoDup : NoDup (Scaf.layer_files.*1).
Proof. apply (bool_decide_unpack _). by vm_compute. Qed.
Lemma ledger_names_NoDup : NoDup (Scaf.ledgers.*1).
Proof. apply (bool_decide_unpack _). by vm_compute. Qed.

Lemma ssot_names_no_dir n nc :
  nc ∈ Scaf.ssot_files → n = nc.1 → n ≠ "layers" ∧ n ≠ "diagrams".
Proof.
  intros Hin -> .
  assert (nc.1 ∈ Scaf.ssot_files.*1) as H by by apply (list_elem_of_fmap_2 fst).
  split; intros Heq; rewrite Heq in H;
    apply (bool_decide_pack _) in H; by vm_compute in H.
Qed.

Lemma ledger_names_no_dir nc : nc ∈ Scaf.ledgers → nc.1 ≠ "codegraph".
Proof.
  intros Hin Heq.
  assert (nc.1 ∈ Scaf.ledgers.*1) as H by by apply (list_elem_of_fmap_2 fst).
  rewrite Heq in H. apply (bool_decide_pack _) in H. by vm_compute in H.
Qed.

Lemma ssot_path_outside_dirs root nc :
  nc ∈ Scaf.ssot_files →
  ¬ (nc.1 :: "codegraph" :: root `suffix_of` "layers" :: "codegraph" :: root
     ∨ nc.1 :: "codegraph" :: root `suffix_of` "diagrams" :: "codegraph" :: root).
Proof.
  intros Hin. destruct (ssot_names_no_dir _ _ Hin eq_refl) as [H1 H2].
  intros [[Heq|Hs]%suffix_cons_cases|[Heq|Hs]%suffix_cons_cases].
  - by injection Heq.
  - by apply cons_not_suffix in Hs.
  - by injection Heq.
  - by apply cons_not_suffix in Hs.
Qed.

Lemma layer_path_outside root (nc : string * string) :
  let p := nc.1 :: "layers" :: "codegraph" :: root in
  ¬ (p `suffix_of` "layers" :: "codegraph" :: root
     ∨ p `suffix_of` "diagrams" :: "codegraph" :: root)
  ∧ ¬ (p ∈ ((λ nc : string * string, nc.1 :: "codegraph" :: root) <$> Scaf.ssot_files)
       ∨ p `suffix_of` "codegraph" :: root).
Proof.
  intros p. subst p. split.
  - intros [Hs|Hs]; [by apply cons_not_suffix in Hs|suf_absurd Hs].
  - intros [(nc' & Heq & _)%list_elem_of_fmap|Hs]; [len_absurd Heq|suf_absurd Hs].
Qed.

Lemma ledger_path_not_above root (nc : string * string) (d : string) :
  nc ∈ Scaf.ledgers → ¬ nc.1 :: root `suffix_of` d :: "codegraph" :: root.
Proof.
  intros Hin [Heq|[Heq|Hs]%suffix_cons_cases]%suffix_cons_cases.
  - len_absurd Heq.
  - injection Heq as Heq. by apply (ledger_names_no_dir nc).
  - by apply cons_not_suffix in Hs.
Qed.

Lemma ledger_path_outside root nc :
  nc ∈ Scaf.ledgers →
  let p := nc.1 :: root in
  ¬ (p `suffix_of` "layers" :: "codegraph" :: root
     ∨ p `suffix_of` "diagrams" :: "codegraph" :: root)
  ∧ ¬ (p ∈ ((λ nc : string * string, nc.1 :: "codegraph" :: root) <$> Scaf.ssot_files)
       ∨ p `suffix_of` "codegraph" :: root)
  ∧ ¬ (p ∈ ((λ nc : string * string, nc.1 :: "layers" :: "codegraph" :: root)
              <$> Scaf.layer_files)
       ∨ p `suffix_of` "layers" :: "codegraph" :: root).
Proof.
  intros Hin p. subst p. split; [|split].
  - intros [Hs|Hs]; by apply (ledger_path_not_above root nc) in Hs.
  - intros [(nc' & Heq & _)%list_elem_of_fmap|[Heq|Hs]%suffix_cons_cases].
    + len_absurd Heq.
    + injection Heq as Heq. by apply (ledger_names_no_dir nc).
    + by apply cons_not_suffix in Hs.
  - intros [(nc' & Heq & _)%list_elem_of_fmap|Hs].
    + len_absurd Heq.
    + by apply (ledger_path_not_above root nc) in Hs.
Qed.

Lemma footprint_dirs root q :
  q `suffix_of` "layers" :: "codegraph" :: root
  ∨ q `suffix_of` "diagrams" :: "codegraph" :: root → Scaf.footprint root q.
Proof. unfold Scaf.footprint. tauto. Qed.

Lemma footprint_codegraph root q :
  q `suffix_of` "codegraph" :: root → Scaf.footprint root q.
Proof. intros Hs. left. by apply suffix_cons_r. Qed.

Lemma footprint_ssot root q :
  q ∈ ((λ nc : string * string, nc.1 :: "codegraph" :: root) <$> Scaf.ssot_files)
  ∨ q `suffix_of` "codegraph" :: root → Scaf.footprint root q.
Proof.
  intros [Hin|Hs]; [|by apply footprint_codegraph].
  right. right. rewrite scaffold_files_paths, !elem_of_app. auto.
Qed.

Lemma footprint_layers root q :
  q ∈ ((λ nc : string * string, nc.1 :: "layers" :: "codegraph" :: root)
         <$> Scaf.layer_files)
  ∨ q `suffix_of` "layers" :: "codegraph" :: root → Scaf.footprint root q.
Proof.
  intros [Hin|Hs]; [|by left].
  right. right. rewrite scaffold_files_paths, !elem_of_app. auto.
Qed.

Lemma footprint_ledgers root q :
  q ∈ ((λ nc : string * string, nc.1 :: root) <$> Scaf.ledgers)
  ∨ q `suffix_of` root → Scaf.footprint root q.
Proof.
  intros [Hin|Hs]; [|by apply footprint_codegraph, suffix_cons_r].
  right. right. rewrite scaffold_files_paths, !elem_of_app. auto.
Qed.

Lemma main_spec root fs fs' r :
  Scaf.wf fs → Scaf.main root fs = (fs', r) →
  Scaf.grows_within (Scaf.footprint root) fs fs'
  ∧ ∀ out, r = inr out →
      (∀ d, d ∈ Scaf.scaffold_dirs root → Scaf.is_dir fs' d = true)
    ∧ (∀ p c, (p, c) ∈ Scaf.scaffold_files root →
         is_Some (fs' !! p) ∧ (fs !! p = None → fs' !! p = Some (Scaf.File c)))
    ∧ out = Scaf.report root (filter (λ p, fs !! p = None)
                (Scaf.scaffold_dirs root ++ (Scaf.scaffold_files root).*1)).
Proof.
  intros Hwf. unfold Scaf.main. cbv zeta. unfold Scaf.missing. intros H.
  apply bind_inv in H as [(err & Hm & _)|(fs0 & dirs & Hm & H)]; [done|].
  injection Hm as <- <-.
  (* the three directories *)
  apply bind_inv in H as [(err & Hm & ->)|(fs1 & [] & Hm & H)].
  { destruct (step_mkdir _ _ _ _ Hwf Hm) as [G _]. split; [|done].
    eapply grows_weaken; [|exact G]. apply footprint_codegraph. }
  destruct (step_mkdir _ _ _ _ Hwf Hm) as [G1 D1]. specialize (D1 () eq_refl).
  apply (grows_weaken _ (λ q, q `suffix_of` "layers" :: "codegraph" :: root
                              ∨ q `suffix_of` "diagrams" :: "codegraph" :: root))
    in G1; [|intros q Hq; left; by apply suffix_cons_r].
  clear Hm. pose proof G1 as (Hwf1 & Hsub1 & _).
  apply bind_inv in H as [(err & Hm & ->)|(fs2 & [] & Hm & H)].
  { destruct (step_mkdir _ _ _ _ Hwf1 Hm) as [G _]. split; [|done].
    eapply grows_weaken; [apply footprint_dirs|].
    eapply grows_trans; [exact G1|]. eapply grows_weaken; [|exact G]. tauto. }
  destruct (step_mkdir _ _ _ _ Hwf1 Hm) as [G2 D2]. specialize (D2 () eq_refl).
  assert (Scaf.grows_within
            (λ q, q `suffix_of` "layers" :: "codegraph" :: root
                  ∨ q `suffix_of` "diagrams" :: "codegraph" :: root) fs fs2) as G2'.
  { eapply grows_trans; [exact G1|]. eapply grows_weaken; [|exact G2]. tauto. }
  clear Hm G1. pose proof G2' as (Hwf2 & Hsub2 & _).
  apply bind_inv in H as [(err & Hm & ->)|(fs3 & [] & Hm & H)].
  { destruct (step_mkdir _ _ _ _ Hwf2 Hm) as [G _]. split; [|done].
    eapply grows_weaken; [apply footprint_dirs|].
    eapply grows_trans; [exact G2'|]. eapply grows_weaken; [|exact G]. tauto. }
  destruct (step_mkdir _ _ _ _ Hwf2 Hm) as [G3 D3]. specialize (D3 () eq_refl).
  assert (Scaf.grows_within
            (λ q, q `suffix_of` "layers" :: "codegraph" :: root
                  ∨ q `suffix_of` "diagrams" :: "codegraph" :: root) fs fs3) as G3'.
  { eapply grows_trans; [exact G2'|]. eapply grows_weaken; [|exact G3]. tauto. }
  assert (Scaf.is_dir fs3 ("codegraph" :: root) = true) as D1'.
  { apply (is_dir_mono fs1); [|done]. trans fs2; [apply G2|apply G3]. }
  assert (Scaf.is_dir fs3 ("layers" :: "codegraph" :: root) = true) as D2'.
  { apply (is_dir_mono fs2); [apply G3|done]. }
  clear Hm G2' G3. pose proof G3' as (Hwf3 & Hsub3 & Hsame3).
  assert (Scaf.grows_within (Scaf.footprint root) fs fs3) as C3.
  { eapply grows_weaken; [apply footprint_dirs|exact G3']. }
  (* the files of the codegraph directory *)
  apply bind_inv in H as [(err & Hm & ->)|(fs4 & c1 & Hm & H)].
  { split; [|done]. eapply grows_trans; [exact C3|].
    eapply grows_weaken; [apply footprint_ssot|].
    by apply (step_write_all _ _ _ _ _ Hwf3 Hm). }
  pose proof (step_write_all _ _ _ _ _ Hwf3 Hm) as G4.
  destruct (write_all_spec _ _ _ _ _ Hwf3 Hm) as (Hwf4 & Hsub4 & Hsame4 & W4).
  destruct (W4 c1 eq_refl) as [Hall4 N4]. clear W4 Hm.
  destruct (N4 ssot_names_NoDup) as [Hc1 Hcont4]. clear N4.
  assert (Scaf.grows_within (Scaf.footprint root) fs fs4) as C4.
  { eapply grows_trans; [exact C3|].
    eapply grows_weaken; [apply footprint_ssot|exact G4]. }
  (* the layer files *)
  apply bind_inv in H as [(err & Hm & ->)|(fs5 & c2 & Hm & H)].
  { split; [|done]. eapply grows_trans; [exact C4|].
    eapply grows_weaken; [apply footprint_layers|].
    by apply (step_write_all _ _ _ _ _ Hwf4 Hm). }
  pose proof (step_write_all _ _ _ _ _ Hwf4 Hm) as G5.
  destruct (write_all_spec _ _ _ _ _ Hwf4 Hm) as (Hwf5 & Hsub5 & Hsame5 & W5).
  destruct (W5 c2 eq_refl) as [Hall5 N5]. clear W5 Hm.
  destruct (N5 layer_names_NoDup) as [Hc2 Hcont5]. clear N5.
  assert (Scaf.grows_within (Scaf.footprint root) fs fs5) as C5.
  { eapply grows_trans; [exact C4|].
    eapply grows_weaken; [apply footprint_layers|exact G5]. }
  (* the ledgers *)
  apply bind_inv in H as [(err & Hm & ->)|(fs6 & c3 & Hm & H)].
  { split; [|done]. eapply grows_trans; [exact C5|].
    eapply grows_weaken; [apply footprint_ledgers|].
    by apply (step_write_all _ _ _ _ _ Hwf5 Hm). }
  pose proof (step_write_all _ _ _ _ _ Hwf5 Hm) as G6.
  destruct (write_all_spec _ _ _ _ _ Hwf5 Hm) as (Hwf6 & Hsub6 & Hsame6 & W6).
  destruct (W6 c3 eq_refl) as [Hall6 N6]. clear W6 Hm.
  destruct (N6 ledger_names_NoDup) as [Hc3 Hcont6]. clear N6.
  assert (Scaf.grows_within (Scaf.footprint root) fs fs6) as C6.
  { eapply grows_trans; [exact C5|].
    eapply grows_weaken; [apply footprint_ledgers|exact G6]. }
  unfold Scaf.ret in H. injection H as <- <-.
  split; [exact C6|]. intros out [= <-].
  (* what the files looked like when each loop reached them *)
  assert (∀ nc, nc ∈ Scaf.ssot_files →
            fs3 !! (nc.1 :: "codegraph" :: root)
            = fs !! (nc.1 :: "codegraph" :: root)) as K1.
  { intros nc Hin. apply Hsame3. by apply ssot_path_outside_dirs. }
  assert (∀ nc, nc ∈ Scaf.layer_files →
            fs4 !! (nc.1 :: "layers" :: "codegraph" :: root)
            = fs !! (nc.1 :: "layers" :: "codegraph" :: root)) as K2.
  { intros nc Hin. destruct (layer_path_outside root nc) as [O1 O2].
    destruct G4 as (_ & _ & Hf4). by rewrite Hf4, Hsame3. }
  assert (∀ nc, nc ∈ Scaf.ledgers →
            fs5 !! (nc.1 :: root) = fs !! (nc.1 :: root)) as K3.
  { intros nc Hin. destruct (ledger_path_outside root nc Hin) as (O1 & O2 & O3).
    destruct G4 as (_ & _ & Hf4). destruct G5 as (_ & _ & Hf5).
    by rewrite Hf5, Hf4, Hsame3. }
  assert (fs3 ⊆ fs6) as Hsub36 by (trans fs4; [done|]; by trans fs5).
  split; [|split].
  - intros d. unfold Scaf.scaffold_dirs. rewrite !elem_of_cons, elem_of_nil.
    intros [->|[->|[->|[]]]]; by apply (is_dir_mono fs3).
  - intros p c. unfold Scaf.scaffold_files. cbv zeta.
    rewrite !elem_of_app, !list_elem_of_fmap.
    intros [(nc & [= -> ->] & Hin)|[(nc & [= -> ->] & Hin)|(nc & [= -> ->] & Hin)]].
    + split.
      * destruct (Hall4 nc Hin) as [e He]. exists e.
        apply (lookup_weaken _ _ _ _ He). by trans fs5.
      * intros Hnone. apply (lookup_weaken fs4); [|by trans fs5].
        apply Hcont4; [done|]. by rewrite K1.
    + split.
      * destruct (Hall5 nc Hin) as [e He]. exists e.
        by apply (lookup_weaken _ _ _ _ He).
      * intros Hnone. apply (lookup_weaken fs5); [|done].
        apply Hcont5; [done|]. by rewrite K2.
    + split; [by apply Hall6|].
      intros Hnone. apply Hcont6; [done|]. by rewrite K3.
  - f_equal. rewrite scaffold_files_paths, !filter_app, Hc1, Hc2, Hc3.
    f_equal; [|f_equal; [|f_equal]].
    + apply filter_missing_lookup. by repeat constructor.
    + apply filter_lookup_frame.
      intros p (nc & -> & Hin)%list_elem_of_fmap. by apply K1.
    + apply filter_lookup_frame.
      intros p (nc & -> & Hin)%list_elem_of_fmap. by apply K2.
    + apply filter_lookup_frame.
      intros p (nc & -> & Hin)%list_elem_of_fmap. by apply K3.
Qed.

Lemma filter_missing_nil fs (l : list (list string)) :
  (∀ p, p ∈ l → Scaf.exists_ fs p = true) →
  filter (λ p, Scaf.exists_ fs p = false) l = [].
Proof.
  induction l as [|p l IH]; intros H; [done|].
  rewrite filter_cons, decide_False, IH; [done| |].
  - intros ??. apply H. by right.
  - rewrite H by left. done.
Qed.

Lemma main_noop root fs :
  Scaf.wf fs →
  (∀ d, d ∈ Scaf.scaffold_dirs root → Scaf.is_dir fs d = true) →
  (∀ p, p ∈ (Scaf.scaffold_files root).*1 → is_Some (fs !! p)) →
  Scaf.main root fs
  = (fs, inr ["No changes (all scaffold files already exist)."]).
Proof.
  intros Hwf Hd Hf. unfold Scaf.main. cbv zeta.
  rewrite scaffold_files_paths in Hf.
  unfold Scaf.bind, Scaf.missing, Scaf.syscall. cbv beta iota.
  rewrite (filter_missing_nil fs).
  2:{ intros d Hin. by apply is_dir_exists, Hd. }
  rewrite (mkdir_p_noop _ fs Hwf) by (apply Hd; unfold Scaf.scaffold_dirs; set_solver).
  cbv beta iota.
  rewrite (mkdir_p_noop _ fs Hwf) by (apply Hd; unfold Scaf.scaffold_dirs; set_solver).
  cbv beta iota.
  rewrite (mkdir_p_noop _ fs Hwf) by (apply Hd; unfold Scaf.scaffold_dirs; set_solver).
  cbv beta iota. rewrite write_all_noop.
  2:{ intros nc Hin. apply Hf. rewrite !elem_of_app. left.
      by apply (list_elem_of_fmap_2 (λ nc : string * string, nc.1 :: _)). }
  cbv beta iota. rewrite write_all_noop.
  2:{ intros nc Hin. apply Hf. rewrite !elem_of_app. right. left.
      by apply (list_elem_of_fmap_2 (λ nc : string * string, nc.1 :: _)). }
  cbv beta iota. rewrite write_all_noop.
  2:{ intros nc Hin. apply Hf. rewrite !elem_of_app. right. right.
      by apply (list_elem_of_fmap_2 (λ nc : string * string, nc.1 :: _)). }
  done.
Qed.

Lemma syscall_inr call fs fs' u :
  Scaf.syscall call fs = (fs', inr u) → call fs = inr fs'.
Proof.
  unfold Scaf.syscall. destruct (call fs); [done|]. by intros [= <-].
Qed.

Lemma relative_to_below root rel : Scaf.relative_to root (rel ++ root) = Some rel.
Proof.
  unfold Scaf.relative_to. rewrite length_app.
  replace (length rel + length root - length root) with (length rel) by lia.
  rewrite drop_app_length, decide_True by done. by rewrite take_app_length.
Qed.

Lemma scaffold_paths_below root p :
  p ∈ Scaf.scaffold_dirs root ++ (Scaf.scaffold_files root).*1 →
  ∃ rel, p = rel ++ root.
Proof.
  rewrite scaffold_files_paths, !elem_of_app, !list_elem_of_fmap.
  unfold Scaf.scaffold_dirs. rewrite !elem_of_cons, elem_of_nil.
  intros [[->|[->|[->|[]]]]
         |[(nc & -> & _)|[(nc & -> & _)|(nc & -> & _)]]].
  - by exists ["codegraph"].
  - by exists ["layers"; "codegraph"].
  - by exists ["diagrams"; "codegraph"].
  - by exists [nc.1; "codegraph"].
  - by exists [nc.1; "layers"; "codegraph"].
  - by exists [nc.1].
Qed.

Lemma report_relative root created :
  (∀ p, p ∈ created → ∃ rel, p = rel ++ root) →
  Scaf.report root created
  = match created with
    | [] => [ "No changes (all scaffold files already exist)." ]
    | _ => "Scaffold created:"
             :: ((λ p, "- " +:+ Scaf.render_rel (take (length p - length root) p))
                   <$> created)
    end.
Proof.
  intros H. unfold Scaf.report. destruct created as [|p0 l]; [done|].
  f_equal. apply Forall_fmap_ext_1, Forall_forall. intros p Hin.
  destruct (H p Hin) as [rel ->]. rewrite relative_to_below, length_app.
  replace (length rel + length root - length root) with (length rel) by lia.
  by rewrite take_app_length.
Qed.

(** X22. [_write_if_missing] never replaces or removes an entry: it
    returns [False] and changes nothing when the path exists, and returns
    [True] only after writing the content at a path that was free. *)
Theorem write_if_missing_writes_only_absent_paths name dir content fs fs' r :
  Scaf.wf fs → Scaf._write_if_missing (name :: dir) content fs = (fs', r) →
  Scaf.wf fs'
  ∧ (∀ q e, fs !! q = Some e → fs' !! q = Some e)
  ∧ (∀ b, r = inr b →
       if b then fs !! (name :: dir) = None
                 ∧ fs' !! (name :: dir) = Some (Scaf.File content)
       else is_Some (fs !! (name :: dir)) ∧ fs' = fs).
Proof.
  intros Hwf H.
  destruct (write_if_missing_spec _ _ _ _ _ _ Hwf H) as (Hwf' & Hsub & _ & Hb).
  split; [done|]. split; [|done].
  intros q e Hq. by apply (lookup_weaken _ _ _ _ Hq Hsub).
Qed.

(** X23. Whatever the outcome of a run of the scaffolding script, also
    when it fails half way, every entry that existed still exists with
    the same content, and nothing outside the scaffold's own paths has
    changed. *)
Theorem scaffold_keeps_existing_entries root fs fs' r :
  Scaf.wf fs → Scaf.main root fs = (fs', r) →
  Scaf.wf fs'
  ∧ (∀ p e, fs !! p = Some e → fs' !! p = Some e)
  ∧ (∀ q, ¬ Scaf.footprint root q → fs' !! q = fs !! q).
Proof.
  intros Hwf H. destruct (main_spec _ _ _ _ Hwf H) as [(Hwf' & Hsub & Hf) _].
  split; [done|]. split; [|done].
  intros p e Hp. by apply (lookup_weaken _ _ _ _ Hp Hsub).
Qed.

(** X24. After a successful run the three directories are directories
    and every scaffold file exists: with its template content when it was
    missing, as it was otherwise. *)
Theorem scaffold_complete_after_success root fs fs' out :
  Scaf.wf fs → Scaf.main root fs = (fs', inr out) →
  (∀ d, d ∈ Scaf.scaffold_dirs root → Scaf.is_dir fs' d = true)
  ∧ (∀ p c, (p, c) ∈ Scaf.scaffold_files root →
       match fs !! p with
       | Some e => fs' !! p = Some e
       | None => fs' !! p = Some (Scaf.File c)
       end).
Proof.
  intros Hwf H.
  destruct (main_spec _ _ _ _ Hwf H) as [(_ & Hsub & _) Hout].
  destruct (Hout out eq_refl) as (Hd & Hf & _).
  split; [done|]. intros p c Hin.
  destruct (fs !! p) as [e|] eqn:E.
  - by apply (lookup_weaken _ _ _ _ E Hsub).
  - by apply (Hf p c Hin).
Qed.

(** X25. The report of a successful run lists, relative to the root and
    in the order directories, codegraph files, layer files, ledgers,
    exactly the scaffold paths that did not exist before the run; it is
    the single line "No changes" when there was none. *)
Theorem scaffold_report_lists_missing_paths root fs fs' out :
  Scaf.wf fs → Scaf.main root fs = (fs', inr out) →
  out = match filter (λ p, fs !! p = None)
                (Scaf.scaffold_dirs root ++ (Scaf.scaffold_files root).*1) with
        | [] => [ "No changes (all scaffold files already exist)." ]
        | created =>
            "Scaffold created:"
              :: ((λ p, "- " +:+ Scaf.render_rel (take (length p - length root) p))
                    <$> created)
        end.
Proof.
  intros Hwf H. destruct (main_spec _ _ _ _ Hwf H) as [_ Hout].
  destruct (Hout out eq_refl) as (_ & _ & ->).
  rewrite report_relative.
  - by destruct (filter _ _).
  - intros p [_ Hin]%list_elem_of_filter. by apply scaffold_paths_below.
Qed.

(** X26. The script is idempotent: a second run after a successful one
    succeeds, leaves the file system as it is and prints "No changes". *)
Theorem scaffold_second_run_changes_nothing root fs fs' out :
  Scaf.wf fs → Scaf.main root fs = (fs', inr out) →
  Scaf.main root fs'
  = (fs', inr [ "No changes (all scaffold files already exist)." ]).
Proof.
  intros Hwf H. destruct (main_spec _ _ _ _ Hwf H) as [(Hwf' & _ & _) Hout].
  destruct (Hout out eq_refl) as (Hd & Hf & _).
  apply main_noop; [done|done|].
  intros p ([p' c] & -> & Hin)%list_elem_of_fmap. by apply (Hf p' c).
Qed.

(** X27. On a well-formed file system the script fails exactly when a
    regular file lies where it needs a directory: at the root, at
    [codegraph], [codegraph/layers] or [codegraph/diagrams], or at a
    directory above the root. *)
Theorem scaffold_fails_only_on_blocking_file root fs :
  Scaf.wf fs →
  (∃ fs' out, Scaf.main root fs = (fs', inr out))
  ↔ ∀ q c, q `suffix_of` "layers" :: "codegraph" :: root
           ∨ q `suffix_of` "diagrams" :: "codegraph" :: root →
           fs !! q ≠ Some (Scaf.File c).
Proof.
  intros Hwf. split.
  - intros (fs' & out & H). unfold Scaf.main in H. cbv zeta in H.
    unfold Scaf.missing in H.
    apply bind_inv in H as [(err & _ & [=])|(fs0 & dirs & Hm & H)].
    injection Hm as <- <-.
    apply bind_inv in H as [(err & _ & [=])|(fs1 & [] & Hm1 & H)].
    apply bind_inv in H as [(err & _ & [=])|(fs2 & [] & Hm2 & H)].
    apply bind_inv in H as [(err & _ & [=])|(fs3 & [] & Hm3 & _)].
    destruct (step_mkdir _ _ _ _ Hwf Hm1) as [(Hwf1 & Hsub1 & _) _].
    destruct (step_mkdir _ _ _ _ Hwf1 Hm2) as [(Hwf2 & Hsub2 & _) _].
    apply syscall_inr in Hm2, Hm3.
    intros q c [Hs|Hs] Hq.
    + apply (proj1 (mkdir_p_succeeds _ _ Hwf1) (ex_intro _ _ Hm2) q c Hs).
      by apply (lookup_weaken _ _ _ _ Hq Hsub1).
    + apply (proj1 (mkdir_p_succeeds _ _ Hwf2) (ex_intro _ _ Hm3) q c Hs).
      apply (lookup_weaken _ _ _ _ Hq). by trans fs1.
  - intros Hfree.
    destruct (proj2 (mkdir_p_succeeds ("codegraph" :: root) fs Hwf))
      as [fs1 E1].
    { intros q c Hs. apply Hfree. left. by apply suffix_cons_r. }
    destruct (mkdir_p_spec _ _ _ Hwf E1) as (Hwf1 & Hsub1 & D1 & _).
    destruct (proj2 (mkdir_p_succeeds ("layers" :: "codegraph" :: root) fs1 Hwf1))
      as [fs2 E2].
    { intros q c Hs Hq.
      destruct (mkdir_p_adds_dirs _ _ _ E1 _ _ Hq) as [Hq'|]; [|done].
      apply (Hfree q c); auto. }
    destruct (mkdir_p_spec _ _ _ Hwf1 E2) as (Hwf2 & Hsub2 & D2 & _).
    destruct (proj2 (mkdir_p_succeeds ("diagrams" :: "codegraph" :: root) fs2 Hwf2))
      as [fs3 E3].
    { intros q c Hs Hq.
      destruct (mkdir_p_adds_dirs _ _ _ E2 _ _ Hq) as [Hq'|]; [|done].
      destruct (mkdir_p_adds_dirs _ _ _ E1 _ _ Hq') as [Hq''|]; [|done].
      apply (Hfree q c); auto. }
    destruct (mkdir_p_spec _ _ _ Hwf2 E3) as (Hwf3 & Hsub3 & D3 & _).
    assert (Scaf.is_dir fs3 ("codegraph" :: root) = true) as D1'.
    { apply (is_dir_mono fs1); [by trans fs2|done]. }
    destruct (write_all_succeeds ("codegraph" :: root) Scaf.ssot_files fs3 Hwf3 D1')
      as (fs4 & c1 & E4).
    destruct (write_all_spec _ _ _ _ _ Hwf3 E4) as (Hwf4 & Hsub4 & _).
    assert (Scaf.is_dir fs4 ("layers" :: "codegraph" :: root) = true) as D2'.
    { apply (is_dir_mono fs2); [by trans fs3|done]. }
    destruct (write_all_succeeds _ Scaf.layer_files fs4 Hwf4 D2') as (fs5 & c2 & E5).
    destruct (write_all_spec _ _ _ _ _ Hwf4 E5) as (Hwf5 & Hsub5 & _).
    assert (Scaf.is_dir fs5 root = true) as D0.
    { apply (wf_ancestors fs5 ("codegraph" :: root)); [done| |by apply suffix_cons_r].
      apply (is_dir_mono fs3); [by trans fs4|done]. }
    destruct (write_all_succeeds _ Scaf.ledgers fs5 Hwf5 D0) as (fs6 & c3 & E6).
    unfold Scaf.main. cbv zeta. unfold Scaf.bind, Scaf.missing, Scaf.syscall. cbv beta iota.
    rewrite E1. cbv beta iota. rewrite E2. cbv beta iota. rewrite E3.
    cbv beta iota. rewrite E4. cbv beta iota. rewrite E5. cbv beta iota.
    rewrite E6. cbv beta iota. unfold Scaf.ret. eauto.
Qed.

End scaffold.

(** ** The scaffolding script on the sample workspaces *)

Lemma wf_custom_ledger_fs : Scaf.wf custom_ledger_fs.
Proof.
  change (map_Forall (λ p _, p ≠ [] ∧ Scaf.is_dir custom_ledger_fs (tail p) = true)
            custom_ledger_fs).
  apply (bool_decide_unpack _). vm_compute. exact I.
Qed.

Lemma wf_blocked_fs : Scaf.wf blocked_fs.
Proof.
  change (map_Forall (λ p _, p ≠ [] ∧ Scaf.is_dir blocked_fs (tail p) = true)
            blocked_fs).
  apply (bool_decide_unpack _). vm_compute. exact I.
Qed.

Lemma custom_ledger_run :
  Scaf.main ["ws"] custom_ledger_fs
  = ((Scaf.main ["ws"] custom_ledger_fs).1, inr custom_ledger_report).
Proof.
  assert ((Scaf.main ["ws"] custom_ledger_fs).2 = inr custom_ledger_report) as <-.
  { vm_compute. reflexivity. }
  apply surjective_pairing.
Qed.

Lemma write_if_missing_writes_only_absent_paths_witness :
  is_Some (custom_ledger_fs !! ["unknowns.md"; "ws"])
  ∧ custom_ledger_fs = custom_ledger_fs.
Proof.
  destruct (write_if_missing_writes_only_absent_paths
              "unknowns.md" ["ws"] "# Unknowns Ledger" custom_ledger_fs
              custom_ledger_fs (inr false)) as (_ & _ & Hb).
  - exact wf_custom_ledger_fs.
  - unfold Scaf._write_if_missing.
    assert (Scaf.exists_ custom_ledger_fs ["unknowns.md"; "ws"] = true) as ->
      by (vm_compute; reflexivity).
    reflexivity.
  - exact (Hb false eq_refl).
Defined.

Lemma scaffold_keeps_existing_entries_witness :
  (Scaf.main ["ws"] custom_ledger_fs).1 !! ["unknowns.md"; "ws"]
  = Some (Scaf.File "# Unknowns Ledger (with notes)").
Proof.
  destruct (scaffold_keeps_existing_entries ["ws"] custom_ledger_fs
              (Scaf.main ["ws"] custom_ledger_fs).1
              (inr custom_ledger_report)) as (_ & Hkeep & _).
  - exact wf_custom_ledger_fs.
  - exact custom_ledger_run.
  - apply Hkeep. vm_compute. reflexivity.
Defined.

Lemma scaffold_complete_after_success_witness :
  Scaf.is_dir (Scaf.main ["ws"] custom_ledger_fs).1 ["diagrams"; "codegraph"; "ws"]
  = true.
Proof.
  destruct (scaffold_complete_after_success ["ws"] custom_ledger_fs
              (Scaf.main ["ws"] custom_ledger_fs).1 custom_ledger_report)
    as (Hd & _).
  - exact wf_custom_ledger_fs.
  - exact custom_ledger_run.
  - apply Hd. unfold Scaf.scaffold_dirs.
    do 2 apply list_elem_of_further. apply list_elem_of_here.
Defined.

Lemma scaffold_report_lists_missing_paths_witness :
  custom_ledger_report
  = match filter (λ p, custom_ledger_fs !! p = None)
            (Scaf.scaffold_dirs ["ws"] ++ (Scaf.scaffold_files ["ws"]).*1) with
    | [] => [ "No changes (all scaffold files already exist)." ]
    | created =>
        "Scaffold created:"
          :: ((λ p, "- " +:+ Scaf.render_rel (take (length p - length ["ws"]) p))
                <$> created)
    end.
Proof.
  apply (scaffold_report_lists_missing_paths ["ws"] custom_ledger_fs
           (Scaf.main ["ws"] custom_ledger_fs).1 custom_ledger_report).
  - exact wf_custom_ledger_fs.
  - exact custom_ledger_run.
Defined.

Lemma scaffold_second_run_changes_nothing_witness :
  Scaf.main ["ws"] (Scaf.main ["ws"] custom_ledger_fs).1
  = ((Scaf.main ["ws"] custom_ledger_fs).1,
     inr [ "No changes (all scaffold files already exist)." ]).
Proof.
  apply (scaffold_second_run_changes_nothing ["ws"] custom_ledger_fs
           (Scaf.main ["ws"] custom_ledger_fs).1 custom_ledger_report).
  - exact wf_custom_ledger_fs.
  - exact custom_ledger_run.
Defined.

Lemma scaffold_fails_only_on_blocking_file_witness :
  (∃ fs' out, Scaf.main ["ws"] blocked_fs = (fs', inr out))
  ↔ ∀ q c, q `suffix_of` [ "layers"; "codegraph"; "ws" ]
           ∨ q `suffix_of` [ "diagrams"; "codegraph"; "ws" ] →
           blocked_fs !! q ≠ Some (Scaf.File c).
Proof.
  apply (scaffold_fails_only_on_blocking_file ["ws"] blocked_fs).
  exact wf_blocked_fs.
Defined.
